(** * Command: a command-line argument dispatcher (src/src/index.ts)

    A shallow embedding of the [Command] class: command-name resolution,
    the tokenizer [getRawArguments], the schema resolver
    [getCommandParameters] and the dispatcher [getCommandExecutable],
    followed by the properties established about them.

    Modelling conventions.
    - A JavaScript string is a [string]: a sequence of code units below 256
      (the Latin-1 range), on which [toLowerCase] and the three regular
      expressions of the source are defined exactly. The expressions are
      given twice: as matchers that compute, and as patterns with a
      declarative meaning, the two being proved to agree.
    - [throw new Error(msg)] is the [Throw] completion; the thrown error is
      kept as structured data and [message] renders the source's text.
    - Objects used as string-indexed records ([RawArguments],
      [CommandParameters], [Parameters]) are ordered lists of own
      properties, in the order [Object.keys] enumerates them. [Model]
      reads them as their TypeScript index signatures declare them, by
      own property; that is what the code does on every name that is no
      member of [Object.prototype]. [Prototype] gives the resolver and the
      dispatcher with the reads that find inherited members; its resolver
      is proved to be that of [Model] on those names.
    - [Number(s)] and [Number.isNaN] are built-ins of the host; they are an
      interface ([NumberOps]) the development is parametric in. *)

From Stdlib Require Import String Ascii List Bool Arith NArith Lia.
From stdpp Require Import base option list strings gmap.

Local Open Scope string_scope.
Local Open Scope list_scope.
Local Open Scope bool_scope.

(** ** Completions: normal return or a thrown error *)

(** The errors the class throws, one constructor per [throw] statement. *)
Inductive CommandError : Type :=
| InvalidCommandName
| UnknownCommand (commandName : string)
| MalformedArgument (commandLineArg : string)
| InvalidBooleanValue (parameterName rawArgument : string)
| InvalidNumericValue (parameterName rawArgument : string)
| MissingArguments (parameterNames : list string)
| UnknownArguments (argNames : list string).

(** The error kinds of the specification. *)
Inductive ErrorKind : Type :=
| KInvalidCommandName
| KUnknownCommand
| KMalformedArgument
| KTypeConversionError
| KValidationError.

Definition kind (e : CommandError) : ErrorKind :=
  match e with
  | InvalidCommandName => KInvalidCommandName
  | UnknownCommand _ => KUnknownCommand
  | MalformedArgument _ => KMalformedArgument
  | InvalidBooleanValue _ _ => KTypeConversionError
  | InvalidNumericValue _ _ => KTypeConversionError
  | MissingArguments _ => KValidationError
  | UnknownArguments _ => KValidationError
  end.

(** [Array.prototype.join]. *)
Fixpoint join (separator : string) (items : list string) : string :=
  match items with
  | [] => ""
  | [x] => x
  | x :: rest => x +:+ separator +:+ join separator rest
  end.

(** The text given to [new Error(...)] at each [throw]. *)
Definition message (e : CommandError) : string :=
  match e with
  | InvalidCommandName => "No command name provided."
  | UnknownCommand commandName => "Unknown command: " +:+ commandName
  | MalformedArgument commandLineArg => "Invalid argument: " +:+ commandLineArg
  | InvalidBooleanValue parameterName rawArgument =>
      "Invalid boolean value provided for parameter " +:+ parameterName +:+ ": " +:+ rawArgument
  | InvalidNumericValue parameterName rawArgument =>
      "Invalid numeric value provided for parameter " +:+ parameterName +:+ ": " +:+ rawArgument
  | MissingArguments parameterNames => "Missing arguments: " +:+ join ", " parameterNames
  | UnknownArguments argNames => "Unknown arguments: " +:+ join ", " argNames
  end.

Inductive Completion (A : Type) : Type :=
| Normal (value : A)
| Throw (error : CommandError).

Arguments Normal {A} value.
Arguments Throw {A} error.

Definition andThen {A B : Type} (c : Completion A) (k : A -> Completion B) : Completion B :=
  match c with
  | Normal a => k a
  | Throw e => Throw e
  end.

#[global] Instance Completion_ret : MRet Completion := fun A a => Normal a.
#[global] Instance Completion_bind : MBind Completion := fun A B k c => andThen c k.

(** ** Strings *)

Module JsString.

Definition code (c : ascii) : nat := nat_of_ascii c.

Definition between (lo hi : nat) (c : ascii) : bool :=
  (lo <=? code c)%nat && (code c <=? hi)%nat.

(** [A-Z], [a-z], [0-9]. *)
Definition is_upper (c : ascii) : bool := between 65 90 c.
Definition is_lower (c : ascii) : bool := between 97 122 c.
Definition is_digit (c : ascii) : bool := between 48 57 c.

(** The character class [[a-zA-Z]]. *)
Definition is_alpha (c : ascii) : bool := is_lower c || is_upper c.

(** The character class [[a-zA-Z0-9]]. *)
Definition is_alnum (c : ascii) : bool := is_alpha c || is_digit c.

(** The character class [[a-zA-Z0-9_-]]. *)
Definition is_name_char (c : ascii) : bool :=
  is_alnum c || Ascii.eqb c "_" || Ascii.eqb c "-".

(** What [.] excludes: the line terminators LF and CR (the other two,
    U+2028 and U+2029, lie above the code units modelled). *)
Definition is_line_terminator (c : ascii) : bool :=
  (code c =? 10)%nat || (code c =? 13)%nat.

(** Upper-case letters of the Latin-1 range: [A-Z], and U+00C0..U+00DE
    except the multiplication sign U+00D7. Each lower-cases to the code
    unit 32 above it. *)
Definition has_lower_case (c : ascii) : bool :=
  is_upper c || (between 192 222 c && negb (code c =? 215)%nat).

Definition lower_char (c : ascii) : ascii :=
  if has_lower_case c then ascii_of_nat (code c + 32) else c.

(** [String.prototype.toLowerCase]. *)
Fixpoint toLowerCase (s : string) : string :=
  match s with
  | EmptyString => EmptyString
  | String c rest => String (lower_char c) (toLowerCase rest)
  end.

(** Every code unit of [s] satisfies [p]. *)
Fixpoint all_chars (p : ascii -> bool) (s : string) : bool :=
  match s with
  | EmptyString => true
  | String c rest => p c && all_chars p rest
  end.

(** The longest prefix of [s] made of code units satisfying [p], and what
    follows it: what a greedy [[...]*] consumes. *)
Fixpoint span (p : ascii -> bool) (s : string) : string * string :=
  match s with
  | EmptyString => (EmptyString, EmptyString)
  | String c rest =>
      if p c then let (taken, remaining) := span p rest in (String c taken, remaining)
      else (EmptyString, s)
  end.

(** [Array.prototype.includes] on an array of strings. *)
Definition includes (items : list string) (s : string) : bool :=
  existsb (String.eqb s) items.

End JsString.

(** ** The three regular expressions *)

Module RegExp.
Import JsString.

(** The part of a match array the source reads: [matches[1]] and
    [matches[2]]; [None] in [group2] is [undefined]. *)
Record Matches : Type := { group1 : string; group2 : option string }.

(** The command-name pattern, anchored at both ends: one of [a-zA-Z], then
    any number of [a-zA-Z0-9_-]. The result is whether [s.match(...)] is
    not null. *)
Definition COMMAND_NAME_REGEXP (s : string) : bool :=
  match s with
  | EmptyString => false
  | String c rest => is_alpha c && all_chars is_name_char rest
  end.

(** What follows the name in the long form: nothing, or [=] and a
    non-empty value free of line terminators, up to the end of input. *)
Definition value_part (tail : string) : option (option string) :=
  match tail with
  | EmptyString => Some None
  | String c value =>
      if Ascii.eqb c "="
      then match value with
           | EmptyString => None
           | String _ _ =>
               if all_chars (fun x => negb (is_line_terminator x)) value
               then Some (Some value) else None
           end
      else None
  end.

(** The capture group the two argument patterns share: one of [a-zA-Z0-9],
    then any number of [a-zA-Z0-9_-] taken greedily, at the front of [s];
    returned with the rest of [s]. *)
Definition name_part (s : string) : option (string * string) :=
  match s with
  | EmptyString => None
  | String c rest =>
      if is_alnum c
      then let '(more, tail) := span is_name_char rest in Some (String c more, tail)
      else None
  end.

(** The long-form pattern, anchored at both ends: two dashes, the name
    group, then optionally [=] and the value group [(.+)]. No code unit of
    the name class is [=], so the greedy name is the only candidate the
    backtracking matcher can succeed with. *)
Definition COMMAND_ARGUMENT_NAME_REGEXP (s : string) : option Matches :=
  match s with
  | String d1 (String d2 body) =>
      if Ascii.eqb d1 "-" && Ascii.eqb d2 "-"
      then match name_part body with
           | Some (name, tail) =>
               match value_part tail with
               | Some value => Some {| group1 := name; group2 := value |}
               | None => None
               end
           | None => None
           end
      else None
  | _ => None
  end.

(** The short-form pattern, anchored at both ends: one dash and the name
    group. Its match array has no index 2, so [matches[2]] is
    [undefined]. *)
Definition COMMAND_ARGUMENT_SHORTHAND_REGEXP (s : string) : option Matches :=
  match s with
  | String d1 body =>
      if Ascii.eqb d1 "-"
      then match name_part body with
           | Some (name, EmptyString) => Some {| group1 := name; group2 := None |}
           | _ => None
           end
      else None
  | EmptyString => None
  end.

(** *** The patterns as regular expressions

    The three functions above are matchers written by hand. Here are the
    patterns themselves, as syntax, with what it means for a whole string
    to match one and which substrings its capture groups then hold; the
    matchers are proved to compute exactly that. *)

Inductive regex : Type :=
| Class (p : ascii -> bool)
| Cat (r1 r2 : regex)
| Star (r : regex)
| Optional (r : regex)
| Group (index : nat) (r : regex).

(** [Accepts r s groups]: the whole of [s] matches [r], the capture
    groups holding [groups]. (No pattern of the source has a group under a
    repetition.) *)
Inductive Accepts : regex -> string -> list (nat * string) -> Prop :=
| accepts_class (p : ascii -> bool) (c : ascii) :
    p c = true -> Accepts (Class p) (String c EmptyString) []
| accepts_cat (r1 r2 : regex) (s1 s2 : string) (g1 g2 : list (nat * string)) :
    Accepts r1 s1 g1 -> Accepts r2 s2 g2 -> Accepts (Cat r1 r2) (s1 +:+ s2) (g1 ++ g2)
| accepts_star_done (r : regex) :
    Accepts (Star r) EmptyString []
| accepts_star_more (r : regex) (s1 s2 : string) (g1 g2 : list (nat * string)) :
    Accepts r s1 g1 -> Accepts (Star r) s2 g2 -> Accepts (Star r) (s1 +:+ s2) (g1 ++ g2)
| accepts_optional_skip (r : regex) :
    Accepts (Optional r) EmptyString []
| accepts_optional_take (r : regex) (s : string) (g : list (nat * string)) :
    Accepts r s g -> Accepts (Optional r) s g
| accepts_group (index : nat) (r : regex) (s : string) (g : list (nat * string)) :
    Accepts r s g -> Accepts (Group index r) s ((index, s) :: g).

(** What group [index] holds; [None] is [undefined]. *)
Fixpoint capture (index : nat) (groups : list (nat * string)) : option string :=
  match groups with
  | [] => None
  | (i, s) :: rest => if (i =? index)%nat then Some s else capture index rest
  end.

(** The dot: any code unit but a line terminator. *)
Definition dot (c : ascii) : bool := negb (is_line_terminator c).

(** The sub-pattern of a name: one of [a-zA-Z0-9], then optionally any
    number of [a-zA-Z0-9_-]. *)
Definition NAME_GROUP : regex :=
  Cat (Class is_alnum) (Optional (Star (Class is_name_char))).

(** The source's [COMMAND_NAME_REGEXP] between its anchors. *)
Definition COMMAND_NAME_PATTERN : regex :=
  Cat (Class is_alpha) (Optional (Star (Class is_name_char))).

(** The source's [COMMAND_ARGUMENT_NAME_REGEXP] between its anchors. *)
Definition COMMAND_ARGUMENT_NAME_PATTERN : regex :=
  Cat (Class (Ascii.eqb "-"))
    (Cat (Class (Ascii.eqb "-"))
       (Cat (Group 1 NAME_GROUP)
          (Optional (Cat (Class (Ascii.eqb "="))
                         (Group 2 (Cat (Class dot) (Star (Class dot)))))))).

(** The source's [COMMAND_ARGUMENT_SHORTHAND_REGEXP] between its anchors. *)
Definition COMMAND_ARGUMENT_SHORTHAND_PATTERN : regex :=
  Cat (Class (Ascii.eqb "-")) (Group 1 NAME_GROUP).

(** [stops p tail]: a greedy run of [p] cannot go on into [tail]. *)
Definition stops (p : ascii -> bool) (tail : string) : Prop :=
  match tail with
  | EmptyString => True
  | String d _ => p d = false
  end.

(** A well-formed argument name: what the name group matches. *)
Definition is_name (name : string) : Prop :=
  exists c rest, name = String c rest /\ is_alnum c = true
                 /\ all_chars is_name_char rest = true.

End RegExp.

(** ** Objects as ordered records of own properties *)

Module JsObject.
Import JsString.

(** The own enumerable string-keyed properties of an object, in the order
    [Object.keys] and [Object.entries] enumerate them. *)
Definition t (A : Type) : Type := list (string * A).

(** The object literal [{}]. *)
Definition empty {A : Type} : t A := [].

Definition keys {A : Type} (o : t A) : list string := map fst o.

Definition entries {A : Type} (o : t A) : list (string * A) := o.

(** [o[k]] among the own properties of [o]; [None] is that there is
    none. What [o[k]] finds with the prototype of [o] is [Prototype.read]
    below. *)
Fixpoint get {A : Type} (k : string) (o : t A) : option A :=
  match o with
  | [] => None
  | (k', v) :: rest => if String.eqb k' k then Some v else get k rest
  end.

Definition has {A : Type} (k : string) (o : t A) : bool :=
  match get k o with Some _ => true | None => false end.

(** The number a string of decimal digits denotes. *)
Fixpoint digits_value (s : string) (acc : N) : option N :=
  match s with
  | EmptyString => Some acc
  | String c rest =>
      if is_digit c
      then digits_value rest (acc * 10 + (N.of_nat (code c) - 48))%N
      else None
  end.

(** A property key is an array index when it is the canonical decimal
    form of an integer between 0 and 2^32 - 2. *)
Definition array_index (k : string) : option N :=
  match k with
  | EmptyString => None
  | String c rest =>
      if Ascii.eqb c "0" && negb (String.eqb rest "")
      then None
      else match digits_value k 0 with
           | Some n => if (n <=? 4294967294)%N then Some n else None
           | None => None
           end
  end.

(** Assignment to a property that exists keeps its place. *)
Fixpoint replace {A : Type} (k : string) (v : A) (o : t A) : t A :=
  match o with
  | [] => []
  | (k', v') :: rest =>
      if String.eqb k' k then (k, v) :: rest else (k', v') :: replace k v rest
  end.

(** A new array-index key goes among the array-index keys, which come
    first and in ascending numeric order. *)
Fixpoint insert_index {A : Type} (n : N) (k : string) (v : A) (o : t A) : t A :=
  match o with
  | [] => [(k, v)]
  | (k', v') :: rest =>
      match array_index k' with
      | Some m => if (m <? n)%N then (k', v') :: insert_index n k v rest
                  else (k, v) :: o
      | None => (k, v) :: o
      end
  end.

(** [o[k] = v]. Any other new key goes last. *)
Definition set {A : Type} (k : string) (v : A) (o : t A) : t A :=
  if has k o then replace k v o
  else match array_index k with
       | Some n => insert_index n k v o
       | None => o ++ [(k, v)]
       end.

(** [touches name before after]: [after] differs from [before] by
    assignments to the one property [name] at most. *)
Definition touches {A : Type} (name : string) (before after : t A) : Prop :=
  (forall k, k <> name -> get k after = get k before)
  /\ (forall k, In k (keys after) <->
                In k (keys before) \/ (k = name /\ get name after <> None))
  /\ (NoDup (keys before) -> NoDup (keys after)).

End JsObject.

(** ** Data model *)

(** The host's numeric conversion: [Number(s)] and [Number.isNaN]. *)
Class NumberOps : Type := {
  number : Type;
  Number : string -> number;
  Number_isNaN : number -> bool
}.

Module Model.
Import JsString RegExp.

Section WithHost.
Context `{NumberOps}.

(** The result type [unknown] of a command handling function. *)
Context {unknown : Type}.

(** [CommandParameter | null]. *)
Inductive Value : Type :=
| VBoolean (b : bool)
| VNumber (n : number)
| VString (s : string)
| VNull.

(** [CommandParameters]: parameter name to value. *)
Definition CommandParameters : Type := JsObject.t Value.

(** A handler either returns a result or throws one. *)
Inductive Outcome : Type :=
| Returned (r : unknown)
| Raised (r : unknown).

Definition CommandFunction : Type := CommandParameters -> Outcome.

(** The [type] field of a parameter configuration. *)
Inductive ParameterType : Type := TNumber | TString | TBoolean.

(** [AbstractParameter]; an absent optional field is [None]. *)
Record AbstractParameter : Type := {
  type : ParameterType;
  defaultValue : option Value;
  shorthand : option string;
  description : option string
}.

(** The source's type [Parameters<CommandParameters>]: parameter name to
    configuration. *)
Definition ParametersConfig : Type := JsObject.t AbstractParameter.

(** [AbstractCommandConfig]. *)
Record CommandConfig : Type := {
  parameters : ParametersConfig;
  command : CommandFunction;
  commandDescription : option string
}.

(** [CommandConfigs]: command name to configuration; only ever read by
    name. *)
Definition CommandConfigs : Type := gmap string CommandConfig.

(** The values of [RawArguments]: [string | null]. *)
Inductive RawValue : Type :=
| RawNull
| RawString (s : string).

Definition RawArguments : Type := JsObject.t RawValue.

(** [CommandExecutable]: what [command.bind(null, commandParameters)]
    returns, a function of no argument that remembers its target and the
    bound argument. *)
Record CommandExecutable : Type := {
  boundTarget : CommandFunction;
  boundArgument : CommandParameters
}.

Definition bind (f : CommandFunction) (commandParameters : CommandParameters) : CommandExecutable :=
  {| boundTarget := f; boundArgument := commandParameters |}.

(** Calling the executable: [commandExecutable()]. *)
Definition call (commandExecutable : CommandExecutable) : Outcome :=
  boundTarget commandExecutable (boundArgument commandExecutable).

(** ** Command-name resolution *)

(** [getCommandName]; [argv !! 2] is [argv[2]], [None] when
    [undefined]. *)
Definition getCommandName (argv : list string) : Completion string :=
  match argv !! 2%nat with
  | Some name =>
      if COMMAND_NAME_REGEXP name then Normal name
      else if bool_decide (is_Some (COMMAND_ARGUMENT_NAME_REGEXP name))
              || bool_decide (is_Some (COMMAND_ARGUMENT_SHORTHAND_REGEXP name))
      then Normal "default"
      else Throw InvalidCommandName
  | None => Normal "default"
  end.

(** [getCommandLineArguments]; [drop n argv] is [argv.slice(n)]. *)
Definition getCommandLineArguments (argv : list string) (commandName : string) : list string :=
  if String.eqb commandName "default" then drop 2 argv else drop 3 argv.

(** [getCommandConfig], the registry read by own property; with the
    members it inherits, [Prototype.getCommandConfig]. *)
Definition getCommandConfig (commandConfigs : CommandConfigs) (commandName : string)
  : Completion CommandConfig :=
  match commandConfigs !! commandName with
  | None => Throw (UnknownCommand commandName)
  | Some commandConfig => Normal commandConfig
  end.

(** ** Tokenizer *)

(** [Array.prototype.reduce] with an initial value, from position [index]
    on: the callback receives the accumulator, the element and its index,
    and a [throw] inside it ends the reduction. *)
Fixpoint reduce {A B : Type} (callback : B -> A -> nat -> Completion B)
    (elements : list A) (index : nat) (accumulator : B) : Completion B :=
  match elements with
  | [] => Normal accumulator
  | element :: rest =>
      accumulator' ← callback accumulator element index;
      reduce callback rest (S index) accumulator'
  end.

(** What the reduction of [getRawArguments] carries from one call of its
    callback to the next: the captured variable [skipNextArg] and the
    accumulator [result]. *)
Record Scan : Type := { skipNextArg : bool; result : RawArguments }.

(** [s.match(COMMAND_ARGUMENT_NAME_REGEXP) ??
     s.match(COMMAND_ARGUMENT_SHORTHAND_REGEXP)]. *)
Definition matchArgument (s : string) : option Matches :=
  match COMMAND_ARGUMENT_NAME_REGEXP s with
  | Some matches => Some matches
  | None => COMMAND_ARGUMENT_SHORTHAND_REGEXP s
  end.

(** The callback given to [reduce] in [getRawArguments]. *)
Definition scanArgument (commandLineArguments : list string)
    (scan : Scan) (commandLineArg : string) (index : nat) : Completion Scan :=
  if skipNextArg scan
  then Normal {| skipNextArg := false; result := result scan |}
  else
    match matchArgument commandLineArg with
    | None => Throw (MalformedArgument commandLineArg)
    | Some matches =>
        match group2 matches with
        | Some value =>
            Normal {| skipNextArg := false;
                      result := JsObject.set (group1 matches) (RawString value) (result scan) |}
        | None =>
            match commandLineArguments !! (index + 1)%nat with
            | Some next =>
                if bool_decide (COMMAND_ARGUMENT_NAME_REGEXP next = None)
                   && bool_decide (COMMAND_ARGUMENT_SHORTHAND_REGEXP next = None)
                then Normal {| skipNextArg := true;
                               result := JsObject.set (group1 matches) (RawString next) (result scan) |}
                else Normal {| skipNextArg := false;
                               result := JsObject.set (group1 matches) RawNull (result scan) |}
            | None =>
                Normal {| skipNextArg := false;
                          result := JsObject.set (group1 matches) RawNull (result scan) |}
            end
        end
    end.

(** [getRawArguments]. *)
Definition getRawArguments (commandLineArguments : list string) : Completion RawArguments :=
  scan ← reduce (scanArgument commandLineArguments) commandLineArguments 0
            {| skipNextArg := false; result := JsObject.empty |};
  Normal (result scan).

(** The reduction of [getRawArguments] once it has reached position
    [index] with the state [scan]. *)
Definition scanFrom (commandLineArguments : list string) (index : nat) (scan : Scan)
  : Completion Scan :=
  reduce (scanArgument commandLineArguments) (drop index commandLineArguments) index scan.

(** ** Schema resolver *)

(** The two arrays of accepted boolean spellings. *)
Definition TRUE_TOKENS : list string := ["true"; "yes"; "y"; "on"; "1"].
Definition FALSE_TOKENS : list string := ["false"; "no"; "n"; "off"; "0"].

(** The [switch] on [parameter.type] that converts a raw string and
    assigns it to [commandParameters[parameterName]]. *)
Definition applyRawArgument (parameterName : string) (parameter : AbstractParameter)
    (rawArgument : string) (commandParameters : CommandParameters)
  : Completion CommandParameters :=
  match type parameter with
  | TBoolean =>
      if includes TRUE_TOKENS (toLowerCase rawArgument)
      then Normal (JsObject.set parameterName (VBoolean true) commandParameters)
      else if includes FALSE_TOKENS (toLowerCase rawArgument)
      then Normal (JsObject.set parameterName (VBoolean false) commandParameters)
      else Throw (InvalidBooleanValue parameterName rawArgument)
  | TNumber =>
      let numberValue := Number rawArgument in
      if Number_isNaN numberValue
      then Throw (InvalidNumericValue parameterName rawArgument)
      else Normal (JsObject.set parameterName (VNumber numberValue) commandParameters)
  | TString =>
      Normal (JsObject.set parameterName (VString rawArgument) commandParameters)
  end.

(** [x === true] on the result of a property read. *)
Definition strictEqualsTrue (x : option Value) : bool :=
  match x with
  | Some (VBoolean true) => true
  | _ => false
  end.

(** The callback given to [filter] over [Object.entries(commandParametersConfig)].
    It assigns into the captured [commandParameters] and answers whether
    the parameter is missing. [rawArguments] and [commandParameters] are
    read by own property; with the members they inherit,
    [Prototype.resolveParameter]. *)
Definition resolveParameter (rawArguments : RawArguments)
    (commandParameters : CommandParameters) (entry : string * AbstractParameter)
  : Completion (CommandParameters * bool) :=
  let '(parameterName, parameter) := entry in
  let rawArgument := JsObject.get parameterName rawArguments in
  (* All boolean parameters are false by default. *)
  let commandParameters :=
    match type parameter with
    | TBoolean => JsObject.set parameterName (VBoolean false) commandParameters
    | _ => commandParameters
    end in
  (* Apply default value if it exists. *)
  let commandParameters :=
    match defaultValue parameter with
    | Some value => JsObject.set parameterName value commandParameters
    | None => commandParameters
    end in
  (* Apply command line input value if it exists. *)
  commandParameters ←
    match rawArgument with
    | Some (RawString rawArgument) =>
        applyRawArgument parameterName parameter rawArgument commandParameters
    | _ => Normal commandParameters
    end;
  (* The special case for boolean flags with no value: the statement is a
     comparison, its value is dropped and nothing is assigned. *)
  let _ :=
    match rawArgument, type parameter with
    | Some RawNull, TBoolean =>
        strictEqualsTrue (JsObject.get parameterName commandParameters)
    | _, _ => false
    end in
  Normal (commandParameters,
          bool_decide (JsObject.get parameterName commandParameters = None)).

(** [Array.prototype.filter] with a callback that updates the captured
    [commandParameters] and may throw: the entries kept, and the final
    [commandParameters]. *)
Fixpoint filterEntries (rawArguments : RawArguments)
    (commandParametersConfig : list (string * AbstractParameter))
    (commandParameters : CommandParameters)
  : Completion (CommandParameters * list (string * AbstractParameter)) :=
  match commandParametersConfig with
  | [] => Normal (commandParameters, [])
  | entry :: rest =>
      '(commandParameters, missing) ← resolveParameter rawArguments commandParameters entry;
      '(commandParameters, kept) ← filterEntries rawArguments rest commandParameters;
      Normal (commandParameters, if missing : bool then entry :: kept else kept)
  end.

(** The second [filter]: the keys of [rawArguments] that are no key of
    [commandParametersConfig]. *)
Definition unknownArgumentsOf (commandParametersConfig : ParametersConfig)
    (rawArguments : RawArguments) : list string :=
  List.filter (fun argName => negb (includes (JsObject.keys commandParametersConfig) argName))
              (JsObject.keys rawArguments).

(** [getCommandParameters]. *)
Definition getCommandParameters (commandParametersConfig : ParametersConfig)
    (rawArguments : RawArguments) : Completion CommandParameters :=
  '(commandParameters, missingArguments) ←
    filterEntries rawArguments (JsObject.entries commandParametersConfig) JsObject.empty;
  let unknownArguments := unknownArgumentsOf commandParametersConfig rawArguments in
  if (0 <? length missingArguments)%nat
  then Throw (MissingArguments (map fst missingArguments))
  else if (0 <? length unknownArguments)%nat
  then Throw (UnknownArguments unknownArguments)
  else Normal commandParameters.

(** ** Dispatcher *)

(** [getUsageNotes]. *)
Definition getUsageNotes : string := "".

(** [getCommandExecutable]. *)
Definition getCommandExecutable (commandConfigs : CommandConfigs) (argv : list string)
  : Completion CommandExecutable :=
  commandName ← getCommandName argv;
  let commandLineArguments := getCommandLineArguments argv commandName in
  commandConfig ← getCommandConfig commandConfigs commandName;
  rawArguments ← getRawArguments commandLineArguments;
  commandParameters ← getCommandParameters (parameters commandConfig) rawArguments;
  Normal (bind (command commandConfig) commandParameters).

(** What an observer of the process sees of [run]. *)
Inductive Event : Type :=
| ConsoleLogMessage (text : string)
| ConsoleLogValue (thrown : unknown)
| HandlerInvoked (handler : CommandFunction) (commandParameters : CommandParameters)
| ProcessExit (status : nat).

(** [run], with [process.argv] made an argument: the events it causes, in
    order, and the value it returns when it does. *)
Definition run (commandConfigs : CommandConfigs) (argv : list string)
  : list Event * option unknown :=
  match getCommandExecutable commandConfigs argv with
  | Throw e =>
      ([ConsoleLogMessage (message e); ConsoleLogMessage getUsageNotes; ProcessExit 1], None)
  | Normal commandExecutable =>
      let invoked :=
        HandlerInvoked (boundTarget commandExecutable) (boundArgument commandExecutable) in
      match call commandExecutable with
      | Returned r => ([invoked], Some r)
      | Raised e => ([invoked; ConsoleLogValue e; ProcessExit 1], None)
      end
  end.

End WithHost.
End Model.

(** ** The specification's view of the tokenizer and the resolver

    Definitions written from the words of the specification (sections 4.2
    and 4.3), to be compared with the functions above. *)

Module SpecView.
Import JsString RegExp Model.

(** "If it has no [=value], peek at the next token: if the next token
    exists and itself matches neither the long-form nor short-form
    pattern, consume it as this argument's value". *)
Definition consumesNext (token next : string) : bool :=
  match matchArgument token with
  | Some matches =>
      bool_decide (group2 matches = None) && bool_decide (matchArgument next = None)
  | None => false
  end.

(** The tokens the left-to-right scan looks at: every token but those
    consumed as the value of the argument before them. *)
Fixpoint scannedTokens (tokens : list string) : list string :=
  match tokens with
  | [] => []
  | token :: rest =>
      token :: match rest with
               | next :: rest' =>
                   if consumesNext token next then scannedTokens rest' else scannedTokens rest
               | [] => []
               end
  end.

(** The value a well-formed token binds its name to: the [=value] part
    verbatim, else the token consumed after it, else the no-value
    marker. *)
Definition boundValue (matches : Matches) (rest : list string) : RawValue :=
  match group2 matches with
  | Some value => RawString value
  | None =>
      match rest with
      | next :: _ => if bool_decide (matchArgument next = None) then RawString next else RawNull
      | [] => RawNull
      end
  end.

(** The name/value bindings the scan produces, token after token, up to
    the first malformed token. *)
Fixpoint bindings (tokens : list string) : list (string * RawValue) :=
  match tokens with
  | [] => []
  | token :: rest =>
      match matchArgument token with
      | None => []
      | Some matches =>
          (group1 matches, boundValue matches rest)
          :: match rest with
             | next :: rest' =>
                 if consumesNext token next then bindings rest' else bindings rest
             | [] => []
             end
      end
  end.

(** "A token matching neither is a MalformedArgument error". *)
Abbreviation malformed := (fun token : string => bool_decide (matchArgument token = None)).

(** Assigning a list of bindings in order. *)
Abbreviation assignAll := (fold_left (fun (o : RawArguments) (b : string * RawValue) =>
                                        JsObject.set b.1 b.2 o)).

(** The last binding of [name] in a list of bindings. *)
Definition lastBinding (name : string) (bs : list (string * RawValue)) : option RawValue :=
  JsObject.get name (rev bs).

(** The tokenizer as section 4.2 words it: a recursion over the token
    list that aborts at a malformed token and steps over a consumed
    one. *)
Fixpoint tokenize (tokens : list string) (rawArguments : RawArguments)
  : Completion RawArguments :=
  match tokens with
  | [] => Normal rawArguments
  | token :: rest =>
      match matchArgument token with
      | None => Throw (MalformedArgument token)
      | Some matches =>
          let rawArguments :=
            JsObject.set (group1 matches) (boundValue matches rest) rawArguments in
          match rest with
          | next :: rest' =>
              if consumesNext token next then tokenize rest' rawArguments
              else tokenize rest rawArguments
          | [] => Normal rawArguments
          end
      end
  end.

Section WithHost.
Context `{NumberOps}.

(** "If after steps 1-4 the value is still unset": the parameter is not
    boolean, declares no default, and the raw arguments hold no string for
    it. *)
Definition omitted (rawArguments : RawArguments) (entry : string * AbstractParameter) : bool :=
  match type entry.2, defaultValue entry.2, JsObject.get entry.1 rawArguments with
  | TBoolean, _, _ => false
  | _, Some _, _ => false
  | _, None, Some (RawString _) => false
  | _, None, _ => true
  end.

End WithHost.

(** An error enumerates a list of names when each of them occurs in its
    message. *)
Definition enumerates (e : CommandError) (names : list string) : Prop :=
  Forall (fun name => is_Some (String.index 0 name (message e))) names.

End SpecView.

(** ** Objects with their prototype

    The records of [Model] hold own properties. A property read [o[k]] of
    the source also finds a member of [Object.prototype] when [o] has no
    own property [k], and an assignment to [__proto__] runs the setter of
    [Object.prototype] rather than creating a property. This module gives
    the resolver and the dispatcher with both, for a registry and raw
    arguments that are plain objects and an [Object.prototype] as the
    language defines it. On a schema whose names are no members of
    [Object.prototype] its resolver is that of [Model]
    ([getCommandParameters_ordinary] below). *)

Module Prototype.
Import JsString RegExp Model.

(** The own property names of [Object.prototype]. *)
Definition OBJECT_PROTOTYPE_NAMES : list string :=
  ["constructor"; "__defineGetter__"; "__defineSetter__"; "hasOwnProperty";
   "__lookupGetter__"; "__lookupSetter__"; "isPrototypeOf"; "propertyIsEnumerable";
   "toString"; "valueOf"; "__proto__"; "toLocaleString"].

Definition inherited (name : string) : bool := includes OBJECT_PROTOTYPE_NAMES name.

(** A name that no plain object inherits. *)
Definition ordinary (name : string) : Prop := inherited name = false.

(** What [o[k]] finds: nothing, an own property, or the member [k] of
    [Object.prototype] (a built-in function; for [__proto__] the
    prototype object itself). *)
Inductive Reading (A : Type) : Type :=
| Undefined
| Own (value : A)
| Inherited.
Arguments Undefined {A}.
Arguments Own {A} value.
Arguments Inherited {A}.

(** [x === undefined]. *)
Definition isUndefined {A : Type} (x : Reading A) : bool :=
  match x with
  | Undefined => true
  | _ => false
  end.

(** [o[k]] on a plain object. *)
Definition read {A : Type} (k : string) (o : JsObject.t A) : Reading A :=
  match JsObject.get k o with
  | Some v => Own v
  | None => if inherited k then Inherited else Undefined
  end.

(** The errors the code can end with: those of its [throw] statements
    and those the host raises. *)
Inductive HostError : Type :=
| Thrown (e : CommandError)
    (* a [throw] statement, its message built from strings *)
| InvalidNumericMember (parameterName : string)
    (* the [throw] of the number case, [rawArgument] being a member of
       [Object.prototype]: [Number] of it is NaN *)
| ToLowerCaseIsNotAFunction (parameterName : string)
    (* TypeError: [rawArgument.toLowerCase] of a member of
       [Object.prototype] is undefined *)
| EntriesOfUndefined.
    (* TypeError: [Object.entries(undefined)] *)

Inductive HostCompletion (A : Type) : Type :=
| Returns (value : A)
| Throws (e : HostError).
Arguments Returns {A} value.
Arguments Throws {A} e.

Definition hostAndThen {A B : Type} (c : HostCompletion A) (k : A -> HostCompletion B)
  : HostCompletion B :=
  match c with
  | Returns a => k a
  | Throws e => Throws e
  end.

#[global] Instance HostCompletion_ret : MRet HostCompletion := fun A a => Returns a.
#[global] Instance HostCompletion_bind : MBind HostCompletion :=
  fun A B k c => hostAndThen c k.

(** A call of one of the methods modelled in [Model], whose errors are
    those of their [throw] statements. *)
Definition thrown {A B : Type} (f : A -> B) (c : Completion A) : HostCompletion B :=
  match c with
  | Normal a => Returns (f a)
  | Throw e => Throws (Thrown e)
  end.

Section WithHost.
Context `{NumberOps}.
Context {unknown : Type}.

(** What a property of [commandParameters] can hold: a value of the
    declared type [CommandParameter | null], or the member [name] of
    [Object.prototype] that a read of [rawArguments] found. *)
Inductive HostValue : Type :=
| Plain (value : Value)
| Member (name : string).

(** [commandParameters]: its own properties, and whether its prototype is
    still [Object.prototype] or has been set to [null]. *)
Record HostParameters : Type := {
  hasPrototype : bool;
  properties : JsObject.t HostValue
}.

(** [{}]. *)
Definition emptyParameters : HostParameters :=
  {| hasPrototype := true; properties := JsObject.empty |}.

(** [commandParameters[k]]. *)
Definition readParameter (k : string) (commandParameters : HostParameters)
  : Reading HostValue :=
  match JsObject.get k (properties commandParameters) with
  | Some v => Own v
  | None =>
      if hasPrototype commandParameters && inherited k then Inherited else Undefined
  end.

(** [commandParameters[k] = v] for a value [v] of the declared type. An
    own property is updated. Otherwise the key [__proto__] reaches the
    setter of [Object.prototype] as long as that is the prototype: [null]
    removes the prototype and a primitive is ignored. Any other assignment
    creates the property. *)
Definition assign (k : string) (v : Value) (commandParameters : HostParameters)
  : HostParameters :=
  if JsObject.has k (properties commandParameters)
  then {| hasPrototype := hasPrototype commandParameters;
          properties := JsObject.set k (Plain v) (properties commandParameters) |}
  else if hasPrototype commandParameters && String.eqb k "__proto__"
  then match v with
       | VNull => {| hasPrototype := false; properties := properties commandParameters |}
       | _ => commandParameters
       end
  else {| hasPrototype := hasPrototype commandParameters;
          properties := JsObject.set k (Plain v) (properties commandParameters) |}.

(** [commandParameters[k] = rawArguments[k]] when the read found the
    member [k] of [Object.prototype]. Under the key [__proto__] the value
    is [Object.prototype] itself, and the setter makes it the prototype,
    which it is already. *)
Definition assignMember (k : string) (commandParameters : HostParameters)
  : HostParameters :=
  if JsObject.has k (properties commandParameters)
  then {| hasPrototype := hasPrototype commandParameters;
          properties := JsObject.set k (Member k) (properties commandParameters) |}
  else if hasPrototype commandParameters && String.eqb k "__proto__"
  then commandParameters
  else {| hasPrototype := hasPrototype commandParameters;
          properties := JsObject.set k (Member k) (properties commandParameters) |}.

(** [x === true] on the result of a property read. *)
Definition strictEqualsTrue (x : Reading HostValue) : bool :=
  match x with
  | Own (Plain (VBoolean true)) => true
  | _ => false
  end.

(** The [switch] on [parameter.type] for a raw argument that is a
    string. *)
Definition applyRawArgument (parameterName : string) (parameter : AbstractParameter)
    (rawArgument : string) (commandParameters : HostParameters)
  : HostCompletion HostParameters :=
  match type parameter with
  | TBoolean =>
      if includes TRUE_TOKENS (toLowerCase rawArgument)
      then Returns (assign parameterName (VBoolean true) commandParameters)
      else if includes FALSE_TOKENS (toLowerCase rawArgument)
      then Returns (assign parameterName (VBoolean false) commandParameters)
      else Throws (Thrown (InvalidBooleanValue parameterName rawArgument))
  | TNumber =>
      let numberValue := Number rawArgument in
      if Number_isNaN numberValue
      then Throws (Thrown (InvalidNumericValue parameterName rawArgument))
      else Returns (assign parameterName (VNumber numberValue) commandParameters)
  | TString =>
      Returns (assign parameterName (VString rawArgument) commandParameters)
  end.

(** The same [switch] for a raw argument that is the member
    [parameterName] of [Object.prototype]. *)
Definition applyMember (parameterName : string) (parameter : AbstractParameter)
    (commandParameters : HostParameters)
  : HostCompletion HostParameters :=
  match type parameter with
  | TBoolean => Throws (ToLowerCaseIsNotAFunction parameterName)
  | TNumber => Throws (InvalidNumericMember parameterName)
  | TString => Returns (assignMember parameterName commandParameters)
  end.

(** The callback given to [filter] over
    [Object.entries(commandParametersConfig)]. *)
Definition resolveParameter (rawArguments : RawArguments)
    (commandParameters : HostParameters) (entry : string * AbstractParameter)
  : HostCompletion (HostParameters * bool) :=
  let '(parameterName, parameter) := entry in
  let rawArgument := read parameterName rawArguments in
  (* All boolean parameters are false by default. *)
  let commandParameters :=
    match type parameter with
    | TBoolean => assign parameterName (VBoolean false) commandParameters
    | _ => commandParameters
    end in
  (* Apply default value if it exists. *)
  let commandParameters :=
    match defaultValue parameter with
    | Some value => assign parameterName value commandParameters
    | None => commandParameters
    end in
  (* Apply command line input value if it exists. *)
  commandParameters ←
    match rawArgument with
    | Own (RawString rawArgument) =>
        applyRawArgument parameterName parameter rawArgument commandParameters
    | Inherited => applyMember parameterName parameter commandParameters
    | Own RawNull | Undefined => Returns commandParameters
    end;
  (* The special case for boolean flags with no value: a comparison whose
     value is dropped. *)
  let _ :=
    match rawArgument, type parameter with
    | Own RawNull, TBoolean =>
        strictEqualsTrue (readParameter parameterName commandParameters)
    | _, _ => false
    end in
  Returns (commandParameters, isUndefined (readParameter parameterName commandParameters)).

(** [Array.prototype.filter] with that callback. *)
Fixpoint filterEntries (rawArguments : RawArguments)
    (commandParametersConfig : list (string * AbstractParameter))
    (commandParameters : HostParameters)
  : HostCompletion (HostParameters * list (string * AbstractParameter)) :=
  match commandParametersConfig with
  | [] => Returns (commandParameters, [])
  | entry :: rest =>
      '(commandParameters, missing) ← resolveParameter rawArguments commandParameters entry;
      '(commandParameters, kept) ← filterEntries rawArguments rest commandParameters;
      Returns (commandParameters, if missing : bool then entry :: kept else kept)
  end.

(** [getCommandParameters]. *)
Definition getCommandParameters (commandParametersConfig : ParametersConfig)
    (rawArguments : RawArguments) : HostCompletion HostParameters :=
  '(commandParameters, missingArguments) ←
    filterEntries rawArguments (JsObject.entries commandParametersConfig) emptyParameters;
  let unknownArguments := unknownArgumentsOf commandParametersConfig rawArguments in
  if (0 <? length missingArguments)%nat
  then Throws (Thrown (MissingArguments (map fst missingArguments)))
  else if (0 <? length unknownArguments)%nat
  then Throws (Thrown (UnknownArguments unknownArguments))
  else Returns commandParameters.

(** A command handling function, given the object as the resolver
    returns it. *)
Definition CommandFunction : Type := HostParameters -> Outcome (unknown := unknown).

Record CommandConfig : Type := {
  parameters : ParametersConfig;
  command : CommandFunction
}.

Definition CommandConfigs : Type := gmap string CommandConfig.

(** What [this.commandConfigs[commandName]] finds when it is not
    undefined: a registered configuration, or a member of
    [Object.prototype]. *)
Inductive Found : Type :=
| Registered (commandConfig : CommandConfig)
| BuiltIn (name : string).

(** [getCommandConfig]. *)
Definition getCommandConfig (commandConfigs : CommandConfigs) (commandName : string)
  : HostCompletion Found :=
  match commandConfigs !! commandName with
  | Some commandConfig => Returns (Registered commandConfig)
  | None =>
      if inherited commandName then Returns (BuiltIn commandName)
      else Throws (Thrown (UnknownCommand commandName))
  end.

Record CommandExecutable : Type := {
  boundTarget : CommandFunction;
  boundArgument : HostParameters
}.

Definition bind (f : CommandFunction) (commandParameters : HostParameters)
  : CommandExecutable :=
  {| boundTarget := f; boundArgument := commandParameters |}.

Definition call (commandExecutable : CommandExecutable) : Outcome :=
  boundTarget commandExecutable (boundArgument commandExecutable).

(** [getCommandExecutable]. A member of [Object.prototype] has no
    property [parameters], and [Object.entries] throws on undefined. *)
Definition getCommandExecutable (commandConfigs : CommandConfigs) (argv : list string)
  : HostCompletion CommandExecutable :=
  commandName ← thrown id (getCommandName argv);
  let commandLineArguments := getCommandLineArguments argv commandName in
  commandConfig ← getCommandConfig commandConfigs commandName;
  rawArguments ← thrown id (getRawArguments commandLineArguments);
  match commandConfig with
  | Registered commandConfig =>
      commandParameters ← getCommandParameters (parameters commandConfig) rawArguments;
      Returns (bind (command commandConfig) commandParameters)
  | BuiltIn _ => Throws EntriesOfUndefined
  end.

(** The object of [Model] as the resolver of this module returns it: the
    same own properties, and the prototype every object literal has. *)
Definition plainProperties (commandParameters : Model.CommandParameters)
  : JsObject.t HostValue :=
  map (fun p : string * Value => (p.1, Plain p.2)) commandParameters.

Definition plain (commandParameters : Model.CommandParameters) : HostParameters :=
  {| hasPrototype := true; properties := plainProperties commandParameters |}.

(** The same for what the callback of [filter] and [filter] itself
    return. *)
Definition plainStep (r : Model.CommandParameters * bool) : HostParameters * bool :=
  (plain r.1, r.2).

Definition plainPass (r : Model.CommandParameters * list (string * AbstractParameter))
  : HostParameters * list (string * AbstractParameter) :=
  (plain r.1, r.2).

End WithHost.
End Prototype.

(** ** A host for running examples *)

(** A host used only to evaluate the model on concrete command lines. Its
    [Number] reads the empty string as 0 and a string of decimal digits as
    the integer it denotes, and answers NaN ([None]) on every other
    string. That is the JavaScript conversion on the inputs of the
    examples: the empty string, strings of up to fifteen decimal digits,
    and the word [abc]. It is not the JavaScript conversion in general,
    which also reads signs, fractions, exponents, surrounding white space,
    the prefixes 0x, 0o and 0b and the word Infinity, and rounds longer
    digit strings. *)
#[global] Instance DecimalHost : NumberOps := {
  number := option N;
  Number := fun s => JsObject.digits_value s 0;
  Number_isNaN := fun n => match n with None => true | Some _ => false end
}.

(** Example data: parameter configurations with only a type and possibly a
    default, two schemas, a handler that returns nothing of interest, and
    a registry holding the schemas under the names [default] and
    [greet]. *)
Module Examples.
Import Model.

Definition parameterOf (t : ParameterType) (d : option Value) : AbstractParameter :=
  {| type := t; defaultValue := d; shorthand := None; description := None |}.

Definition greetParameters : ParametersConfig :=
  [("name", parameterOf TString None); ("loud", parameterOf TBoolean None)].

Definition ageParameters : ParametersConfig :=
  [("age", parameterOf TNumber None)].

Definition handler : CommandFunction (unknown := unit) := fun _ => Returned tt.

Definition commandOf (schema : ParametersConfig) : CommandConfig :=
  {| parameters := schema; command := handler; commandDescription := None |}.

Definition registry : CommandConfigs :=
  <["default" := commandOf ageParameters]> (<["greet" := commandOf greetParameters]> ∅).

(** A schema whose one parameter bears the name of a member of
    [Object.prototype], the same with [null] as its default, a schema
    whose one parameter bears another name, and a registry holding the
    first under the name [show] and the last under the name [print]. *)
Definition memberParameters : ParametersConfig :=
  [("toString", parameterOf TString None)].

Definition optionalMemberParameters : ParametersConfig :=
  [("toString", parameterOf TString (Some VNull))].

Definition titleParameters : ParametersConfig :=
  [("title", parameterOf TString None)].

Definition memberHandler : Prototype.CommandFunction (unknown := unit) :=
  fun _ => Returned tt.

Definition memberRegistry : Prototype.CommandConfigs :=
  <["show" := {| Prototype.parameters := memberParameters;
                 Prototype.command := memberHandler |}]>
    (<["print" := {| Prototype.parameters := titleParameters;
                     Prototype.command := memberHandler |}]> ∅).

End Examples.

(** * Properties *)

(** ** Completions *)

Lemma bind_Normal {A B : Type} (a : A) (k : A -> Completion B) :
  Normal a ≫= k = k a.
Proof. reflexivity. Qed.

Lemma bind_Throw {A B : Type} (e : CommandError) (k : A -> Completion B) :
  Throw e ≫= k = Throw e.
Proof. reflexivity. Qed.

(** ** Objects *)

Module JsObjectFacts.
Import JsObject.

Lemma has_true_iff {A : Type} (k : string) (o : t A) :
  has k o = true <-> In k (keys o).
Proof.
  unfold has. induction o as [|[k' v'] o IH]; simpl.
  - split; [discriminate | tauto].
  - destruct (String.eqb_spec k' k) as [->|Hne].
    + split; auto.
    + rewrite IH. split; [auto | intros [?|?]; [contradiction | assumption]].
Qed.

Lemma get_None_iff {A : Type} (k : string) (o : t A) :
  get k o = None <-> ~ In k (keys o).
Proof.
  rewrite <- has_true_iff. unfold has.
  destruct (get k o); split; intros; try congruence; try tauto.
Qed.

Lemma get_replace_eq {A : Type} (k : string) (v : A) (o : t A) :
  has k o = true -> get k (replace k v o) = Some v.
Proof.
  unfold has. induction o as [|[k' v'] o IH]; simpl; [discriminate|].
  destruct (String.eqb_spec k' k) as [->|Hne]; simpl.
  - now rewrite String.eqb_refl.
  - intros Hk. apply String.eqb_neq in Hne. now rewrite Hne, IH.
Qed.

Lemma get_replace_ne {A : Type} (k k' : string) (v : A) (o : t A) :
  k <> k' -> get k' (replace k v o) = get k' o.
Proof.
  intros Hne. induction o as [|[k0 v0] o IH]; simpl; [reflexivity|].
  destruct (String.eqb_spec k0 k) as [->|Hne0]; simpl.
  - apply String.eqb_neq in Hne. now rewrite Hne.
  - now rewrite IH.
Qed.

Lemma keys_replace {A : Type} (k : string) (v : A) (o : t A) :
  keys (replace k v o) = keys o.
Proof.
  induction o as [|[k0 v0] o IH]; simpl; [reflexivity|].
  destruct (String.eqb_spec k0 k) as [->|Hne0]; simpl; [reflexivity|].
  now f_equal.
Qed.

Lemma get_insert_index_eq {A : Type} (n : N) (k : string) (v : A) (o : t A) :
  get k o = None -> get k (insert_index n k v o) = Some v.
Proof.
  induction o as [|[k0 v0] o IH]; simpl.
  - now rewrite String.eqb_refl.
  - destruct (String.eqb_spec k0 k) as [->|Hne0]; [discriminate|].
    intros Hk. apply String.eqb_neq in Hne0.
    destruct (array_index k0) as [m|]; [destruct (m <? n)%N|]; simpl;
      rewrite ?String.eqb_refl, ?Hne0; auto.
Qed.

Lemma get_insert_index_ne {A : Type} (n : N) (k k' : string) (v : A) (o : t A) :
  k <> k' -> get k' (insert_index n k v o) = get k' o.
Proof.
  intros Hne. apply String.eqb_neq in Hne.
  induction o as [|[k0 v0] o IH]; simpl.
  - now rewrite Hne.
  - destruct (array_index k0) as [m|]; [destruct (m <? n)%N|]; simpl;
      rewrite ?Hne, ?IH; reflexivity.
Qed.

Lemma keys_insert_index {A : Type} (n : N) (k : string) (v : A) (o : t A) :
  keys (insert_index n k v o) ≡ₚ k :: keys o.
Proof.
  induction o as [|[k0 v0] o IH]; simpl; [reflexivity|].
  destruct (array_index k0) as [m|]; [destruct (m <? n)%N|]; simpl; try reflexivity.
  fold (keys (insert_index n k v o)). rewrite IH. apply Permutation_swap.
Qed.

Lemma get_app_last {A : Type} (k k' : string) (v : A) (o : t A) :
  get k' (o ++ [(k, v)]) =
  match get k' o with Some x => Some x | None => if String.eqb k k' then Some v else None end.
Proof.
  induction o as [|[k0 v0] o IH]; simpl; [reflexivity|].
  destruct (String.eqb k0 k'); [reflexivity | apply IH].
Qed.

(** Reading back the key just assigned. *)
Lemma get_set_eq {A : Type} (k : string) (v : A) (o : t A) :
  get k (set k v o) = Some v.
Proof.
  unfold set. destruct (has k o) eqn:Hk.
  - now apply get_replace_eq.
  - assert (get k o = None) as Hnone by (unfold has in Hk; destruct (get k o); congruence).
    destruct (array_index k).
    + now apply get_insert_index_eq.
    + rewrite get_app_last, Hnone. now rewrite String.eqb_refl.
Qed.

(** An assignment leaves every other key as it was. *)
Lemma get_set_ne {A : Type} (k k' : string) (v : A) (o : t A) :
  k <> k' -> get k' (set k v o) = get k' o.
Proof.
  intros Hne. unfold set. destruct (has k o).
  - now apply get_replace_ne.
  - destruct (array_index k).
    + now apply get_insert_index_ne.
    + rewrite get_app_last. apply String.eqb_neq in Hne. rewrite Hne.
      now destruct (get k' o).
Qed.

Lemma keys_set_present {A : Type} (k : string) (v : A) (o : t A) :
  has k o = true -> keys (set k v o) = keys o.
Proof. intros Hk. unfold set. rewrite Hk. apply keys_replace. Qed.

Lemma keys_set_fresh {A : Type} (k : string) (v : A) (o : t A) :
  has k o = false -> keys (set k v o) ≡ₚ k :: keys o.
Proof.
  intros Hk. unfold set. rewrite Hk. destruct (array_index k).
  - apply keys_insert_index.
  - unfold keys. rewrite map_app. simpl. symmetry. apply Permutation_cons_append.
Qed.

(** The keys after an assignment: the key assigned and the keys before. *)
Lemma in_keys_set {A : Type} (k k' : string) (v : A) (o : t A) :
  In k' (keys (set k v o)) <-> k' = k \/ In k' (keys o).
Proof.
  destruct (has k o) eqn:Hk.
  - rewrite keys_set_present by assumption. apply has_true_iff in Hk.
    split; [auto | intros [->|?]; assumption].
  - rewrite <- !list_elem_of_In. rewrite (keys_set_fresh k v o Hk).
    rewrite elem_of_cons. reflexivity.
Qed.

(** An assignment never duplicates a key. *)
Lemma NoDup_keys_set {A : Type} (k : string) (v : A) (o : t A) :
  NoDup (keys o) -> NoDup (keys (set k v o)).
Proof.
  intros Hnd. destruct (has k o) eqn:Hk.
  - now rewrite keys_set_present.
  - rewrite (keys_set_fresh k v o Hk). apply NoDup_cons. split; [|assumption].
    rewrite list_elem_of_In, <- has_true_iff. congruence.
Qed.

End JsObjectFacts.

(** ** Regular expressions *)

Module RegExpFacts.
Import JsString RegExp.

Lemma append_cons (c : ascii) (s1 s2 : string) :
  String c s1 +:+ s2 = String c (s1 +:+ s2).
Proof. reflexivity. Qed.

Lemma append_empty_l (s : string) : "" +:+ s = s.
Proof. reflexivity. Qed.

Lemma append_empty_r (s : string) : s +:+ "" = s.
Proof. induction s as [|c s IH]; [reflexivity|]. now rewrite append_cons, IH. Qed.

Lemma span_append (p : ascii -> bool) (s taken remaining : string) :
  span p s = (taken, remaining) -> s = taken +:+ remaining.
Proof.
  revert taken remaining. induction s as [|c s IH]; simpl; intros taken remaining.
  - now intros [= <- <-].
  - destruct (p c).
    + destruct (span p s) as [t' r'] eqn:Hs. intros [= <- <-].
      rewrite append_cons. f_equal. now apply IH.
    + now intros [= <- <-].
Qed.

Lemma name_part_append (s name tail : string) :
  name_part s = Some (name, tail) -> s = name +:+ tail.
Proof.
  destruct s as [|c s]; simpl; [discriminate|].
  destruct (is_alnum c); [|discriminate].
  destruct (span is_name_char s) as [more remaining] eqn:Hs.
  intros [= <- <-]. rewrite append_cons. f_equal.
  now apply span_append with is_name_char.
Qed.

Lemma value_part_some (tail value : string) :
  value_part tail = Some (Some value) -> tail = "=" +:+ value.
Proof.
  destruct tail as [|c v]; simpl; [discriminate|].
  destruct (Ascii.eqb_spec c "=") as [->|]; [|discriminate].
  destruct v as [|c' v']; [discriminate|].
  destruct (all_chars _ _); [|discriminate]. now intros [= <-].
Qed.

Lemma value_part_none (tail : string) :
  value_part tail = Some None -> tail = "".
Proof.
  destruct tail as [|c v]; simpl; [reflexivity|].
  destruct (Ascii.eqb c "="); [|discriminate].
  destruct v; [discriminate|]. destruct (all_chars _ _); discriminate.
Qed.

Lemma long_form_parts (s name : string) (value : option string) :
  COMMAND_ARGUMENT_NAME_REGEXP s = Some {| group1 := name; group2 := value |} ->
  exists tail, s = "--" +:+ name +:+ tail /\ value_part tail = Some value.
Proof.
  destruct s as [|d1 [|d2 body]]; simpl; try discriminate.
  destruct (Ascii.eqb_spec d1 "-") as [->|]; [|discriminate].
  destruct (Ascii.eqb_spec d2 "-") as [->|]; [|discriminate]. simpl.
  destruct (name_part body) as [[nm tail]|] eqn:Hn; [|discriminate].
  destruct (value_part tail) as [v|] eqn:Hv; [|discriminate].
  intros [= -> ->]. apply name_part_append in Hn. exists tail. now subst.
Qed.

(** A long-form match with a value is the token [--name=value], and the
    value group is the text after the first [=], verbatim. *)
Lemma long_form_with_value (s name value : string) :
  COMMAND_ARGUMENT_NAME_REGEXP s = Some {| group1 := name; group2 := Some value |} ->
  s = "--" +:+ name +:+ "=" +:+ value.
Proof.
  intros Hm. apply long_form_parts in Hm as (tail & -> & Hv).
  apply value_part_some in Hv. now subst.
Qed.

(** A long-form match without a value is the token [--name]. *)
Lemma long_form_without_value (s name : string) :
  COMMAND_ARGUMENT_NAME_REGEXP s = Some {| group1 := name; group2 := None |} ->
  s = "--" +:+ name.
Proof.
  intros Hm. apply long_form_parts in Hm as (tail & -> & Hv).
  apply value_part_none in Hv. subst. now rewrite append_empty_r.
Qed.

(** A short-form match is the token [-name], and has no value group. *)
Lemma short_form (s : string) (matches : Matches) :
  COMMAND_ARGUMENT_SHORTHAND_REGEXP s = Some matches ->
  s = "-" +:+ group1 matches /\ group2 matches = None.
Proof.
  destruct s as [|d1 body]; simpl; [discriminate|].
  destruct (Ascii.eqb_spec d1 "-") as [->|]; [|discriminate].
  destruct (name_part body) as [[nm tail]|] eqn:Hn; [|discriminate].
  destruct tail; [|discriminate]. intros [= <-]. simpl.
  apply name_part_append in Hn. subst. now rewrite append_empty_r.
Qed.

(** Both argument patterns want a dash first, the command-name pattern a
    letter: no string matches the command-name pattern and one of the
    others. *)
Lemma command_name_is_no_argument (s : string) :
  COMMAND_NAME_REGEXP s = true ->
  COMMAND_ARGUMENT_NAME_REGEXP s = None /\ COMMAND_ARGUMENT_SHORTHAND_REGEXP s = None.
Proof.
  destruct s as [|c rest]; simpl; [discriminate|].
  intros Hc. apply andb_true_iff in Hc as [Hc _].
  destruct (Ascii.eqb_spec c "-") as [->|Hne].
  - discriminate.
  - split; [destruct rest|]; reflexivity.
Qed.

End RegExpFacts.

(** ** The matchers compute the patterns *)

Module RegExpSemantics.
Import JsString RegExp RegExpFacts.

Lemma accepts_class_iff (p : ascii -> bool) (s : string) (g : list (nat * string)) :
  Accepts (Class p) s g <-> exists c, s = String c "" /\ p c = true /\ g = [].
Proof.
  split.
  - inversion 1; subst. eauto.
  - intros (c & -> & Hc & ->). now constructor.
Qed.

Lemma accepts_cat_iff (r1 r2 : regex) (s : string) (g : list (nat * string)) :
  Accepts (Cat r1 r2) s g <->
  exists s1 s2 g1 g2,
    s = s1 +:+ s2 /\ g = g1 ++ g2 /\ Accepts r1 s1 g1 /\ Accepts r2 s2 g2.
Proof.
  split.
  - inversion 1; subst. eauto 10.
  - intros (s1 & s2 & g1 & g2 & -> & -> & H1 & H2). now constructor.
Qed.

Lemma accepts_optional_iff (r : regex) (s : string) (g : list (nat * string)) :
  Accepts (Optional r) s g <-> (s = "" /\ g = []) \/ Accepts r s g.
Proof.
  split.
  - inversion 1; subst; auto.
  - intros [[-> ->]|Hr]; now constructor.
Qed.

Lemma accepts_group_iff (index : nat) (r : regex) (s : string) (g : list (nat * string)) :
  Accepts (Group index r) s g <-> exists g', g = (index, s) :: g' /\ Accepts r s g'.
Proof.
  split.
  - inversion 1; subst. eauto.
  - intros (g' & -> & Hr). now constructor.
Qed.

(** A repetition of a character class matches the strings made of that
    class, and captures nothing. *)
Lemma accepts_star_class (p : ascii -> bool) (s : string) (g : list (nat * string)) :
  Accepts (Star (Class p)) s g <-> all_chars p s = true /\ g = [].
Proof.
  split.
  - intros Hs. remember (Star (Class p)) as r eqn:Hr.
    induction Hs as [| | |r' s1 s2 g1 g2 H1 _ H2 IH| | |]; try discriminate.
    + auto.
    + injection Hr as ->. apply accepts_class_iff in H1 as (c & -> & Hc & ->).
      destruct (IH eq_refl) as [Hall ->]. rewrite append_cons, append_empty_l. simpl.
      now rewrite Hc, Hall.
  - intros [Hall ->]. induction s as [|c s IH]; [constructor|].
    simpl in Hall. apply andb_true_iff in Hall as [Hc Hall].
    change (String c s) with (String c "" +:+ s). change (@nil (nat * string)) with (@nil (nat * string) ++ []).
    constructor; [now constructor | now apply IH].
Qed.

Lemma accepts_optional_star_class (p : ascii -> bool) (s : string) (g : list (nat * string)) :
  Accepts (Optional (Star (Class p))) s g <-> all_chars p s = true /\ g = [].
Proof.
  rewrite accepts_optional_iff, accepts_star_class. split; [|auto].
  intros [[-> ->]|?]; auto.
Qed.

(** One of a class and then any number of another. *)
Lemma accepts_head_and_more (p q : ascii -> bool) (s : string) (g : list (nat * string)) :
  Accepts (Cat (Class p) (Optional (Star (Class q)))) s g <->
  exists c rest, s = String c rest /\ p c = true /\ all_chars q rest = true /\ g = [].
Proof.
  rewrite accepts_cat_iff. split.
  - intros (s1 & s2 & g1 & g2 & -> & -> & H1 & H2).
    apply accepts_class_iff in H1 as (c & -> & Hc & ->).
    apply accepts_optional_star_class in H2 as [Hall ->].
    exists c, s2. now rewrite append_cons, append_empty_l.
  - intros (c & rest & -> & Hc & Hall & ->).
    exists (String c ""), rest, [], []. repeat split.
    + now apply accepts_class_iff; eauto.
    + now apply accepts_optional_star_class.
Qed.

Lemma span_iff (p : ascii -> bool) (s taken remaining : string) :
  span p s = (taken, remaining) <->
  s = taken +:+ remaining /\ all_chars p taken = true /\ stops p remaining.
Proof.
  split.
  - revert taken remaining. induction s as [|c s IH]; simpl; intros taken remaining.
    + intros [= <- <-]. repeat split.
    + destruct (p c) eqn:Hc.
      * destruct (span p s) as [t' r'] eqn:Hs. intros [= <- <-].
        destruct (IH t' r' eq_refl) as (-> & Hall & Hstop).
        rewrite append_cons. simpl. rewrite Hc, Hall. auto.
      * intros [= <- <-]. rewrite append_empty_l. repeat split. exact Hc.
  - intros (-> & Hall & Hstop). induction taken as [|c taken IH].
    + rewrite append_empty_l. destruct remaining as [|d remaining]; [reflexivity|].
      simpl in *. now rewrite Hstop.
    + simpl in Hall. apply andb_true_iff in Hall as [Hc Hall].
      rewrite append_cons. simpl. rewrite Hc, (IH Hall). reflexivity.
Qed.

Lemma name_part_iff (s name tail : string) :
  name_part s = Some (name, tail) <->
  exists c rest,
    name = String c rest /\ is_alnum c = true /\ all_chars is_name_char rest = true
    /\ s = name +:+ tail /\ stops is_name_char tail.
Proof.
  unfold name_part. destruct s as [|c s].
  - split; [discriminate|]. intros (c & rest & -> & _ & _ & Heq & _).
    rewrite append_cons in Heq. discriminate.
  - destruct (is_alnum c) eqn:Hc.
    + destruct (span is_name_char s) as [more remaining] eqn:Hs.
      apply span_iff in Hs as (-> & Hall & Hstop). split.
      * intros [= <- <-]. exists c, more. now rewrite append_cons.
      * intros (c' & rest & -> & _ & Hall' & Heq & Hstop').
        rewrite append_cons in Heq. injection Heq as <- Heq.
        assert (span is_name_char (more +:+ remaining) = (rest, tail)) as Hagain
          by (rewrite Heq; now apply span_iff).
        assert (span is_name_char (more +:+ remaining) = (more, remaining)) as Hfirst
          by now apply span_iff.
        congruence.
    + split; [discriminate|]. intros (c' & rest & -> & Hc' & _ & Heq & _).
      rewrite append_cons in Heq. injection Heq as <- _. congruence.
Qed.

Lemma value_part_iff (tail : string) (value : option string) :
  value_part tail = Some value <->
  (tail = "" /\ value = None)
  \/ exists text, tail = "=" +:+ text /\ text <> "" /\ all_chars dot text = true
                  /\ value = Some text.
Proof.
  unfold value_part. destruct tail as [|c text].
  - split; [intros [= <-]; now left|]. intros [[_ ->]|(text & Heq & _)]; [reflexivity|].
    rewrite append_cons in Heq. discriminate.
  - destruct (Ascii.eqb_spec c "=") as [->|Hne].
    + destruct text as [|d text].
      * split; [discriminate|]. intros [[Heq _]|(text & Heq & Hne & _)]; [discriminate|].
        rewrite append_cons, append_empty_l in Heq. injection Heq as <-. contradiction.
      * fold (dot). change (fun x => negb (is_line_terminator x)) with dot.
        destruct (all_chars dot (String d text)) eqn:Hall.
        -- split.
           ++ intros [= <-]. right. exists (String d text). repeat split; [discriminate | assumption].
           ++ intros [[Heq _]|(text' & Heq & _ & _ & ->)]; [discriminate|].
              rewrite append_cons, append_empty_l in Heq. now injection Heq as <-.
        -- split; [discriminate|]. intros [[Heq _]|(text' & Heq & _ & Hall' & _)]; [discriminate|].
           rewrite append_cons, append_empty_l in Heq. injection Heq as <-. congruence.
    + split; [discriminate|]. intros [[Heq _]|(text' & Heq & _)]; [discriminate|].
      rewrite append_cons in Heq. injection Heq as -> _. contradiction.
Qed.

(** One or more of a character class. *)
Lemma accepts_plus_class (p : ascii -> bool) (s : string) (g : list (nat * string)) :
  Accepts (Cat (Class p) (Star (Class p))) s g <->
  s <> "" /\ all_chars p s = true /\ g = [].
Proof.
  rewrite accepts_cat_iff. split.
  - intros (s1 & s2 & g1 & g2 & -> & -> & H1 & H2).
    apply accepts_class_iff in H1 as (c & -> & Hc & ->).
    apply accepts_star_class in H2 as [Hall ->].
    rewrite append_cons, append_empty_l. simpl. rewrite Hc, Hall. repeat split. discriminate.
  - intros (Hne & Hall & ->). destruct s as [|c s]; [contradiction|].
    simpl in Hall. apply andb_true_iff in Hall as [Hc Hall].
    exists (String c ""), s, [], []. repeat split.
    + apply accepts_class_iff. eauto.
    + now apply accepts_star_class.
Qed.

Lemma accepts_name_group (s : string) (g : list (nat * string)) :
  Accepts (Group 1 NAME_GROUP) s g <-> is_name s /\ g = [(1%nat, s)].
Proof.
  rewrite accepts_group_iff. unfold NAME_GROUP, is_name. split.
  - intros (g' & -> & Hg). apply accepts_head_and_more in Hg as (c & rest & -> & Hc & Hall & ->).
    eauto 10.
  - intros ((c & rest & -> & Hc & Hall) & ->). exists []. split; [reflexivity|].
    apply accepts_head_and_more. eauto 10.
Qed.

Lemma accepts_dash (s : string) (g : list (nat * string)) :
  Accepts (Class (Ascii.eqb "-")) s g <-> s = "-" /\ g = [].
Proof.
  rewrite accepts_class_iff. split.
  - intros (c & -> & Hc & ->). apply Ascii.eqb_eq in Hc. now subst.
  - intros [-> ->]. exists "-"%char. auto.
Qed.

(** The command-name matcher decides the command-name pattern. *)
Theorem COMMAND_NAME_REGEXP_correct (s : string) :
  COMMAND_NAME_REGEXP s = true <-> exists g, Accepts COMMAND_NAME_PATTERN s g.
Proof.
  unfold COMMAND_NAME_PATTERN. split.
  - destruct s as [|c rest]; simpl; [discriminate|]. intros Hs.
    apply andb_true_iff in Hs as [Hc Hall]. exists []. apply accepts_head_and_more. eauto 10.
  - intros (g & Hg). apply accepts_head_and_more in Hg as (c & rest & -> & Hc & Hall & _).
    simpl. now rewrite Hc, Hall.
Qed.

(** The short-form matcher returns a match exactly when the short-form
    pattern accepts the token, and then returns its capture groups. *)
Theorem COMMAND_ARGUMENT_SHORTHAND_REGEXP_correct (s : string) (m : Matches) :
  COMMAND_ARGUMENT_SHORTHAND_REGEXP s = Some m <->
  exists g, Accepts COMMAND_ARGUMENT_SHORTHAND_PATTERN s g
            /\ capture 1 g = Some (group1 m) /\ capture 2 g = group2 m.
Proof.
  unfold COMMAND_ARGUMENT_SHORTHAND_PATTERN. setoid_rewrite accepts_cat_iff. split.
  - intros Hm. destruct s as [|d body]; simpl in Hm; [discriminate|].
    destruct (Ascii.eqb_spec d "-") as [->|]; [|discriminate].
    destruct (name_part body) as [[name tail]|] eqn:Hname; [|discriminate].
    destruct tail; [|discriminate]. injection Hm as <-.
    apply name_part_iff in Hname as (c & rest & -> & Hc & Hall & -> & _).
    rewrite append_empty_r. exists [(1%nat, String c rest)]. split; [|split; reflexivity].
    exists "-", (String c rest), [], [(1%nat, String c rest)]. repeat split.
    + now apply accepts_dash.
    + apply accepts_name_group. split; [|reflexivity]. unfold is_name. eauto.
  - intros (g & (s1 & s2 & g1 & g2 & -> & -> & H1 & H2) & Hg1 & Hg2).
    apply accepts_dash in H1 as [-> ->]. apply accepts_name_group in H2 as [Hname ->].
    destruct Hname as (c & rest & -> & Hc & Hall). simpl in Hg1, Hg2.
    rewrite append_cons, append_empty_l. cbn -[name_part].
    assert (name_part (String c rest) = Some (String c rest, "")) as ->.
    { apply name_part_iff. exists c, rest. repeat split; auto. now rewrite append_empty_r. }
    destruct m as [m1 m2]. simpl in *. congruence.
Qed.

(** The long-form matcher returns a match exactly when the long-form
    pattern accepts the token, and then returns its capture groups. *)
Theorem COMMAND_ARGUMENT_NAME_REGEXP_correct (s : string) (m : Matches) :
  COMMAND_ARGUMENT_NAME_REGEXP s = Some m <->
  exists g, Accepts COMMAND_ARGUMENT_NAME_PATTERN s g
            /\ capture 1 g = Some (group1 m) /\ capture 2 g = group2 m.
Proof.
  unfold COMMAND_ARGUMENT_NAME_PATTERN. split.
  - intros Hm. destruct s as [|d1 [|d2 body]]; simpl in Hm; try discriminate.
    destruct (Ascii.eqb_spec d1 "-") as [->|]; [|discriminate].
    destruct (Ascii.eqb_spec d2 "-") as [->|]; [|discriminate]. simpl in Hm.
    destruct (name_part body) as [[name tail]|] eqn:Hname; [|discriminate].
    destruct (value_part tail) as [value|] eqn:Hvalue; [|discriminate].
    injection Hm as <-. simpl.
    apply name_part_iff in Hname as (c & rest & -> & Hc & Hall & -> & _).
    assert (Accepts (Group 1 NAME_GROUP) (String c rest) [(1%nat, String c rest)]) as Hgroup.
    { apply accepts_name_group. split; [|reflexivity]. unfold is_name. eauto. }
    apply value_part_iff in Hvalue as [[-> ->]|(text & -> & Hne & Hdots & ->)].
    + exists ([] ++ [] ++ [(1%nat, String c rest)] ++ []). split; [|split; reflexivity].
      change (String "-" (String "-" (String c rest +:+ "")))
        with ("-" +:+ "-" +:+ String c rest +:+ "").
      repeat (apply accepts_cat; [now apply accepts_dash|]).
      apply accepts_cat; [assumption | apply accepts_optional_skip].
    + exists ([] ++ [] ++ [(1%nat, String c rest)] ++ [] ++ [(2%nat, text)]).
      split; [|split; reflexivity].
      change (String "-" (String "-" (String c rest +:+ "=" +:+ text)))
        with ("-" +:+ "-" +:+ String c rest +:+ "=" +:+ text).
      repeat (apply accepts_cat; [now apply accepts_dash|]).
      apply accepts_cat; [assumption|]. apply accepts_optional_take.
      apply accepts_cat; [apply accepts_class; reflexivity|].
      apply accepts_group. now apply accepts_plus_class.
  - intros (g & Hg & Hg1 & Hg2).
    apply accepts_cat_iff in Hg as (s1 & s' & g1 & g' & -> & -> & H1 & Hg).
    apply accepts_cat_iff in Hg as (s2 & s'' & g2 & g'' & -> & -> & H2 & Hg).
    apply accepts_cat_iff in Hg as (name & tail & g3 & g4 & -> & -> & H3 & H4).
    apply accepts_dash in H1 as [-> ->]. apply accepts_dash in H2 as [-> ->].
    apply accepts_name_group in H3 as [(c & rest & -> & Hc & Hall) ->].
    assert (exists value,
               value_part tail = Some value /\ capture 2 g4 = value) as (value & Hvalue & Hg4).
    { apply accepts_optional_iff in H4 as [[-> ->]|H4]; [exists None; auto|].
      apply accepts_cat_iff in H4 as (e & text & g5 & g6 & -> & -> & H5 & H6).
      apply accepts_class_iff in H5 as (d & -> & Hd & ->). apply Ascii.eqb_eq in Hd. subst d.
      apply accepts_group_iff in H6 as (g7 & -> & H7).
      apply accepts_plus_class in H7 as (Hne & Hdots & ->).
      exists (Some text). split; [|reflexivity]. apply value_part_iff. right. eauto. }
    assert (stops is_name_char tail) as Hstop.
    { apply value_part_iff in Hvalue as [[-> _]|(text & -> & _)]; [exact I | reflexivity]. }
    rewrite !append_cons, !append_empty_l. cbn -[name_part value_part String.append].
    assert (name_part (String c (rest +:+ tail)) = Some (String c rest, tail)) as ->.
    { apply name_part_iff. exists c, rest. now rewrite append_cons. }
    rewrite Hvalue. destruct m as [m1 m2]. simpl in *. congruence.
Qed.

End RegExpSemantics.

(** ** Tokenizer *)

Module TokenizerFacts.
Import JsString RegExp Model SpecView RegExpFacts.

(** A token escapes both argument patterns exactly when the [??] chain of
    the tokenizer yields null. *)
Lemma matchArgument_None (s : string) :
  matchArgument s = None <->
  COMMAND_ARGUMENT_NAME_REGEXP s = None /\ COMMAND_ARGUMENT_SHORTHAND_REGEXP s = None.
Proof.
  unfold matchArgument. destruct (COMMAND_ARGUMENT_NAME_REGEXP s); [|tauto].
  split; [discriminate | intros [? _]; discriminate].
Qed.

Lemma peek_test (next : string) :
  bool_decide (COMMAND_ARGUMENT_NAME_REGEXP next = None)
  && bool_decide (COMMAND_ARGUMENT_SHORTHAND_REGEXP next = None)
  = bool_decide (matchArgument next = None).
Proof.
  unfold matchArgument. destruct (COMMAND_ARGUMENT_NAME_REGEXP next); simpl.
  - reflexivity.
  - destruct (COMMAND_ARGUMENT_SHORTHAND_REGEXP next); reflexivity.
Qed.

(** Induction on token lists that gives the hypothesis for the tail and
    for the tail of the tail, as a scan that may step over a token needs. *)
Lemma tokens_pair_ind (P : list string -> Prop) :
  P [] ->
  (forall token rest, P rest -> P (tail rest) -> P (token :: rest)) ->
  forall tokens, P tokens.
Proof.
  intros Hnil Hcons tokens.
  assert (P tokens /\ P (tail tokens)) as [? _]; [|assumption].
  induction tokens as [|token rest [IH1 IH2]]; simpl; auto.
Qed.

Lemma scanFrom_end (commandLineArguments : list string) (index : nat) (scan : Scan) :
  commandLineArguments !! index = None ->
  scanFrom commandLineArguments index scan = Normal scan.
Proof.
  intros Hend. unfold scanFrom. rewrite drop_ge; [reflexivity|].
  now apply lookup_ge_None.
Qed.

(** One turn of the reduction: the callback on the token at [index], then
    the reduction from the next position. *)
Lemma scanFrom_step (commandLineArguments : list string) (index : nat)
    (token : string) (scan : Scan) :
  commandLineArguments !! index = Some token ->
  scanFrom commandLineArguments index scan =
  scanArgument commandLineArguments scan token index
    ≫= scanFrom commandLineArguments (S index).
Proof.
  intros Htoken. unfold scanFrom. now rewrite (drop_S _ _ _ Htoken).
Qed.

Lemma getRawArguments_scanFrom (commandLineArguments : list string) :
  getRawArguments commandLineArguments =
  scanFrom commandLineArguments 0 {| skipNextArg := false; result := JsObject.empty |}
    ≫= fun scan => Normal (result scan).
Proof. reflexivity. Qed.

(** A token marked to be skipped is stepped over whatever it is. *)
Lemma scanFrom_skip (commandLineArguments : list string) (index : nat)
    (token : string) (rawArguments : RawArguments) :
  commandLineArguments !! index = Some token ->
  scanFrom commandLineArguments index {| skipNextArg := true; result := rawArguments |} =
  scanFrom commandLineArguments (S index) {| skipNextArg := false; result := rawArguments |}.
Proof. intros Htoken. now rewrite (scanFrom_step _ _ _ _ Htoken). Qed.

(** The callback on a token that is not to be skipped, in the terms of the
    specification. *)
Lemma scanArgument_by_spec (commandLineArguments : list string) (index : nat)
    (token : string) (rawArguments : RawArguments) :
  commandLineArguments !! index = Some token ->
  scanArgument commandLineArguments
    {| skipNextArg := false; result := rawArguments |} token index =
  match matchArgument token with
  | None => Throw (MalformedArgument token)
  | Some matches =>
      Normal {| skipNextArg :=
                  match drop (S index) commandLineArguments with
                  | next :: _ => consumesNext token next
                  | [] => false
                  end;
                result :=
                  JsObject.set (group1 matches)
                    (boundValue matches (drop (S index) commandLineArguments))
                    rawArguments |}
  end.
Proof.
  intros Htoken. unfold scanArgument, consumesNext, boundValue. simpl.
  destruct (matchArgument token) as [matches|]; [|reflexivity].
  replace (index + 1) with (S index) by lia.
  destruct (group2 matches) as [value|] eqn:Hvalue.
  - simpl. now destruct (drop (S index) commandLineArguments).
  - destruct (commandLineArguments !! S index) as [next|] eqn:Hnext.
    + rewrite (drop_S _ _ _ Hnext), peek_test. simpl.
      now destruct (bool_decide (matchArgument next = None)).
    + rewrite drop_ge by now apply lookup_ge_None. reflexivity.
Qed.

(** The reduction with its captured flag and its index computes what the
    recursion of the specification computes. *)
Lemma scanFrom_tokenize (commandLineArguments : list string) :
  forall tokens index rawArguments,
    drop index commandLineArguments = tokens ->
    scanFrom commandLineArguments index {| skipNextArg := false; result := rawArguments |}
      ≫= (fun scan => Normal (result scan))
    = tokenize tokens rawArguments.
Proof.
  induction tokens as [|token rest IHrest IHtail] using tokens_pair_ind;
    intros index rawArguments Hdrop.
  - unfold scanFrom. now rewrite Hdrop.
  - assert (commandLineArguments !! index = Some token) as Htoken.
    { rewrite <- (Nat.add_0_r index), <- lookup_drop, Hdrop. reflexivity. }
    assert (drop (S index) commandLineArguments = rest) as Hrest.
    { rewrite (drop_S _ _ _ Htoken) in Hdrop. congruence. }
    rewrite (scanFrom_step _ _ _ _ Htoken), (scanArgument_by_spec _ _ _ _ Htoken).
    simpl. destruct (matchArgument token) as [matches|]; [|reflexivity].
    rewrite Hrest. destruct rest as [|next rest'].
    + change (Normal ?x ≫= ?k) with (k x). cbv beta.
      rewrite scanFrom_end; [reflexivity|].
      apply lookup_ge_None. apply (f_equal length) in Hrest.
      rewrite length_drop in Hrest. simpl in Hrest. lia.
    + change (Normal ?x ≫= ?k) with (k x). cbv beta.
      assert (commandLineArguments !! S index = Some next) as Hnext.
      { rewrite <- (Nat.add_0_r (S index)), <- lookup_drop, Hrest. reflexivity. }
      destruct (consumesNext token next).
      * rewrite (scanFrom_skip _ _ _ _ Hnext). apply IHtail.
        rewrite (drop_S _ _ _ Hnext) in Hrest. simpl. congruence.
      * now apply IHrest.
Qed.

(** The tokenizer of the source and the tokenizer of the specification
    agree on every token list. *)
Lemma getRawArguments_tokenize (commandLineArguments : list string) :
  getRawArguments commandLineArguments = tokenize commandLineArguments JsObject.empty.
Proof.
  rewrite getRawArguments_scanFrom. now apply scanFrom_tokenize.
Qed.

(** What the tokenizer of the specification returns: the first malformed
    token among those scanned, or else every binding assigned in order. *)
Lemma tokenize_outcome :
  forall tokens rawArguments,
    tokenize tokens rawArguments =
    match find malformed (scannedTokens tokens) with
    | Some token => Throw (MalformedArgument token)
    | None => Normal (assignAll (bindings tokens) rawArguments)
    end.
Proof.
  induction tokens as [|token rest IHrest IHtail] using tokens_pair_ind;
    intros rawArguments; [reflexivity|].
  simpl. destruct (matchArgument token) as [matches|] eqn:Hmatch.
  - rewrite bool_decide_eq_false_2 by discriminate.
    destruct rest as [|next rest']; [reflexivity|].
    destruct (consumesNext token next); [apply IHtail | apply IHrest].
  - now rewrite bool_decide_eq_true_2.
Qed.

(** After assigning bindings in order, a name holds its last binding, or
    what it held before when nothing binds it. *)
Lemma get_assignAll (name : string) :
  forall bs rawArguments,
    JsObject.get name (assignAll bs rawArguments) =
    match lastBinding name bs with
    | Some value => Some value
    | None => JsObject.get name rawArguments
    end.
Proof.
  unfold lastBinding. induction bs as [|[k v] bs IH]; intros rawArguments; [reflexivity|].
  simpl. rewrite IH, JsObjectFacts.get_app_last.
  destruct (JsObject.get name (rev bs)); [reflexivity|].
  destruct (String.eqb_spec k name) as [->|Hne].
  - apply JsObjectFacts.get_set_eq.
  - now apply JsObjectFacts.get_set_ne.
Qed.

(** What the mapping returned by the reduction from position [next] holds
    under a name: the last value a token from there on binds it to, or
    else what the state held. *)
Lemma returned_holds_last_binding (commandLineArguments : list string) (next : nat)
    (rawArguments returned : RawArguments) (name : string) :
  scanFrom commandLineArguments next {| skipNextArg := false; result := rawArguments |}
    ≫= (fun scan => Normal (result scan)) = Normal returned ->
  JsObject.get name returned =
  match lastBinding name (bindings (drop next commandLineArguments)) with
  | Some later => Some later
  | None => JsObject.get name rawArguments
  end.
Proof.
  rewrite (scanFrom_tokenize commandLineArguments (drop next commandLineArguments)
             next rawArguments eq_refl), tokenize_outcome.
  destruct (find malformed (scannedTokens (drop next commandLineArguments)));
    [discriminate|].
  intros [= <-]. apply get_assignAll.
Qed.

(** [find] returns the first element that passes the test. *)
Lemma find_first {A : Type} (p : A -> bool) (l : list A) (x : A) :
  find p l = Some x <->
  exists pre post, l = pre ++ x :: post /\ Forall (fun y => p y = false) pre /\ p x = true.
Proof.
  induction l as [|a l IH]; simpl.
  - split; [discriminate | intros (pre & post & Hl & _)]. now destruct pre.
  - destruct (p a) eqn:Ha.
    + split.
      * intros [= ->]. exists [], l. auto.
      * intros (pre & post & Hl & Hpre & Hx). destruct pre as [|b pre].
        -- simpl in Hl. congruence.
        -- simpl in Hl. injection Hl as <- _. apply Forall_cons in Hpre as [Hb _].
           congruence.
    + rewrite IH. split.
      * intros (pre & post & -> & Hpre & Hx). exists (a :: pre), post.
        split; [reflexivity|]. split; [|assumption]. now apply Forall_cons.
      * intros (pre & post & Hl & Hpre & Hx). destruct pre as [|b pre].
        -- simpl in Hl. congruence.
        -- simpl in Hl. injection Hl as <- ->. apply Forall_cons in Hpre as [_ Hpre].
           now exists pre, post.
Qed.

Lemma find_none_iff {A : Type} (p : A -> bool) (l : list A) :
  find p l = None <-> Forall (fun y => p y = false) l.
Proof.
  induction l as [|a l IH]; simpl.
  - split; [constructor | reflexivity].
  - destruct (p a) eqn:Ha.
    + split; [discriminate | intros Hall]. apply Forall_cons in Hall as [? _]. congruence.
    + rewrite IH. split; [now constructor | intros Hall]. now apply Forall_cons in Hall as [_ ?].
Qed.

End TokenizerFacts.

(** ** The tokenizer claims *)

Import JsString RegExp Model SpecView.
Import JsObjectFacts RegExpFacts TokenizerFacts.

(** A match of the [??] chain comes from the long form, or from the short
    form and then carries no value. *)
Lemma matchArgument_Some (token : string) (matches : Matches) :
  matchArgument token = Some matches ->
  COMMAND_ARGUMENT_NAME_REGEXP token = Some matches
  \/ (COMMAND_ARGUMENT_SHORTHAND_REGEXP token = Some matches /\ group2 matches = None).
Proof.
  unfold matchArgument. destruct (COMMAND_ARGUMENT_NAME_REGEXP token); [now left|].
  intros Hshort. right. split; [assumption|]. now apply short_form in Hshort.
Qed.

Lemma matchArgument_shape (token : string) (matches : Matches) :
  matchArgument token = Some matches ->
  match group2 matches with
  | Some value => token = "--" +:+ group1 matches +:+ "=" +:+ value
  | None => token = "--" +:+ group1 matches \/ token = "-" +:+ group1 matches
  end.
Proof.
  intros Hm. destruct matches as [name value].
  apply matchArgument_Some in Hm as [Hlong|[Hshort Hnone]]; simpl in *.
  - destruct value; [now apply long_form_with_value | left; now apply long_form_without_value].
  - subst. right. now apply short_form in Hshort as [-> _].
Qed.

(** C5. The tokenizer is the reduction [scanFrom] started at position 0 on
    the empty mapping, and at any scan position holding a well-formed token:
    a token [--name=value] records [value] verbatim and the scan goes on at
    the next position; a token [--name] or [-x] whose successor exists and
    matches neither argument pattern records the successor as its value and
    the scan goes on two positions further, the successor being stepped
    over without being matched or reported; otherwise the token is recorded
    with the no-value marker and the scan goes on at the next position.
    To record is read back: the mapping after the step holds the value
    under the name and is unchanged under every other name, and the
    mapping the reduction returns holds under the name the last value a
    token from the position the scan goes on at binds it to, or else the
    recorded value. *)
Theorem C5_tokenizer_lookahead_and_skip
    (commandLineArguments : list string) (index : nat) (token : string)
    (matches : Matches) (rawArguments : RawArguments) :
  commandLineArguments !! index = Some token ->
  matchArgument token = Some matches ->
  getRawArguments commandLineArguments =
    scanFrom commandLineArguments 0 {| skipNextArg := false; result := JsObject.empty |}
      ≫= (fun scan => Normal (result scan))
  /\
  (forall value,
      group2 matches = Some value ->
      token = "--" +:+ group1 matches +:+ "=" +:+ value /\
      scanFrom commandLineArguments index
        {| skipNextArg := false; result := rawArguments |} =
      scanFrom commandLineArguments (S index)
        {| skipNextArg := false;
           result := JsObject.set (group1 matches) (RawString value) rawArguments |} /\
      JsObject.get (group1 matches)
        (JsObject.set (group1 matches) (RawString value) rawArguments)
      = Some (RawString value) /\
      (forall k, k <> group1 matches ->
                 JsObject.get k (JsObject.set (group1 matches) (RawString value) rawArguments)
                 = JsObject.get k rawArguments) /\
      (forall returned,
          scanFrom commandLineArguments index
            {| skipNextArg := false; result := rawArguments |}
            ≫= (fun scan => Normal (result scan)) = Normal returned ->
          JsObject.get (group1 matches) returned =
          Some match lastBinding (group1 matches)
                       (bindings (drop (S index) commandLineArguments)) with
               | Some later => later
               | None => RawString value
               end))
  /\ (group2 matches = None ->
      (token = "--" +:+ group1 matches \/ token = "-" +:+ group1 matches) /\
      (forall next,
          commandLineArguments !! S index = Some next ->
          COMMAND_ARGUMENT_NAME_REGEXP next = None ->
          COMMAND_ARGUMENT_SHORTHAND_REGEXP next = None ->
          scanFrom commandLineArguments index
            {| skipNextArg := false; result := rawArguments |} =
          scanFrom commandLineArguments (S (S index))
            {| skipNextArg := false;
               result := JsObject.set (group1 matches) (RawString next) rawArguments |} /\
          JsObject.get (group1 matches)
            (JsObject.set (group1 matches) (RawString next) rawArguments)
          = Some (RawString next) /\
          (forall k, k <> group1 matches ->
                     JsObject.get k (JsObject.set (group1 matches) (RawString next) rawArguments)
                     = JsObject.get k rawArguments) /\
          (forall returned,
              scanFrom commandLineArguments index
                {| skipNextArg := false; result := rawArguments |}
                ≫= (fun scan => Normal (result scan)) = Normal returned ->
              JsObject.get (group1 matches) returned =
              Some match lastBinding (group1 matches)
                           (bindings (drop (S (S index)) commandLineArguments)) with
                   | Some later => later
                   | None => RawString next
                   end)) /\
      ((commandLineArguments !! S index = None \/
        exists next, commandLineArguments !! S index = Some next /\
                     matchArgument next <> None) ->
       scanFrom commandLineArguments index
         {| skipNextArg := false; result := rawArguments |} =
       scanFrom commandLineArguments (S index)
         {| skipNextArg := false;
            result := JsObject.set (group1 matches) RawNull rawArguments |} /\
       JsObject.get (group1 matches) (JsObject.set (group1 matches) RawNull rawArguments)
       = Some RawNull /\
       (forall k, k <> group1 matches ->
                  JsObject.get k (JsObject.set (group1 matches) RawNull rawArguments)
                  = JsObject.get k rawArguments) /\
       (forall returned,
           scanFrom commandLineArguments index
             {| skipNextArg := false; result := rawArguments |}
             ≫= (fun scan => Normal (result scan)) = Normal returned ->
           JsObject.get (group1 matches) returned =
           Some match lastBinding (group1 matches)
                        (bindings (drop (S index) commandLineArguments)) with
                | Some later => later
                | None => RawNull
                end))).
Proof.
  intros Htoken Hmatch.
  pose proof (matchArgument_shape _ _ Hmatch) as Hshape.
  pose proof (scanFrom_step _ _ _ {| skipNextArg := false; result := rawArguments |} Htoken)
    as Hstep.
  rewrite (scanArgument_by_spec _ _ _ _ Htoken), Hmatch in Hstep.
  change (Normal ?x ≫= ?k) with (k x) in Hstep. cbv beta in Hstep.
  unfold boundValue, consumesNext in Hstep. rewrite Hmatch in Hstep.
  assert (forall next value,
             scanFrom commandLineArguments index
               {| skipNextArg := false; result := rawArguments |} =
             scanFrom commandLineArguments next
               {| skipNextArg := false;
                  result := JsObject.set (group1 matches) value rawArguments |} ->
             JsObject.get (group1 matches) (JsObject.set (group1 matches) value rawArguments)
             = Some value /\
             (forall k, k <> group1 matches ->
                        JsObject.get k (JsObject.set (group1 matches) value rawArguments)
                        = JsObject.get k rawArguments) /\
             (forall returned,
                 scanFrom commandLineArguments index
                   {| skipNextArg := false; result := rawArguments |}
                   ≫= (fun scan => Normal (result scan)) = Normal returned ->
                 JsObject.get (group1 matches) returned =
                 Some match lastBinding (group1 matches)
                              (bindings (drop next commandLineArguments)) with
                      | Some later => later
                      | None => value
                      end)) as Hrecorded.
  { intros next value Hgoes. split; [apply JsObjectFacts.get_set_eq|]. split.
    - intros k Hk. apply JsObjectFacts.get_set_ne. congruence.
    - intros returned Hreturned. rewrite Hgoes in Hreturned.
      rewrite (returned_holds_last_binding _ _ _ _ (group1 matches) Hreturned),
        JsObjectFacts.get_set_eq.
      now destruct (lastBinding (group1 matches) (bindings (drop next commandLineArguments))). }
  split; [apply getRawArguments_scanFrom|]. split.
  - intros value Hvalue. rewrite Hvalue in Hshape, Hstep. split; [assumption|].
    assert (scanFrom commandLineArguments index
              {| skipNextArg := false; result := rawArguments |} =
            scanFrom commandLineArguments (S index)
              {| skipNextArg := false;
                 result := JsObject.set (group1 matches) (RawString value) rawArguments |})
      as Hgoes.
    { rewrite Hstep. simpl. now destruct (drop (S index) commandLineArguments). }
    split; [assumption | now apply Hrecorded].
  - intros Hnone. rewrite Hnone in Hshape, Hstep. split; [assumption|]. split.
    + intros next Hnext Hlong Hshort. rewrite (drop_S _ _ _ Hnext) in Hstep.
      assert (matchArgument next = None) as Hmalformed by now apply matchArgument_None.
      rewrite !bool_decide_eq_true_2 in Hstep by (assumption || reflexivity).
      simpl in Hstep.
      assert (scanFrom commandLineArguments index
                {| skipNextArg := false; result := rawArguments |} =
              scanFrom commandLineArguments (S (S index))
                {| skipNextArg := false;
                   result := JsObject.set (group1 matches) (RawString next) rawArguments |})
        as Hgoes.
      { rewrite Hstep. now apply scanFrom_skip with next. }
      split; [assumption | now apply Hrecorded].
    + intros Hbare.
      assert (scanFrom commandLineArguments index
                {| skipNextArg := false; result := rawArguments |} =
              scanFrom commandLineArguments (S index)
                {| skipNextArg := false;
                   result := JsObject.set (group1 matches) RawNull rawArguments |})
        as Hgoes.
      { destruct Hbare as [Hend|(next & Hnext & Hwell)].
        - rewrite drop_ge in Hstep by now apply lookup_ge_None. exact Hstep.
        - rewrite (drop_S _ _ _ Hnext) in Hstep.
          rewrite (bool_decide_eq_false_2 (matchArgument next = None)) in Hstep by assumption.
          rewrite andb_false_r in Hstep. exact Hstep. }
      split; [assumption | now apply Hrecorded].
Qed.

(** The command line [--name Ada --loud]: [Ada] is taken as the value of
    [--name], the scan resumes at [--loud], and the mapping returned holds
    [Ada] under [name]. *)
Lemma C5_witness_name_takes_next_token :
  scanFrom ["--name"; "Ada"; "--loud"] 0
    {| skipNextArg := false; result := JsObject.empty |} =
  scanFrom ["--name"; "Ada"; "--loud"] 2
    {| skipNextArg := false;
       result := JsObject.set "name" (RawString "Ada") JsObject.empty |}
  /\ exists rawArguments,
       getRawArguments ["--name"; "Ada"; "--loud"] = Normal rawArguments
       /\ JsObject.get "name" rawArguments = Some (RawString "Ada").
Proof.
  destruct (C5_tokenizer_lookahead_and_skip ["--name"; "Ada"; "--loud"] 0 "--name"
              {| group1 := "name"; group2 := None |} JsObject.empty
              eq_refl eq_refl) as (_ & _ & Hbare).
  destruct (Hbare eq_refl) as (_ & Hnext & _).
  destruct (Hnext "Ada" eq_refl eq_refl eq_refl) as (Hgoes & _ & _ & Hreturned).
  split; [exact Hgoes|].
  exists [("name", RawString "Ada"); ("loud", RawNull)].
  split; [reflexivity|].
  exact (Hreturned [("name", RawString "Ada"); ("loud", RawNull)] eq_refl).
Defined.

(** C6. For every token list, the tokenizer throws exactly when some
    scanned token (one not consumed as the value of the argument before
    it) matches neither the long-form nor the short-form pattern; the
    error is the MalformedArgument error of the first such token and names
    that token alone. *)
Theorem C6_malformed_argument_fails_fast (tokens : list string) :
  (forall e,
      getRawArguments tokens = Throw e <->
      exists pre token post,
        scannedTokens tokens = pre ++ token :: post /\
        Forall (fun earlier => matchArgument earlier <> None) pre /\
        COMMAND_ARGUMENT_NAME_REGEXP token = None /\
        COMMAND_ARGUMENT_SHORTHAND_REGEXP token = None /\
        e = MalformedArgument token)
  /\ ((exists e, getRawArguments tokens = Throw e) <->
      Exists (fun token => COMMAND_ARGUMENT_NAME_REGEXP token = None /\
                           COMMAND_ARGUMENT_SHORTHAND_REGEXP token = None)
             (scannedTokens tokens)).
Proof.
  assert (forall e,
      getRawArguments tokens = Throw e <->
      exists pre token post,
        scannedTokens tokens = pre ++ token :: post /\
        Forall (fun earlier => matchArgument earlier <> None) pre /\
        COMMAND_ARGUMENT_NAME_REGEXP token = None /\
        COMMAND_ARGUMENT_SHORTHAND_REGEXP token = None /\
        e = MalformedArgument token) as Hfirst.
  { intros e. rewrite getRawArguments_tokenize, tokenize_outcome.
    destruct (find malformed (scannedTokens tokens)) as [bad|] eqn:Hfind.
    - apply find_first in Hfind as (pre & post & Hscan & Hpre & Hbad).
      apply bool_decide_eq_true_1 in Hbad.
      assert (Forall (fun earlier => matchArgument earlier <> None) pre) as Hpre'.
      { eapply Forall_impl; [exact Hpre|]. intros t Ht. now apply bool_decide_eq_false_1 in Ht. }
      split.
      + intros [= <-]. exists pre, bad, post. apply matchArgument_None in Hbad as [? ?]. auto.
      + intros (pre' & token & post' & Hscan' & Hwell & Hlong & Hshort & ->).
        assert (matchArgument token = None) as Htoken by now apply matchArgument_None.
        assert (find malformed (scannedTokens tokens) = Some token) as Hagain.
        { apply find_first. exists pre', post'. split; [assumption|]. split.
          - eapply Forall_impl; [exact Hwell|]. intros t Ht. now apply bool_decide_eq_false_2.
          - now apply bool_decide_eq_true_2. }
        assert (find malformed (scannedTokens tokens) = Some bad) as Hbad'.
        { apply find_first. exists pre, post. split; [assumption|]. split; [assumption|].
          now apply bool_decide_eq_true_2. }
        congruence.
    - split; [discriminate|].
      intros (pre & token & post & Hscan & _ & Hlong & Hshort & _).
      apply find_none_iff in Hfind. rewrite Hscan in Hfind.
      apply Forall_app in Hfind as [_ Hfind]. apply Forall_cons in Hfind as [Hfind _].
      apply bool_decide_eq_false_1 in Hfind. exfalso. apply Hfind.
      now apply matchArgument_None. }
  split; [exact Hfirst|]. split.
  - intros [e He]. apply Hfirst in He as (pre & token & post & Hscan & _ & Hlong & Hshort & _).
    rewrite Hscan. apply Exists_app. right. apply Exists_cons. now left.
  - intros Hbad. rewrite getRawArguments_tokenize, tokenize_outcome.
    destruct (find malformed (scannedTokens tokens)) as [bad|] eqn:Hfind; [eauto|].
    exfalso. apply find_none_iff in Hfind. apply Exists_exists in Hbad as (t & Hin & Ht).
    rewrite Forall_forall in Hfind. apply Hfind in Hin.
    apply bool_decide_eq_false_1 in Hin. apply Hin. now apply matchArgument_None.
Qed.

(** C10. In the tokenizer, a name bound by several tokens ends up with the
    binding of the last of them: whenever every scanned token is
    well-formed the tokenizer returns, each name holding its last binding
    (and a name no token binds being absent), and the only error the
    tokenizer ever throws is the MalformedArgument error: none for a
    repeated name. *)
Theorem C10_last_occurrence_wins (tokens : list string) :
  (Forall (fun token => matchArgument token <> None) (scannedTokens tokens) ->
   exists rawArguments,
     getRawArguments tokens = Normal rawArguments /\
     forall name, JsObject.get name rawArguments = lastBinding name (bindings tokens))
  /\ (forall e, getRawArguments tokens = Throw e ->
                exists token, e = MalformedArgument token /\ matchArgument token = None).
Proof.
  rewrite getRawArguments_tokenize, tokenize_outcome. split.
  - intros Hwell.
    assert (find malformed (scannedTokens tokens) = None) as ->.
    { apply find_none_iff. eapply Forall_impl; [exact Hwell|].
      intros t Ht. now apply bool_decide_eq_false_2. }
    eexists. split; [reflexivity|]. intros name. rewrite get_assignAll.
    now destruct (lastBinding name (bindings tokens)).
  - intros e. destruct (find malformed (scannedTokens tokens)) as [bad|] eqn:Hfind;
      [|discriminate].
    intros [= <-]. exists bad. split; [reflexivity|].
    apply find_some in Hfind as [_ Hbad]. now apply bool_decide_eq_true_1 in Hbad.
Qed.

(** The command lines [--a=1 --a=2] and [--a=1 --a]: the later token
    decides what [a] holds. *)
Lemma C10_witness_repeated_name :
  (exists rawArguments,
      getRawArguments ["--a=1"; "--a=2"] = Normal rawArguments /\
      JsObject.get "a" rawArguments = Some (RawString "2"))
  /\ (exists rawArguments,
         getRawArguments ["--a=1"; "--a"] = Normal rawArguments /\
         JsObject.get "a" rawArguments = Some RawNull).
Proof.
  split.
  - destruct (C10_last_occurrence_wins ["--a=1"; "--a=2"]) as [Hwins _].
    destruct Hwins as (rawArguments & Hreturns & Hlast).
    + repeat constructor; discriminate.
    + exists rawArguments. split; [assumption | apply Hlast].
  - destruct (C10_last_occurrence_wins ["--a=1"; "--a"]) as [Hwins _].
    destruct Hwins as (rawArguments & Hreturns & Hlast).
    + repeat constructor; discriminate.
    + exists rawArguments. split; [assumption | apply Hlast].
Defined.

(** ** Schema resolver *)

Section ResolverFacts.
Context `{NumberOps}.

Lemma includes_In (items : list string) (s : string) :
  includes items s = true <-> In s items.
Proof.
  unfold includes. rewrite existsb_exists. split.
  - intros (x & Hin & Heq). apply String.eqb_eq in Heq. now subst.
  - intros Hin. exists s. split; [assumption | apply String.eqb_refl].
Qed.

Lemma touches_refl (name : string) (o : CommandParameters) : JsObject.touches name o o.
Proof.
  repeat split; auto.
  intros [?|[-> Hget]]; [assumption|].
  apply has_true_iff. unfold JsObject.has. destruct (JsObject.get name o); congruence.
Qed.

Lemma touches_set (name : string) (v : Value) (o : CommandParameters) :
  JsObject.touches name o (JsObject.set name v o).
Proof.
  split; [|split].
  - intros k Hk. apply get_set_ne. congruence.
  - intros k. rewrite in_keys_set, get_set_eq. split.
    + intros [->|?]; [right; split; [reflexivity | discriminate] | now left].
    + intros [?|[-> _]]; [now right | now left].
  - apply NoDup_keys_set.
Qed.

Lemma touches_trans (name : string) (a b c : CommandParameters) :
  JsObject.touches name a b -> JsObject.touches name b c -> JsObject.touches name a c.
Proof.
  intros (Hget1 & Hkeys1 & Hnd1) (Hget2 & Hkeys2 & Hnd2). split; [|split].
  - intros k Hk. now rewrite Hget2, Hget1.
  - intros k. rewrite Hkeys2, Hkeys1. split.
    + intros [[?|[-> Hb]]|?]; [now left| |now right].
      right. split; [reflexivity|]. intros Hc. apply get_None_iff in Hc. apply Hc.
      apply Hkeys2. left. apply Hkeys1. right. split; [reflexivity | assumption].
    + intros [?|?]; [left; now left | now right].
  - auto.
Qed.

Lemma applyRawArgument_touches (name : string) (p : AbstractParameter)
    (rawArgument : string) (o o' : CommandParameters) :
  applyRawArgument name p rawArgument o = Normal o' ->
  JsObject.touches name o o' /\ JsObject.get name o' <> None.
Proof.
  unfold applyRawArgument.
  destruct (type p);
    repeat match goal with |- context [if ?b then _ else _] => destruct b end;
    intros [= <-]; (split; [apply touches_set | rewrite get_set_eq; discriminate]).
Qed.

(** One call of the resolver's callback only assigns to its own
    parameter, and reports it missing exactly when it is still unset. *)
Lemma resolveParameter_touches (rawArguments : RawArguments)
    (o o' : CommandParameters) (name : string) (p : AbstractParameter) (missing : bool) :
  resolveParameter rawArguments o (name, p) = Normal (o', missing) ->
  JsObject.touches name o o' /\ missing = bool_decide (JsObject.get name o' = None).
Proof.
  unfold resolveParameter.
  set (seeded := match type p with
                 | TBoolean => JsObject.set name (VBoolean false) o
                 | _ => o
                 end).
  set (defaulted := match defaultValue p with
                    | Some value => JsObject.set name value seeded
                    | None => seeded
                    end).
  assert (JsObject.touches name o defaulted) as Hbefore.
  { apply touches_trans with seeded.
    - subst seeded. destruct (type p); auto using touches_refl, touches_set.
    - subst defaulted. destruct (defaultValue p); auto using touches_refl, touches_set. }
  destruct (JsObject.get name rawArguments) as [[|rawArgument]|]; simpl.
  - intros [= <- <-]. auto.
  - destruct (applyRawArgument name p rawArgument defaulted) as [applied|] eqn:Happly;
      simpl; [|discriminate].
    intros [= <- <-]. apply applyRawArgument_touches in Happly as [Happly _].
    split; [now apply touches_trans with defaulted | reflexivity].
  - intros [= <- <-]. auto.
Qed.

(** The only errors of the callback are the two coercion errors. *)
Lemma resolveParameter_Throw (rawArguments : RawArguments) (o : CommandParameters)
    (entry : string * AbstractParameter) (e : CommandError) :
  resolveParameter rawArguments o entry = Throw e -> kind e = KTypeConversionError.
Proof.
  destruct entry as [name p]. unfold resolveParameter, applyRawArgument.
  destruct (JsObject.get name rawArguments) as [[|rawArgument]|]; simpl; try discriminate.
  destruct (type p);
    repeat match goal with |- context [if ?b then _ else _] => destruct b end;
    simpl; try discriminate; now intros [= <-].
Qed.

End ResolverFacts.

Section ResolverPass.
Context `{NumberOps}.

(** The only errors of the per-parameter pass are the coercion errors. *)
Lemma filterEntries_Throw (rawArguments : RawArguments) :
  forall entries o e,
    filterEntries rawArguments entries o = Throw e -> kind e = KTypeConversionError.
Proof.
  induction entries as [|entry rest IH]; intros o e; simpl; [discriminate|].
  destruct (resolveParameter rawArguments o entry) as [[o1 missing]|e1] eqn:Hstep.
  - rewrite bind_Normal.
    destruct (filterEntries rawArguments rest o1) as [[o2 kept]|e2] eqn:Hrest.
    + rewrite bind_Normal. discriminate.
    + rewrite bind_Throw. intros [= <-]. now apply IH in Hrest.
  - rewrite bind_Throw. intros [= <-]. now apply resolveParameter_Throw in Hstep.
Qed.

(** Unfolding a pass that returns: the callback returned on the first
    entry and the pass returned on the others. *)
Lemma filterEntries_cons_Normal (rawArguments : RawArguments)
    (entry : string * AbstractParameter) (rest : list (string * AbstractParameter))
    (o o' : CommandParameters) (kept : list (string * AbstractParameter)) :
  filterEntries rawArguments (entry :: rest) o = Normal (o', kept) ->
  exists o1 missing kept',
    resolveParameter rawArguments o entry = Normal (o1, missing) /\
    filterEntries rawArguments rest o1 = Normal (o', kept') /\
    kept = if missing then entry :: kept' else kept'.
Proof.
  simpl. destruct (resolveParameter rawArguments o entry) as [[o1 missing]|e1];
    [rewrite bind_Normal | rewrite bind_Throw; discriminate].
  destruct (filterEntries rawArguments rest o1) as [[o2 kept']|e2] eqn:Hrest;
    [rewrite bind_Normal | rewrite bind_Throw; discriminate].
  intros Hpass. simpl in Hpass. injection Hpass as <- <-.
  exists o1, missing, kept'. auto.
Qed.

(** The entries kept as missing are entries of the schema. *)
Lemma filterEntries_kept_In (rawArguments : RawArguments) :
  forall entries o o' kept,
    filterEntries rawArguments entries o = Normal (o', kept) ->
    forall entry, In entry kept -> In entry entries.
Proof.
  induction entries as [|entry0 rest IH]; intros o o' kept Hpass entry Hin.
  - simpl in Hpass. injection Hpass as _ <-. destruct Hin.
  - apply filterEntries_cons_Normal in Hpass as (o1 & missing & kept' & _ & Hrest & ->).
    destruct missing; [destruct Hin as [<-|Hin]|]; simpl; eauto.
Qed.

(** What a pass that returns leaves in [commandParameters]: properties
    outside the schema are untouched, no key is lost or duplicated, every
    new key is a parameter name, and when nothing is missing every
    parameter name is a key. *)
Lemma filterEntries_keys (rawArguments : RawArguments) :
  forall entries o o' kept,
    filterEntries rawArguments entries o = Normal (o', kept) ->
    (forall k, ~ In k (JsObject.keys entries) -> JsObject.get k o' = JsObject.get k o)
    /\ (forall k, In k (JsObject.keys o') ->
                  In k (JsObject.keys o) \/ In k (JsObject.keys entries))
    /\ (forall k, In k (JsObject.keys o) -> In k (JsObject.keys o'))
    /\ (NoDup (JsObject.keys o) -> NoDup (JsObject.keys o'))
    /\ (kept = [] -> forall k, In k (JsObject.keys entries) -> In k (JsObject.keys o')).
Proof.
  induction entries as [|[name p] rest IH]; intros o o' kept Hpass.
  - simpl in Hpass. injection Hpass as <- <-. repeat split; auto. intros _ k [].
  - apply filterEntries_cons_Normal in Hpass as (o1 & missing & kept' & Hstep & Hrest & ->).
    apply resolveParameter_touches in Hstep as [(Hget1 & Hkeys1 & Hnd1) ->].
    apply IH in Hrest as (Hget2 & Hkeys2 & Hmono2 & Hnd2 & Hall2).
    simpl. repeat split.
    + intros k Hk. rewrite Hget2 by tauto. apply Hget1. intros ->. tauto.
    + intros k Hk. apply Hkeys2 in Hk as [Hk|Hk]; [|tauto].
      apply Hkeys1 in Hk as [Hk|[-> _]]; tauto.
    + intros k Hk. apply Hmono2, Hkeys1. now left.
    + auto.
    + intros Hkept k [<-|Hk].
      * apply Hmono2, Hkeys1. right. split; [reflexivity|].
        case_bool_decide; [discriminate | assumption].
      * apply Hall2; [|assumption]. now case_bool_decide.
Qed.

(** With distinct parameter names, the pass gives each parameter the value
    its own callback call leaves, and keeps it as missing exactly when
    that call says so. *)
Lemma filterEntries_entry (rawArguments : RawArguments) (name : string)
    (p : AbstractParameter) :
  forall entries o o' kept,
    NoDup (JsObject.keys entries) ->
    In (name, p) entries ->
    filterEntries rawArguments entries o = Normal (o', kept) ->
    exists o0 o1 missing,
      resolveParameter rawArguments o0 (name, p) = Normal (o1, missing) /\
      JsObject.get name o0 = JsObject.get name o /\
      JsObject.get name o' = JsObject.get name o1 /\
      (In name (map fst kept) <-> missing = true).
Proof.
  induction entries as [|[name0 p0] rest IH]; intros o o' kept Hnd Hin Hpass; [destruct Hin|].
  apply filterEntries_cons_Normal in Hpass as (o1 & missing & kept' & Hstep & Hrest & ->).
  simpl in Hnd. apply NoDup_cons in Hnd as [Hfresh Hnd].
  rewrite list_elem_of_In in Hfresh.
  pose proof (filterEntries_keys _ _ _ _ _ Hrest) as (Hget & _).
  destruct Hin as [[= -> ->]|Hin].
  - exists o, o1, missing. split; [assumption|]. split; [reflexivity|].
    split; [now apply Hget|].
    assert (~ In name (map fst kept')) as Hkept'.
    { intros Hk. apply Hfresh. apply in_map_iff in Hk as ([name' p'] & Heq & Hk).
      simpl in Heq. subst name'. apply (filterEntries_kept_In _ _ _ _ _ Hrest) in Hk.
      change name with (fst (name, p')). now apply in_map. }
    destruct missing; simpl; split; auto; try discriminate.
  - assert (name0 <> name) as Hne.
    { intros ->. apply Hfresh. change name with (fst (name, p)). now apply in_map. }
    destruct (IH o1 o' kept' Hnd Hin Hrest) as (o0 & o2 & m & Hstep' & Hsame & Hfinal & Hkept).
    exists o0, o2, m. split; [assumption|]. split; [|split; [assumption|]].
    + rewrite Hsame. apply resolveParameter_touches in Hstep as [(Hget1 & _) _].
      apply Hget1. congruence.
    + rewrite <- Hkept. destruct missing; simpl; [|reflexivity].
      split; [intros [?|?]; [contradiction | assumption] | now right].
Qed.

End ResolverPass.

(** ** The resolver claims *)

Section ResolverClaims.
Context `{NumberOps}.

(** A call of [getCommandParameters] that returns went through a pass
    that returned and kept no entry as missing. *)
Lemma getCommandParameters_Normal (schema : ParametersConfig)
    (rawArguments : RawArguments) (commandParameters : CommandParameters) :
  getCommandParameters schema rawArguments = Normal commandParameters ->
  filterEntries rawArguments schema JsObject.empty = Normal (commandParameters, [])
  /\ unknownArgumentsOf schema rawArguments = [].
Proof.
  unfold getCommandParameters, JsObject.entries.
  destruct (filterEntries rawArguments schema JsObject.empty) as [[o kept]|e];
    [rewrite bind_Normal | rewrite bind_Throw; discriminate].
  simpl. destruct kept as [|entry kept]; simpl; [|discriminate].
  destruct (unknownArgumentsOf schema rawArguments); simpl; [|discriminate].
  now intros [= <-].
Qed.

(** A parameter whose default is [null] and that the raw arguments do not
    mention comes out of its callback call holding [null], not missing. *)
Lemma resolveParameter_null_default (rawArguments : RawArguments)
    (o : CommandParameters) (name : string) (p : AbstractParameter) :
  defaultValue p = Some VNull ->
  JsObject.get name rawArguments = None ->
  exists o', resolveParameter rawArguments o (name, p) = Normal (o', false)
             /\ JsObject.get name o' = Some VNull.
Proof.
  intros Hdefault Hraw. unfold resolveParameter. rewrite Hdefault, Hraw.
  rewrite bind_Normal. eexists. split; [|apply get_set_eq].
  f_equal. f_equal. rewrite get_set_eq. reflexivity.
Qed.

(** By own properties: whenever resolution succeeds, the keys of the
    returned mapping are exactly the declared parameter names, each once;
    and a parameter whose [defaultValue] is [null] and that is absent from
    the raw arguments is given [null] by its resolution step, holds [null]
    in the returned mapping, and is never listed in a missing-arguments
    failure. *)
Lemma resolved_keys_and_null_default
    (schema : ParametersConfig) (rawArguments : RawArguments) :
  (forall commandParameters,
      getCommandParameters schema rawArguments = Normal commandParameters ->
      (forall k, In k (JsObject.keys commandParameters) <-> In k (JsObject.keys schema))
      /\ NoDup (JsObject.keys commandParameters))
  /\ (forall name p,
         NoDup (JsObject.keys schema) ->
         In (name, p) schema ->
         defaultValue p = Some VNull ->
         JsObject.get name rawArguments = None ->
         (forall o, exists o',
               resolveParameter rawArguments o (name, p) = Normal (o', false)
               /\ JsObject.get name o' = Some VNull)
         /\ (forall commandParameters,
                getCommandParameters schema rawArguments = Normal commandParameters ->
                JsObject.get name commandParameters = Some VNull)
         /\ (forall names,
                getCommandParameters schema rawArguments = Throw (MissingArguments names) ->
                ~ In name names)).
Proof.
  split.
  - intros commandParameters Hreturns.
    apply getCommandParameters_Normal in Hreturns as [Hpass _].
    apply filterEntries_keys in Hpass as (_ & Hnew & _ & Hnd & Hall).
    split; [|apply Hnd; constructor].
    intros k. split; [|now apply Hall].
    intros Hk. apply Hnew in Hk as [[]|Hk]. assumption.
  - intros name p Hnd Hin Hdefault Hraw.
    split; [intros o; now apply resolveParameter_null_default|].
    split.
    + intros commandParameters Hreturns.
      apply getCommandParameters_Normal in Hreturns as [Hpass _].
      destruct (filterEntries_entry _ _ _ _ _ _ _ Hnd Hin Hpass)
        as (o0 & o1 & missing & Hstep & _ & Hfinal & _).
      destruct (resolveParameter_null_default rawArguments o0 name p Hdefault Hraw)
        as (o' & Hstep' & Hnull).
      rewrite Hfinal. congruence.
    + intros names. unfold getCommandParameters, JsObject.entries.
      destruct (filterEntries rawArguments schema JsObject.empty) as [[o kept]|e] eqn:Hpass;
        [rewrite bind_Normal | rewrite bind_Throw].
      * simpl. destruct (0 <? length kept)%nat;
          [|destruct (0 <? length (unknownArgumentsOf schema rawArguments))%nat; discriminate].
        intros [= <-] Hmissing.
        destruct (filterEntries_entry _ _ _ _ _ _ _ Hnd Hin Hpass)
          as (o0 & o1 & missing & Hstep & _ & _ & Hkept).
        destruct (resolveParameter_null_default rawArguments o0 name p Hdefault Hraw)
          as (o' & Hstep' & _).
        apply Hkept in Hmissing. congruence.
      * intros [= ->]. apply filterEntries_Throw in Hpass. discriminate.
Qed.

(** A parameter nothing has assigned yet is reported missing by its
    callback call exactly when the specification calls it omitted. *)
Lemma resolveParameter_missing_omitted (rawArguments : RawArguments)
    (o o' : CommandParameters) (entry : string * AbstractParameter) (missing : bool) :
  JsObject.get entry.1 o = None ->
  resolveParameter rawArguments o entry = Normal (o', missing) ->
  missing = omitted rawArguments entry.
Proof.
  destruct entry as [name p]. simpl. intros Hfresh.
  unfold resolveParameter, omitted, applyRawArgument. simpl.
  destruct (type p), (defaultValue p) as [d|],
    (JsObject.get name rawArguments) as [[|rawArgument]|];
    repeat match goal with |- context [if ?b then _ else _] => destruct b end;
    rewrite ?bind_Normal, ?bind_Throw; try discriminate;
    intros [= <- <-]; rewrite ?get_set_eq, ?Hfresh; reflexivity.
Qed.

(** With distinct parameter names and none of them assigned beforehand,
    the pass keeps as missing the omitted entries, in schema order. *)
Lemma filterEntries_missing (rawArguments : RawArguments) :
  forall entries o o' kept,
    NoDup (JsObject.keys entries) ->
    (forall k, In k (JsObject.keys entries) -> JsObject.get k o = None) ->
    filterEntries rawArguments entries o = Normal (o', kept) ->
    kept = List.filter (omitted rawArguments) entries.
Proof.
  induction entries as [|[name p] rest IH]; intros o o' kept Hnd Hfresh Hpass.
  - simpl in Hpass. now injection Hpass as _ <-.
  - apply filterEntries_cons_Normal in Hpass as (o1 & missing & kept' & Hstep & Hrest & ->).
    simpl in Hnd. apply NoDup_cons in Hnd as [Hname Hnd]. rewrite list_elem_of_In in Hname.
    rewrite (resolveParameter_missing_omitted rawArguments o o1 (name, p) missing
               (Hfresh name (or_introl eq_refl)) Hstep).
    apply resolveParameter_touches in Hstep as [(Hget & _) _].
    assert (kept' = List.filter (omitted rawArguments) rest) as ->.
    { apply (IH o1 o'); [assumption| |assumption].
      intros k Hk. rewrite Hget; [apply Hfresh; now right|]. intros ->. contradiction. }
    simpl. now destruct (omitted rawArguments (name, p)).
Qed.

Lemma length_positive {A : Type} (l : list A) : (0 <? length l)%nat = negb (bool_decide (l = [])).
Proof. now destruct l. Qed.

(** C2, as the code has it. For every schema with distinct parameter
    names, none of them the name of a member of [Object.prototype], and
    every raw-argument map on which no coercion fails, the missing
    parameters (those omitted, in schema order) and the unknown arguments
    (the raw keys that are no parameter name) are both computed, but
    reported one kind at a time: when a parameter is missing the failure
    lists the missing names and nothing else, whether or not there are
    unknown arguments; the unknown names are listed only when no parameter
    is missing; with neither, resolution returns. *)
Theorem C2_missing_names_are_reported_alone
    (schema : ParametersConfig) (rawArguments : RawArguments) :
  NoDup (JsObject.keys schema) ->
  Forall Prototype.ordinary (JsObject.keys schema) ->
  (forall e, getCommandParameters schema rawArguments = Throw e ->
             kind e <> KTypeConversionError) ->
  (forall name, In name (unknownArgumentsOf schema rawArguments) <->
                In name (JsObject.keys rawArguments) /\ ~ In name (JsObject.keys schema))
  /\ (List.filter (omitted rawArguments) schema <> [] ->
      getCommandParameters schema rawArguments =
        Throw (MissingArguments (map fst (List.filter (omitted rawArguments) schema)))
      /\ message (MissingArguments (map fst (List.filter (omitted rawArguments) schema))) =
         "Missing arguments: " +:+ join ", " (map fst (List.filter (omitted rawArguments) schema)))
  /\ (List.filter (omitted rawArguments) schema = [] ->
      unknownArgumentsOf schema rawArguments <> [] ->
      getCommandParameters schema rawArguments =
        Throw (UnknownArguments (unknownArgumentsOf schema rawArguments)))
  /\ (List.filter (omitted rawArguments) schema = [] ->
      unknownArgumentsOf schema rawArguments = [] ->
      exists commandParameters,
        getCommandParameters schema rawArguments = Normal commandParameters).
Proof.
  intros Hnd _ Hcoerces. split.
  { intros name. unfold unknownArgumentsOf. rewrite filter_In, negb_true_iff.
    rewrite <- not_true_iff_false, includes_In. reflexivity. }
  revert Hcoerces. unfold getCommandParameters, JsObject.entries.
  destruct (filterEntries rawArguments schema JsObject.empty) as [[o kept]|e] eqn:Hpass.
  - intros _. rewrite bind_Normal. simpl.
    assert (kept = List.filter (omitted rawArguments) schema) as <-.
    { now apply (filterEntries_missing rawArguments schema JsObject.empty o). }
    rewrite !length_positive. split; [|split].
    + intros Hmissing. rewrite bool_decide_eq_false_2 by assumption. now split.
    + intros -> Hunknown. simpl. now rewrite bool_decide_eq_false_2.
    + intros -> ->. simpl. eauto.
  - intros Hcoerces. exfalso. apply (Hcoerces e); [reflexivity|].
    now apply filterEntries_Throw in Hpass.
Qed.




End ResolverClaims.

(** ** The dispatcher claims *)

Section DispatcherClaims.
Context `{NumberOps} {unknown : Type}.

Lemma lookup_2_drop (argv : list string) : argv !! 2%nat = drop 2 argv !! 0%nat.
Proof. now rewrite lookup_drop. Qed.

Lemma drop_3_drop (argv : list string) : drop 3 argv = drop 1 (drop 2 argv).
Proof. now rewrite drop_drop. Qed.

(** What [getCommandName] and [getCommandLineArguments] do, by the shape
    of [argv[2]]. *)
Lemma getCommandName_cases (argv : list string) :
  match argv !! 2%nat with
  | None =>
      getCommandName argv = Normal "default"
      /\ getCommandLineArguments argv "default" = drop 2 argv
  | Some first =>
      (matchArgument first <> None ->
       getCommandName argv = Normal "default"
       /\ getCommandLineArguments argv "default" = drop 2 argv)
      /\ (COMMAND_NAME_REGEXP first = true ->
          getCommandName argv = Normal first
          /\ (first <> "default" -> getCommandLineArguments argv first = drop 3 argv))
      /\ (COMMAND_NAME_REGEXP first = false ->
          matchArgument first = None ->
          getCommandName argv = Throw InvalidCommandName)
  end.
Proof.
  unfold getCommandName, getCommandLineArguments.
  destruct (argv !! 2%nat) as [first|]; [|split; reflexivity].
  split; [|split].
  - intros Hflag. split; [|reflexivity].
    destruct (COMMAND_NAME_REGEXP first) eqn:Hname.
    + exfalso. apply Hflag. apply matchArgument_None.
      now apply command_name_is_no_argument.
    + unfold matchArgument in Hflag.
      destruct (COMMAND_ARGUMENT_NAME_REGEXP first); [reflexivity|].
      destruct (COMMAND_ARGUMENT_SHORTHAND_REGEXP first); [reflexivity | contradiction].
  - intros ->. split; [reflexivity|]. intros Hne. apply String.eqb_neq in Hne. now rewrite Hne.
  - intros -> Hnone. apply matchArgument_None in Hnone as [-> ->]. reflexivity.
Qed.

(** C9. For every registry and every two argument vectors that agree from
    index 2 on, whatever their elements 0 and 1, dispatch is the same: the
    same command name, the same command-line arguments and raw arguments
    for every command name, the same executable or error, and the same
    run. *)
Theorem C9_leading_slots_are_never_inspected
    (commandConfigs : CommandConfigs (unknown := unknown)) (argv1 argv2 : list string) :
  drop 2 argv1 = drop 2 argv2 ->
  getCommandName argv1 = getCommandName argv2
  /\ (forall commandName,
         getCommandLineArguments argv1 commandName = getCommandLineArguments argv2 commandName
         /\ getRawArguments (getCommandLineArguments argv1 commandName) =
            getRawArguments (getCommandLineArguments argv2 commandName))
  /\ getCommandExecutable commandConfigs argv1 = getCommandExecutable commandConfigs argv2
  /\ run commandConfigs argv1 = run commandConfigs argv2.
Proof.
  intros Hsame.
  assert (getCommandName argv1 = getCommandName argv2) as Hname.
  { unfold getCommandName. now rewrite !lookup_2_drop, Hsame. }
  assert (forall commandName,
             getCommandLineArguments argv1 commandName =
             getCommandLineArguments argv2 commandName) as Hargs.
  { intros commandName. unfold getCommandLineArguments. now rewrite !drop_3_drop, Hsame. }
  assert (getCommandExecutable commandConfigs argv1 =
          getCommandExecutable commandConfigs argv2) as Hexecutable.
  { unfold getCommandExecutable. rewrite Hname.
    destruct (getCommandName argv2) as [commandName|e]; [|reflexivity].
    rewrite !bind_Normal. now rewrite Hargs. }
  split; [assumption|]. split; [|split; [assumption|]].
  - intros commandName. now rewrite Hargs.
  - unfold run. now rewrite Hexecutable.
Qed.

(** By own properties: an error of command-name resolution, of the
    registry lookup, of the tokenizer or of the resolver is the outcome of
    [getCommandExecutable], and [run] then logs it and exits; when the
    four stages return, [getCommandExecutable] returns the handler bound
    to the resolved parameters, a value whose call is the handler applied
    to them. *)
Lemma stage_errors_are_the_outcome
    (commandConfigs : CommandConfigs (unknown := unknown)) (argv : list string) :
  (forall e,
      getCommandExecutable commandConfigs argv = Throw e ->
      run commandConfigs argv =
        ([ConsoleLogMessage (message e); ConsoleLogMessage getUsageNotes; ProcessExit 1], None)
      /\ forall handler commandParameters,
           ~ In (HandlerInvoked handler commandParameters) (run commandConfigs argv).1)
  /\ (forall e, getCommandName argv = Throw e ->
                getCommandExecutable commandConfigs argv = Throw e)
  /\ (forall commandName,
         getCommandName argv = Normal commandName ->
         (forall e, getCommandConfig commandConfigs commandName = Throw e ->
                    getCommandExecutable commandConfigs argv = Throw e)
         /\ forall commandConfig,
              getCommandConfig commandConfigs commandName = Normal commandConfig ->
              (forall e, getRawArguments (getCommandLineArguments argv commandName) = Throw e ->
                         getCommandExecutable commandConfigs argv = Throw e)
              /\ forall rawArguments,
                   getRawArguments (getCommandLineArguments argv commandName)
                   = Normal rawArguments ->
                   (forall e,
                       getCommandParameters (parameters commandConfig) rawArguments = Throw e ->
                       getCommandExecutable commandConfigs argv = Throw e)
                   /\ forall commandParameters,
                        getCommandParameters (parameters commandConfig) rawArguments
                        = Normal commandParameters ->
                        getCommandExecutable commandConfigs argv
                        = Normal (bind (command commandConfig) commandParameters)
                        /\ call (bind (command commandConfig) commandParameters)
                           = command commandConfig commandParameters
                        /\ exists more,
                             (run commandConfigs argv).1
                             = HandlerInvoked (command commandConfig) commandParameters :: more
                             /\ forall handler parameters',
                                  ~ In (HandlerInvoked handler parameters') more).
Proof.
  split; [|split].
  - intros e He. unfold run. rewrite He. split; [reflexivity|].
    intros handler commandParameters [Hin|[Hin|[Hin|[]]]]; discriminate.
  - intros e He. unfold getCommandExecutable. now rewrite He.
  - intros commandName Hname. unfold getCommandExecutable, run.
    unfold getCommandExecutable. rewrite Hname, !bind_Normal. split.
    + intros e He. now rewrite He.
    + intros commandConfig Hconfig. rewrite Hconfig, !bind_Normal. split.
      * intros e He. now rewrite He.
      * intros rawArguments Hraw. rewrite Hraw, !bind_Normal. split.
        -- intros e He. now rewrite He.
        -- intros commandParameters Hparameters. rewrite Hparameters, !bind_Normal.
           split; [reflexivity|]. split; [reflexivity|].
           unfold call, bind. simpl.
           destruct (command commandConfig commandParameters); simpl; eexists;
             (split; [reflexivity|]).
           ++ intros handler parameters' [].
           ++ intros handler parameters' [Hin|[Hin|[]]]; discriminate.
Qed.

End DispatcherClaims.

(** ** Inherited properties *)

(** No name of the model's own-property reading is [__proto__]. *)
Lemma ordinary_is_no_proto (name : string) :
  Prototype.ordinary name -> String.eqb name "__proto__" = false.
Proof.
  intros Hord. destruct (String.eqb_spec name "__proto__") as [->|]; [|reflexivity].
  vm_compute in Hord. discriminate.
Qed.

Lemma read_ordinary {A : Type} (name : string) (o : JsObject.t A) :
  Prototype.ordinary name ->
  Prototype.read name o
  = match JsObject.get name o with
    | Some v => Prototype.Own v
    | None => Prototype.Undefined
    end.
Proof. intros Hord. unfold Prototype.read. now rewrite Hord. Qed.

Section PrototypeAgreement.
Context `{NumberOps}.

Lemma get_plainProperties (k : string) (o : CommandParameters) :
  JsObject.get k (Prototype.plainProperties o)
  = option_map Prototype.Plain (JsObject.get k o).
Proof.
  unfold Prototype.plainProperties.
  induction o as [|[k' v'] o IH]; simpl; [reflexivity|].
  now destruct (String.eqb k' k).
Qed.

Lemma keys_plainProperties (o : CommandParameters) :
  JsObject.keys (Prototype.plainProperties o) = JsObject.keys o.
Proof.
  unfold JsObject.keys, Prototype.plainProperties. rewrite map_map. now apply map_ext.
Qed.

Lemma has_plainProperties (k : string) (o : CommandParameters) :
  JsObject.has k (Prototype.plainProperties o) = JsObject.has k o.
Proof.
  unfold JsObject.has. rewrite get_plainProperties. now destruct (JsObject.get k o).
Qed.

Lemma replace_plainProperties (k : string) (v : Value) (o : CommandParameters) :
  JsObject.replace k (Prototype.Plain v) (Prototype.plainProperties o)
  = Prototype.plainProperties (JsObject.replace k v o).
Proof.
  unfold Prototype.plainProperties.
  induction o as [|[k' v'] o IH]; simpl; [reflexivity|].
  destruct (String.eqb k' k); simpl; [reflexivity | now rewrite IH].
Qed.

Lemma insert_index_plainProperties (n : N) (k : string) (v : Value) (o : CommandParameters) :
  JsObject.insert_index n k (Prototype.Plain v) (Prototype.plainProperties o)
  = Prototype.plainProperties (JsObject.insert_index n k v o).
Proof.
  unfold Prototype.plainProperties.
  induction o as [|[k' v'] o IH]; simpl; [reflexivity|].
  destruct (JsObject.array_index k') as [m|]; simpl; [|reflexivity].
  destruct (N.ltb m n); simpl; [now rewrite IH | reflexivity].
Qed.

Lemma set_plainProperties (k : string) (v : Value) (o : CommandParameters) :
  JsObject.set k (Prototype.Plain v) (Prototype.plainProperties o)
  = Prototype.plainProperties (JsObject.set k v o).
Proof.
  unfold JsObject.set. rewrite has_plainProperties. destruct (JsObject.has k o).
  - apply replace_plainProperties.
  - destruct (JsObject.array_index k).
    + apply insert_index_plainProperties.
    + unfold Prototype.plainProperties. now rewrite map_app.
Qed.

(** An assignment under an ordinary name creates or updates the own
    property. *)
Lemma assign_plain (k : string) (v : Value) (o : CommandParameters) :
  Prototype.ordinary k ->
  Prototype.assign k v (Prototype.plain o) = Prototype.plain (JsObject.set k v o).
Proof.
  intros Hord. unfold Prototype.assign, Prototype.plain. simpl.
  rewrite (ordinary_is_no_proto k Hord), set_plainProperties.
  now destruct (JsObject.has k (Prototype.plainProperties o)).
Qed.

(** A read under an ordinary name is undefined exactly when there is no
    own property. *)
Lemma readParameter_plain (k : string) (o : CommandParameters) :
  Prototype.ordinary k ->
  Prototype.isUndefined (Prototype.readParameter k (Prototype.plain o))
  = bool_decide (JsObject.get k o = None).
Proof.
  intros Hord. unfold Prototype.readParameter, Prototype.plain. simpl.
  rewrite get_plainProperties, Hord. now destruct (JsObject.get k o).
Qed.

Lemma applyRawArgument_plain (name : string) (p : AbstractParameter) (s : string)
    (o : CommandParameters) :
  Prototype.ordinary name ->
  Prototype.applyRawArgument name p s (Prototype.plain o)
  = Prototype.thrown Prototype.plain (applyRawArgument name p s o).
Proof.
  intros Hord. unfold Prototype.applyRawArgument, applyRawArgument.
  destruct (type p); cbv beta iota zeta.
  - destruct (Number_isNaN (Number s)); simpl;
      [reflexivity | now rewrite (assign_plain _ _ _ Hord)].
  - now rewrite (assign_plain _ _ _ Hord).
  - destruct (includes TRUE_TOKENS (toLowerCase s)); cbn [Prototype.thrown];
      [now rewrite (assign_plain _ _ _ Hord)|].
    destruct (includes FALSE_TOKENS (toLowerCase s)); cbn [Prototype.thrown];
      [now rewrite (assign_plain _ _ _ Hord) | reflexivity].
Qed.

Lemma resolveParameter_plain (rawArguments : RawArguments) (o : CommandParameters)
    (entry : string * AbstractParameter) :
  Prototype.ordinary entry.1 ->
  Prototype.resolveParameter rawArguments (Prototype.plain o) entry
  = Prototype.thrown Prototype.plainStep (resolveParameter rawArguments o entry).
Proof.
  destruct entry as [name p]. simpl. intros Hord.
  unfold Prototype.resolveParameter, resolveParameter.
  rewrite (read_ordinary name rawArguments Hord).
  set (o1 := match type p with
             | TBoolean => JsObject.set name (VBoolean false) o
             | _ => o
             end).
  assert (match type p with
          | TBoolean => Prototype.assign name (VBoolean false) (Prototype.plain o)
          | _ => Prototype.plain o
          end = Prototype.plain o1) as ->.
  { subst o1. destruct (type p); try reflexivity. apply (assign_plain _ _ _ Hord). }
  set (o2 := match defaultValue p with
             | Some value => JsObject.set name value o1
             | None => o1
             end).
  assert (match defaultValue p with
          | Some value => Prototype.assign name value (Prototype.plain o1)
          | None => Prototype.plain o1
          end = Prototype.plain o2) as ->.
  { subst o2. destruct (defaultValue p); try reflexivity. apply (assign_plain _ _ _ Hord). }
  destruct (JsObject.get name rawArguments) as [[|s]|]; simpl.
  - cbn. now rewrite (readParameter_plain _ _ Hord).
  - rewrite (applyRawArgument_plain name p s o2 Hord).
    destruct (applyRawArgument name p s o2) as [o3|e]; cbn; [|reflexivity].
    now rewrite (readParameter_plain _ _ Hord).
  - cbn. now rewrite (readParameter_plain _ _ Hord).
Qed.

Lemma filterEntries_plain (rawArguments : RawArguments)
    (entries : list (string * AbstractParameter)) (o : CommandParameters) :
  Forall Prototype.ordinary (JsObject.keys entries) ->
  Prototype.filterEntries rawArguments entries (Prototype.plain o)
  = Prototype.thrown Prototype.plainPass (filterEntries rawArguments entries o).
Proof.
  revert o. induction entries as [|entry entries IH]; intros o Hord; [reflexivity|].
  unfold JsObject.keys in Hord. simpl in Hord.
  apply Forall_cons in Hord as [Hentry Hrest].
  cbn [Prototype.filterEntries filterEntries].
  rewrite (resolveParameter_plain rawArguments o entry Hentry).
  destruct (resolveParameter rawArguments o entry) as [[o1 missing]|e]; cbn; [|reflexivity].
  rewrite (IH o1 Hrest).
  destruct (filterEntries rawArguments entries o1) as [[o2 kept]|e]; cbn; reflexivity.
Qed.

(** On a schema whose parameter names are no names of members of
    [Object.prototype], the resolver that reads inherited properties is
    the resolver of [Model]. *)
Lemma getCommandParameters_ordinary (schema : ParametersConfig)
    (rawArguments : RawArguments) :
  Forall Prototype.ordinary (JsObject.keys schema) ->
  Prototype.getCommandParameters schema rawArguments
  = Prototype.thrown Prototype.plain (getCommandParameters schema rawArguments).
Proof.
  intros Hord. unfold Prototype.getCommandParameters, getCommandParameters, JsObject.entries.
  change Prototype.emptyParameters with (Prototype.plain JsObject.empty).
  rewrite (filterEntries_plain rawArguments schema JsObject.empty Hord).
  destruct (filterEntries rawArguments schema JsObject.empty) as [[o kept]|e]; cbn;
    [|reflexivity].
  destruct kept; simpl; [|reflexivity].
  destruct (unknownArgumentsOf schema rawArguments); reflexivity.
Qed.

(** On such a schema, whenever resolution succeeds the own properties of
    the returned object are exactly the declared parameter names, each
    once, and a parameter whose default is [null] and that is absent from
    the raw arguments holds [null]. *)
Lemma ordinary_schema_resolves_to_its_names (schema : ParametersConfig)
    (rawArguments : RawArguments) (commandParameters : Prototype.HostParameters) :
  Forall Prototype.ordinary (JsObject.keys schema) ->
  Prototype.getCommandParameters schema rawArguments = Prototype.Returns commandParameters ->
  (forall k, In k (JsObject.keys (Prototype.properties commandParameters))
             <-> In k (JsObject.keys schema))
  /\ NoDup (JsObject.keys (Prototype.properties commandParameters))
  /\ forall name p,
       NoDup (JsObject.keys schema) ->
       In (name, p) schema ->
       defaultValue p = Some VNull ->
       JsObject.get name rawArguments = None ->
       JsObject.get name (Prototype.properties commandParameters)
       = Some (Prototype.Plain VNull).
Proof.
  intros Hord. rewrite (getCommandParameters_ordinary schema rawArguments Hord).
  destruct (getCommandParameters schema rawArguments) as [o|e] eqn:Hmodel;
    [|discriminate].
  intros [= <-]. simpl. rewrite keys_plainProperties.
  destruct (resolved_keys_and_null_default schema rawArguments) as [Hkeys Hnull].
  destruct (Hkeys o Hmodel) as [Hiff Hnd].
  split; [assumption|]. split; [assumption|].
  intros name p Hschema Hin Hdefault Hraw.
  destruct (Hnull name p Hschema Hin Hdefault Hraw) as (_ & Hfinal & _).
  now rewrite get_plainProperties, (Hfinal o Hmodel).
Qed.

End PrototypeAgreement.

Section PrototypeDispatch.
Context `{NumberOps} {unknown : Type}.

(** What [getCommandExecutable] returns when it returns: the handler of
    the command registered under the resolved name, bound to the object
    the resolver returned for its schema and the tokenized arguments. *)
Lemma executable_binds_what_the_resolver_returns
    (commandConfigs : Prototype.CommandConfigs (unknown := unknown)) (argv : list string)
    (commandExecutable : Prototype.CommandExecutable) :
  Prototype.getCommandExecutable commandConfigs argv = Prototype.Returns commandExecutable ->
  exists commandName commandConfig rawArguments,
    getCommandName argv = Normal commandName
    /\ commandConfigs !! commandName = Some commandConfig
    /\ getRawArguments (getCommandLineArguments argv commandName) = Normal rawArguments
    /\ Prototype.getCommandParameters (Prototype.parameters commandConfig) rawArguments
       = Prototype.Returns (Prototype.boundArgument commandExecutable)
    /\ Prototype.boundTarget commandExecutable = Prototype.command commandConfig.
Proof.
  unfold Prototype.getCommandExecutable, Prototype.getCommandConfig.
  destruct (getCommandName argv) as [commandName|e]; cbn -[Prototype.inherited];
    [|discriminate].
  destruct (commandConfigs !! commandName) as [commandConfig|] eqn:Hlookup;
    cbn -[Prototype.inherited].
  - destruct (getRawArguments (getCommandLineArguments argv commandName))
      as [rawArguments|e] eqn:Htokens; cbn; [|discriminate].
    destruct (Prototype.getCommandParameters (Prototype.parameters commandConfig)
                rawArguments) as [commandParameters|e] eqn:Hresolved; cbn; [|discriminate].
    intros [= <-]. exists commandName, commandConfig, rawArguments.
    repeat split; reflexivity || assumption.
  - destruct (Prototype.inherited commandName); cbn; [|discriminate].
    destruct (getRawArguments (getCommandLineArguments argv commandName)); discriminate.
Qed.

End PrototypeDispatch.

(** ** The claims on concrete command lines *)

Import Examples.

(** The scenarios of the specification (section 8) that the code runs as
    written. *)
Example scenario_default_command :
  getCommandName ["node"; "bin"; "--count=3"] = Normal "default"
  /\ getRawArguments (getCommandLineArguments ["node"; "bin"; "--count=3"] "default")
     = Normal [("count", RawString "3")].
Proof. split; reflexivity. Qed.

Example scenario_unknown_command :
  getCommandExecutable registry ["node"; "bin"; "ghost"] = Throw (UnknownCommand "ghost").
Proof. vm_compute. reflexivity. Qed.

Example scenario_missing_age :
  getCommandParameters ageParameters JsObject.empty = Throw (MissingArguments ["age"]).
Proof. reflexivity. Qed.

Example scenario_number_coercion :
  getCommandParameters ageParameters [("age", RawString "42")]
  = Normal [("age", VNumber (Some 42%N))]
  /\ getCommandParameters ageParameters [("age", RawString "abc")]
     = Throw (InvalidNumericValue "age" "abc").
Proof. split; reflexivity. Qed.

(** Array-index keys are enumerated first and in ascending order, the
    others in the order of their first assignment. *)
Example raw_arguments_key_order :
  getRawArguments ["--b"; "x"; "--1"; "--a=1"; "--0=3"; "--a"]
  = Normal [("0", RawString "3"); ("1", RawNull); ("b", RawString "x"); ("a", RawNull)].
Proof. reflexivity. Qed.

Section BareFlag.
Context `{NumberOps}.

(** A raw argument holding the no-value marker leaves the callback of the
    resolver doing what it does when the argument is absent: the statement
    meant for the bare flag assigns nothing. *)
Lemma bare_flag_changes_nothing (present absent : RawArguments)
    (o : CommandParameters) (name : string) (p : AbstractParameter) :
  JsObject.get name present = Some RawNull ->
  JsObject.get name absent = None ->
  resolveParameter present o (name, p) = resolveParameter absent o (name, p).
Proof.
  intros Hpresent Habsent. unfold resolveParameter. now rewrite Hpresent, Habsent.
Qed.

(** A boolean parameter without a default, given as a bare flag, holds
    [false] after its callback call. *)
Lemma bare_flag_holds_false (rawArguments : RawArguments)
    (o : CommandParameters) (name : string) (p : AbstractParameter) :
  type p = TBoolean ->
  defaultValue p = None ->
  JsObject.get name rawArguments = Some RawNull ->
  resolveParameter rawArguments o (name, p)
  = Normal (JsObject.set name (VBoolean false) o, false).
Proof.
  intros Htype Hdefault Hraw. unfold resolveParameter.
  rewrite Htype, Hdefault, Hraw, bind_Normal. now rewrite get_set_eq.
Qed.

End BareFlag.

(** C1, evaluated. The bare flag [--loud] is tokenized with the no-value
    marker, and the boolean parameter [loud] then resolves to [false], not
    to [true]; so does the scenario of the specification, whose handler
    is bound to [loud] holding [false]. *)
Theorem C1_bare_boolean_flag_resolves_to_false :
  getRawArguments ["--loud"] = Normal [("loud", RawNull)]
  /\ getCommandParameters [("loud", parameterOf TBoolean None)] [("loud", RawNull)]
     = Normal [("loud", VBoolean false)]
  /\ getCommandExecutable registry ["node"; "bin"; "greet"; "--name=Ada"; "--loud"]
     = Normal (bind handler [("name", VString "Ada"); ("loud", VBoolean false)]).
Proof. split; [reflexivity|]. split; [reflexivity|]. vm_compute. reflexivity. Qed.

(** C2 fails as stated. With the schema [{age: number}] and the raw
    arguments [{bogus: "1"}], [age] is missing and [bogus] is unknown, yet
    the one error thrown reads "Missing arguments: age" and does not
    mention [bogus]. *)
Lemma C2_counterexample_unknown_name_not_reported :
  List.filter (omitted [("bogus", RawString "1")]) ageParameters
    = [("age", parameterOf TNumber None)]
  /\ unknownArgumentsOf ageParameters [("bogus", RawString "1")] = ["bogus"]
  /\ getCommandParameters ageParameters [("bogus", RawString "1")]
     = Throw (MissingArguments ["age"])
  /\ message (MissingArguments ["age"]) = "Missing arguments: age"
  /\ ~ (exists e,
          getCommandParameters ageParameters [("bogus", RawString "1")] = Throw e
          /\ enumerates e ["age"] /\ enumerates e ["bogus"]).
Proof.
  repeat (split; [reflexivity|]).
  intros (e & He & _ & Hbogus). vm_compute in He. injection He as <-.
  apply Forall_cons in Hbogus as [[position Hfound] _]. vm_compute in Hfound. discriminate.
Qed.

(** The same input, through the amended claim: the failure lists the
    missing name only. *)
Lemma C2_witness_missing_age :
  getCommandParameters ageParameters [("bogus", RawString "1")]
  = Throw (MissingArguments ["age"]).
Proof.
  destruct (C2_missing_names_are_reported_alone ageParameters [("bogus", RawString "1")])
    as (_ & Hmissing & _).
  - apply (bool_decide_unpack _). vm_compute. exact I.
  - repeat constructor.
  - intros e He. vm_compute in He. injection He as <-. discriminate.
  - apply Hmissing. discriminate.
Defined.



(** C4, evaluated. With [default] written out as the command name, the
    name matches the command-name pattern and is the resolved name, but
    the remaining arguments start at index 2, not 3: the name itself is
    handed to the tokenizer, which rejects it. The same command line
    without the name dispatches. *)
Theorem C4_explicit_default_is_kept_among_the_arguments :
  COMMAND_NAME_REGEXP "default" = true
  /\ getCommandName ["node"; "bin"; "default"; "--age=3"] = Normal "default"
  /\ getCommandLineArguments ["node"; "bin"; "default"; "--age=3"] "default"
     = ["default"; "--age=3"]
  /\ drop 3 ["node"; "bin"; "default"; "--age=3"] = ["--age=3"]
  /\ getCommandExecutable registry ["node"; "bin"; "default"; "--age=3"]
     = Throw (MalformedArgument "default")
  /\ getCommandExecutable registry ["node"; "bin"; "--age=3"]
     = Normal (bind handler [("age", VNumber (Some 3%N))]).
Proof. repeat (split; [vm_compute; reflexivity|]). vm_compute. reflexivity. Qed.

(** C7, evaluated. The schema declares the one string parameter
    [toString]. The command line [--toString] gives it no value: the raw
    arguments hold the no-value marker under [toString].
    The resolver then finds [commandParameters[toString]] defined, by
    inheritance, reports nothing missing, and returns an object with no
    own property, while the schema declares one name; the same schema and
    command line with the name [title] end in a missing-arguments
    failure. With [null] as the default and nothing on the command line,
    the read of [rawArguments[toString]] finds the inherited member and
    the resolver stores it in place of the [null] it had assigned. *)
Theorem C7_inherited_member_passes_for_a_value :
  getRawArguments ["--toString"] = Normal [("toString", RawNull)]
  /\ JsObject.keys memberParameters = ["toString"]
  /\ Prototype.getCommandParameters memberParameters [("toString", RawNull)]
     = Prototype.Returns {| Prototype.hasPrototype := true; Prototype.properties := [] |}
  /\ Prototype.getCommandParameters titleParameters [("title", RawNull)]
     = Prototype.Throws (Prototype.Thrown (MissingArguments ["title"]))
  /\ getRawArguments [] = Normal []
  /\ JsObject.get "toString" optionalMemberParameters
     = Some (parameterOf TString (Some VNull))
  /\ Prototype.getCommandParameters optionalMemberParameters []
     = Prototype.Returns
         {| Prototype.hasPrototype := true;
            Prototype.properties := [("toString", Prototype.Member "toString")] |}.
Proof. repeat (split; [reflexivity|]). reflexivity. Qed.


(** Two command lines that differ in their first two slots only. *)
Lemma C9_witness_other_program_and_script :
  getCommandExecutable registry ["node"; "bin"; "greet"; "--name=Ada"]
  = getCommandExecutable registry ["/usr/bin/node"; "cli.js"; "greet"; "--name=Ada"].
Proof.
  now apply (C9_leading_slots_are_never_inspected registry
               ["node"; "bin"; "greet"; "--name=Ada"]
               ["/usr/bin/node"; "cli.js"; "greet"; "--name=Ada"]).
Defined.

(** * Further properties of the code *)


(** ** More on the tokenizer *)

Import RegExpSemantics.

Lemma alnum_is_no_dash (c : ascii) : is_alnum c = true -> Ascii.eqb c "-" = false.
Proof.
  intros Hc. destruct (Ascii.eqb_spec c "-") as [->|]; [discriminate | reflexivity].
Qed.

(** The long-form matcher on two dashes, a name and what follows it. *)
Lemma long_form_on_name (name tail : string) :
  is_name name ->
  stops is_name_char tail ->
  COMMAND_ARGUMENT_NAME_REGEXP ("--" +:+ name +:+ tail) =
  match value_part tail with
  | Some value => Some {| group1 := name; group2 := value |}
  | None => None
  end.
Proof.
  intros (c & rest & -> & Hc & Hall) Hstop.
  rewrite !append_cons, !append_empty_l. cbn -[name_part value_part String.append].
  assert (name_part (String c (rest +:+ tail)) = Some (String c rest, tail)) as ->.
  { apply name_part_iff. exists c, rest. now rewrite append_cons. }
  reflexivity.
Qed.

(** No token that starts with two dashes matches the short form. *)
Lemma short_form_rejects_two_dashes (s : string) :
  COMMAND_ARGUMENT_SHORTHAND_REGEXP ("--" +:+ s) = None.
Proof. reflexivity. Qed.

(** The name group of a match is a well-formed name. *)
Lemma matchArgument_is_name (token : string) (matches : Matches) :
  matchArgument token = Some matches -> is_name (group1 matches).
Proof.
  intros Hm. apply matchArgument_Some in Hm as [Hlong|[Hshort _]].
  - destruct token as [|d1 [|d2 body]]; simpl in Hlong; try discriminate.
    destruct (Ascii.eqb d1 "-" && Ascii.eqb d2 "-"); [|discriminate].
    destruct (name_part body) as [[name tail]|] eqn:Hname; [|discriminate].
    destruct (value_part tail); [|discriminate]. injection Hlong as <-. simpl.
    apply name_part_iff in Hname as (c & rest & -> & Hc & Hall & _). exists c, rest. auto.
  - destruct token as [|d1 body]; simpl in Hshort; [discriminate|].
    destruct (Ascii.eqb d1 "-"); [|discriminate].
    destruct (name_part body) as [[name tail]|] eqn:Hname; [|discriminate].
    destruct tail; [|discriminate]. injection Hshort as <-. simpl.
    apply name_part_iff in Hname as (c & rest & -> & Hc & Hall & _). exists c, rest. auto.
Qed.

(** The tokens [--name] and [-name] both match, with the same groups. *)
Lemma matchArgument_bare (name : string) :
  is_name name ->
  matchArgument ("--" +:+ name) = Some {| group1 := name; group2 := None |}
  /\ matchArgument ("-" +:+ name) = Some {| group1 := name; group2 := None |}.
Proof.
  intros Hname. split.
  - unfold matchArgument. rewrite <- (append_empty_r name) at 1.
    now rewrite (long_form_on_name name "" Hname I).
  - destruct Hname as (c & rest & -> & Hc & Hall). unfold matchArgument.
    rewrite append_cons, append_empty_l.
    assert (COMMAND_ARGUMENT_NAME_REGEXP (String "-" (String c rest)) = None) as ->.
    { unfold COMMAND_ARGUMENT_NAME_REGEXP.
      now rewrite (alnum_is_no_dash c Hc), andb_false_r. }
    cbn -[name_part].
    assert (name_part (String c rest) = Some (String c rest, "")) as ->.
    { apply name_part_iff. exists c, rest. repeat split; auto. now rewrite append_empty_r. }
    reflexivity.
Qed.

(** The token [--name=value]. *)
Lemma matchArgument_valued (name value : string) :
  is_name name ->
  matchArgument ("--" +:+ name +:+ "=" +:+ value) =
  if negb (String.eqb value "") && all_chars dot value
  then Some {| group1 := name; group2 := Some value |}
  else None.
Proof.
  intros Hname. unfold matchArgument.
  rewrite (long_form_on_name name ("=" +:+ value) Hname eq_refl).
  rewrite short_form_rejects_two_dashes.
  rewrite append_cons, append_empty_l. unfold value_part. simpl Ascii.eqb. cbv iota.
  destruct value as [|c value]; [reflexivity|].
  change (fun x => negb (is_line_terminator x)) with dot.
  simpl negb. rewrite andb_true_l. now destruct (all_chars dot (String c value)).
Qed.

Lemma set_empty {A : Type} (k : string) (v : A) : JsObject.set k v JsObject.empty = [(k, v)].
Proof. unfold JsObject.set. simpl. now destruct (JsObject.array_index k). Qed.

Lemma getRawArguments_valued_token (name value : string) :
  is_name name ->
  negb (String.eqb value "") && all_chars dot value = true ->
  getRawArguments ["--" +:+ name +:+ "=" +:+ value] = Normal [(name, RawString value)].
Proof.
  intros Hname Hok. rewrite getRawArguments_tokenize. simpl.
  rewrite (matchArgument_valued name value Hname), Hok. unfold boundValue. simpl.
  now rewrite set_empty.
Qed.

Lemma getRawArguments_spaced_value (name value : string) :
  is_name name ->
  matchArgument value = None ->
  getRawArguments ["--" +:+ name; value] = Normal [(name, RawString value)].
Proof.
  intros Hname Hvalue. rewrite getRawArguments_tokenize. simpl.
  destruct (matchArgument_bare name Hname) as [Hbare _].
  unfold consumesNext, boundValue. rewrite Hbare. simpl. rewrite Hvalue. simpl.
  now rewrite set_empty.
Qed.

(** X1. A token [--name=value] binds [name] to [value] only when the value
    is non-empty and free of line terminators: [--name=] and a value with a
    line break are malformed arguments, whatever follows them. *)
Theorem X1_valued_token_needs_a_one_line_value (name value : string) :
  is_name name ->
  (negb (String.eqb value "") && all_chars dot value = true ->
   getRawArguments ["--" +:+ name +:+ "=" +:+ value] = Normal [(name, RawString value)])
  /\ (negb (String.eqb value "") && all_chars dot value = false ->
      forall rest,
        getRawArguments (("--" +:+ name +:+ "=" +:+ value) :: rest)
        = Throw (MalformedArgument ("--" +:+ name +:+ "=" +:+ value))).
Proof.
  intros Hname. split.
  - now apply getRawArguments_valued_token.
  - intros Hbad rest. rewrite getRawArguments_tokenize. simpl.
    now rewrite (matchArgument_valued name value Hname), Hbad.
Qed.

(** The command lines [--out=a.txt] and [--out=]. *)
Lemma X1_witness_empty_value :
  getRawArguments ["--out=a.txt"] = Normal [("out", RawString "a.txt")]
  /\ getRawArguments ["--out="; "--force"] = Throw (MalformedArgument "--out=").
Proof.
  assert (is_name "out") as Hname by (exists "o"%char, "ut"; auto).
  split.
  - now apply (X1_valued_token_needs_a_one_line_value "out" "a.txt" Hname).
  - now apply (X1_valued_token_needs_a_one_line_value "out" "" Hname).
Defined.

(** Two token lists that differ only in well-formed tokens with the same
    match are tokenized alike. *)
Lemma tokenize_same_matches :
  forall n tokens tokens' rawArguments,
    length tokens <= n ->
    Forall2 (fun a b => a = b \/ (matchArgument a = matchArgument b /\ matchArgument a <> None))
            tokens tokens' ->
    tokenize tokens rawArguments = tokenize tokens' rawArguments.
Proof.
  induction n as [|n IH]; intros tokens tokens' rawArguments Hlen Hsame.
  - destruct tokens; [|simpl in Hlen; lia]. apply Forall2_nil_inv_l in Hsame. now subst.
  - destruct Hsame as [|a b rest rest' Hab Hrest]; [reflexivity|].
    simpl in Hlen. simpl.
    assert (matchArgument a = matchArgument b) as Hmatch by (destruct Hab as [->|[? _]]; auto).
    rewrite <- Hmatch. destruct (matchArgument a) as [matches|] eqn:Ha.
    + destruct Hrest as [|x y more more' Hxy Hmore]; [reflexivity|].
      assert (bool_decide (matchArgument x = None) = bool_decide (matchArgument y = None)
              /\ boundValue matches (x :: more) = boundValue matches (y :: more')) as [Hnone Hvalue].
      { unfold boundValue. destruct Hxy as [->|[Hxy Hx]]; [auto|].
        rewrite <- Hxy, (bool_decide_eq_false_2 _ Hx). now destruct (group2 matches). }
      unfold consumesNext. rewrite <- Hmatch, Ha, Hvalue, <- Hnone.
      destruct (bool_decide (group2 matches = None) && bool_decide (matchArgument x = None)).
      * apply IH; [simpl in Hlen; lia | assumption].
      * apply IH; [simpl in *; lia | now constructor].
    + destruct Hab as [->|[_ Hnot]]; [reflexivity | contradiction].
Qed.

(** X2. In the tokenizer the short form [-name] and the long form [--name]
    are interchangeable: putting one for the other anywhere in a command
    line changes neither the raw arguments nor the error. *)
Theorem X2_short_and_long_bare_forms_agree (before after : list string) (name : string) :
  is_name name ->
  getRawArguments (before ++ ("-" +:+ name) :: after)
  = getRawArguments (before ++ ("--" +:+ name) :: after).
Proof.
  intros Hname. rewrite !getRawArguments_tokenize.
  apply (tokenize_same_matches (length (before ++ ("-" +:+ name) :: after))); [lia|].
  apply Forall2_app.
  - induction before; constructor; auto.
  - constructor.
    + right. destruct (matchArgument_bare name Hname) as [Hlong Hshort].
      rewrite Hlong, Hshort. split; [reflexivity | discriminate].
    + induction after; constructor; auto.
Qed.

(** The command lines [--name Ada -v] and [--name Ada --v]. *)
Lemma X2_witness_verbose_flag :
  getRawArguments ["--name"; "Ada"; "-v"] = getRawArguments ["--name"; "Ada"; "--v"].
Proof.
  apply (X2_short_and_long_bare_forms_agree ["--name"; "Ada"] [] "v").
  exists "v"%char, "". auto.
Defined.

Lemma bindings_come_from_tokens :
  forall tokens b,
    In b (bindings tokens) ->
    exists token matches,
      In token tokens /\ matchArgument token = Some matches /\ group1 matches = b.1.
Proof.
  induction tokens as [|token rest IHrest IHtail] using tokens_pair_ind; intros b Hb;
    [destruct Hb|].
  simpl in Hb. destruct (matchArgument token) as [matches|] eqn:Hmatch; [|destruct Hb].
  destruct Hb as [<-|Hb]; [exists token, matches; simpl; auto|].
  destruct rest as [|next rest']; [destruct Hb|].
  destruct (consumesNext token next).
  - destruct (IHtail b Hb) as (t & m & Hin & Hm & Hname). exists t, m. simpl in *. auto.
  - destruct (IHrest b Hb) as (t & m & Hin & Hm & Hname). exists t, m. simpl in *. auto.
Qed.

Lemma assignAll_keys :
  forall bs (rawArguments : RawArguments),
    (forall k, In k (JsObject.keys (assignAll bs rawArguments)) ->
               In k (JsObject.keys rawArguments) \/ In k (map fst bs))
    /\ (NoDup (JsObject.keys rawArguments) ->
        NoDup (JsObject.keys (assignAll bs rawArguments))).
Proof.
  induction bs as [|[k0 v0] bs IH]; intros rawArguments; simpl; [auto|].
  destruct (IH (JsObject.set k0 v0 rawArguments)) as [Hkeys Hnd]. split.
  - intros k Hk. apply Hkeys in Hk as [Hk|Hk]; [|auto].
    apply in_keys_set in Hk as [->|Hk]; auto.
  - intros Hbefore. apply Hnd. now apply NoDup_keys_set.
Qed.

(** X3. Whenever the tokenizer returns, the raw arguments have no
    repeated key, and every key is the name group of some token of the
    command line, hence a well-formed name: one of [a-zA-Z0-9] followed by
    any number of [a-zA-Z0-9_-], without the leading dashes. *)
Theorem X3_raw_argument_keys_are_names (tokens : list string) (rawArguments : RawArguments) :
  getRawArguments tokens = Normal rawArguments ->
  NoDup (JsObject.keys rawArguments)
  /\ Forall is_name (JsObject.keys rawArguments)
  /\ (forall k, In k (JsObject.keys rawArguments) ->
                exists token matches,
                  In token tokens /\ matchArgument token = Some matches
                  /\ group1 matches = k).
Proof.
  rewrite getRawArguments_tokenize, tokenize_outcome.
  destruct (find malformed (scannedTokens tokens)); [discriminate|]. intros [= <-].
  destruct (assignAll_keys (bindings tokens) JsObject.empty) as [Hkeys Hnd].
  assert (forall k, In k (JsObject.keys (assignAll (bindings tokens) JsObject.empty)) ->
                    exists token matches,
                      In token tokens /\ matchArgument token = Some matches
                      /\ group1 matches = k) as Hfrom.
  { intros k Hk. apply Hkeys in Hk as [[]|Hk]. apply in_map_iff in Hk as (b & <- & Hb).
    now apply bindings_come_from_tokens. }
  split; [apply Hnd; constructor|]. split; [|assumption].
  apply Forall_forall. intros k Hk. apply list_elem_of_In in Hk.
  destruct (Hfrom k Hk) as (token & matches & _ & Hmatch & <-).
  now apply matchArgument_is_name with token.
Qed.

(** The command line [--a=1 -b --a]. *)
Lemma X3_witness_three_tokens :
  NoDup (JsObject.keys [("a", RawNull); ("b", RawNull)])
  /\ Forall is_name (JsObject.keys [("a", RawNull); ("b", RawNull)]).
Proof.
  destruct (X3_raw_argument_keys_are_names ["--a=1"; "-b"; "--a"]
              [("a", RawNull); ("b", RawNull)] eq_refl) as (Hnd & Hnames & _).
  now split.
Defined.

(** ** More on the resolver *)

Section ResolverExtras.
Context `{NumberOps}.

(** With distinct parameter names, a parameter whose callback call always
    returns holding [v] holds [v] in the returned mapping and is never
    reported missing. *)
Lemma resolved_value (schema : ParametersConfig) (rawArguments : RawArguments)
    (name : string) (p : AbstractParameter) (v : Value) :
  NoDup (JsObject.keys schema) ->
  In (name, p) schema ->
  (forall o, exists o', resolveParameter rawArguments o (name, p) = Normal (o', false)
                        /\ JsObject.get name o' = Some v) ->
  (forall commandParameters,
      getCommandParameters schema rawArguments = Normal commandParameters ->
      JsObject.get name commandParameters = Some v)
  /\ (forall names,
         getCommandParameters schema rawArguments = Throw (MissingArguments names) ->
         ~ In name names).
Proof.
  intros Hnd Hin Hstep. split.
  - intros commandParameters Hreturns.
    apply getCommandParameters_Normal in Hreturns as [Hpass _].
    destruct (filterEntries_entry _ _ _ _ _ _ _ Hnd Hin Hpass)
      as (o0 & o1 & missing & Hstep0 & _ & Hfinal & _).
    destruct (Hstep o0) as (o' & Hstep' & Hvalue). rewrite Hfinal. congruence.
  - intros names. unfold getCommandParameters, JsObject.entries.
    destruct (filterEntries rawArguments schema JsObject.empty) as [[o kept]|e] eqn:Hpass;
      [rewrite bind_Normal | rewrite bind_Throw].
    + simpl. destruct (0 <? length kept)%nat;
        [|destruct (0 <? length (unknownArgumentsOf schema rawArguments))%nat; discriminate].
      intros [= <-] Hmissing.
      destruct (filterEntries_entry _ _ _ _ _ _ _ Hnd Hin Hpass)
        as (o0 & o1 & missing & Hstep0 & _ & _ & Hkept).
      destruct (Hstep o0) as (o' & Hstep' & _). apply Hkept in Hmissing. congruence.
    + intros [= ->]. apply filterEntries_Throw in Hpass. discriminate.
Qed.

(** X4. In a schema none of whose parameter names is the name of a
    member of [Object.prototype], a parameter that declares a default and
    is given no raw string (it is absent from the command line, or present
    as a bare flag) holds its default after its resolution step and in the
    returned mapping, and is never reported missing. *)
Theorem X4_default_value_is_used
    (schema : ParametersConfig) (rawArguments : RawArguments)
    (name : string) (p : AbstractParameter) (d : Value) :
  NoDup (JsObject.keys schema) ->
  Forall Prototype.ordinary (JsObject.keys schema) ->
  In (name, p) schema ->
  defaultValue p = Some d ->
  (forall s, JsObject.get name rawArguments <> Some (RawString s)) ->
  (forall o, exists o', resolveParameter rawArguments o (name, p) = Normal (o', false)
                        /\ JsObject.get name o' = Some d)
  /\ (forall commandParameters,
         getCommandParameters schema rawArguments = Normal commandParameters ->
         JsObject.get name commandParameters = Some d)
  /\ (forall names,
         getCommandParameters schema rawArguments = Throw (MissingArguments names) ->
         ~ In name names).
Proof.
  intros Hnd _ Hin Hdefault Hraw.
  assert (forall o, exists o', resolveParameter rawArguments o (name, p) = Normal (o', false)
                               /\ JsObject.get name o' = Some d) as Hstep.
  { intros o. unfold resolveParameter. rewrite Hdefault.
    destruct (JsObject.get name rawArguments) as [[|s]|] eqn:Hget;
      [| exfalso; now apply (Hraw s) |];
      rewrite bind_Normal; (eexists; split; [|apply get_set_eq]); now rewrite get_set_eq. }
  split; [assumption|]. now apply (resolved_value schema rawArguments name p).
Qed.

(** A boolean parameter is never reported missing by its callback. *)
Lemma resolveParameter_boolean_not_missing (rawArguments : RawArguments)
    (o o' : CommandParameters) (name : string) (p : AbstractParameter) (missing : bool) :
  type p = TBoolean ->
  resolveParameter rawArguments o (name, p) = Normal (o', missing) ->
  missing = false.
Proof.
  intros Htype. unfold resolveParameter, applyRawArgument. rewrite Htype.
  destruct (defaultValue p) as [d|],
    (JsObject.get name rawArguments) as [[|rawArgument]|];
    repeat match goal with |- context [if ?b then _ else _] => destruct b end;
    rewrite ?bind_Normal, ?bind_Throw; try discriminate;
    intros [= <- <-]; now rewrite get_set_eq.
Qed.

(** X5. In a schema none of whose parameter names is the name of a
    member of [Object.prototype], a boolean parameter without a default
    that is given no raw string resolves to [false], and a boolean
    parameter is never listed in a missing-arguments failure, whatever its
    default and its raw argument. *)
Theorem X5_boolean_parameters_are_never_missing
    (schema : ParametersConfig) (rawArguments : RawArguments)
    (name : string) (p : AbstractParameter) :
  NoDup (JsObject.keys schema) ->
  Forall Prototype.ordinary (JsObject.keys schema) ->
  In (name, p) schema ->
  type p = TBoolean ->
  (forall names,
      getCommandParameters schema rawArguments = Throw (MissingArguments names) ->
      ~ In name names)
  /\ (defaultValue p = None ->
      (forall s, JsObject.get name rawArguments <> Some (RawString s)) ->
      (forall o, exists o', resolveParameter rawArguments o (name, p) = Normal (o', false)
                            /\ JsObject.get name o' = Some (VBoolean false))
      /\ (forall commandParameters,
             getCommandParameters schema rawArguments = Normal commandParameters ->
             JsObject.get name commandParameters = Some (VBoolean false))).
Proof.
  intros Hnd _ Hin Htype. split.
  - intros names. unfold getCommandParameters, JsObject.entries.
    destruct (filterEntries rawArguments schema JsObject.empty) as [[o kept]|e] eqn:Hpass;
      [rewrite bind_Normal | rewrite bind_Throw].
    + simpl. destruct (0 <? length kept)%nat;
        [|destruct (0 <? length (unknownArgumentsOf schema rawArguments))%nat; discriminate].
      intros [= <-] Hmissing.
      destruct (filterEntries_entry _ _ _ _ _ _ _ Hnd Hin Hpass)
        as (o0 & o1 & missing & Hstep0 & _ & _ & Hkept).
      apply Hkept in Hmissing.
      apply (resolveParameter_boolean_not_missing _ _ _ _ _ _ Htype) in Hstep0. congruence.
    + intros [= ->]. apply filterEntries_Throw in Hpass. discriminate.
  - intros Hdefault Hraw.
    assert (forall o, exists o', resolveParameter rawArguments o (name, p) = Normal (o', false)
                                 /\ JsObject.get name o' = Some (VBoolean false)) as Hstep.
    { intros o. unfold resolveParameter. rewrite Htype, Hdefault.
      destruct (JsObject.get name rawArguments) as [[|s]|] eqn:Hget;
        [| exfalso; now apply (Hraw s) |];
        rewrite bind_Normal; (eexists; split; [|apply get_set_eq]); now rewrite get_set_eq. }
    split; [assumption|]. now apply (resolved_value schema rawArguments name p).
Qed.


(** Whether a callback call throws, and what, does not depend on what has
    been assigned so far. *)
Lemma resolveParameter_outcome_independent (rawArguments : RawArguments)
    (o o' : CommandParameters) (entry : string * AbstractParameter) :
  match resolveParameter rawArguments o entry, resolveParameter rawArguments o' entry with
  | Throw e, Throw e' => e = e'
  | Normal _, Normal _ => True
  | _, _ => False
  end.
Proof.
  destruct entry as [name p]. unfold resolveParameter, applyRawArgument.
  destruct (JsObject.get name rawArguments) as [[|rawArgument]|];
    rewrite ?bind_Normal; try exact I.
  destruct (type p);
    [destruct (Number_isNaN (Number rawArgument))
    | 
    | destruct (includes TRUE_TOKENS (toLowerCase rawArgument));
      [|destruct (includes FALSE_TOKENS (toLowerCase rawArgument))]];
    rewrite ?bind_Normal, ?bind_Throw; try exact I; reflexivity.
Qed.

Lemma resolveParameter_throws_anywhere (rawArguments : RawArguments)
    (o o' : CommandParameters) (entry : string * AbstractParameter) (e : CommandError) :
  resolveParameter rawArguments o entry = Throw e ->
  resolveParameter rawArguments o' entry = Throw e.
Proof.
  intros He. pose proof (resolveParameter_outcome_independent rawArguments o o' entry) as Hboth.
  rewrite He in Hboth. destruct (resolveParameter rawArguments o' entry); [destruct Hboth|].
  now subst.
Qed.

Lemma resolveParameter_returns_anywhere (rawArguments : RawArguments)
    (o o' : CommandParameters) (entry : string * AbstractParameter)
    (r : CommandParameters * bool) :
  resolveParameter rawArguments o entry = Normal r ->
  exists r', resolveParameter rawArguments o' entry = Normal r'.
Proof.
  intros Hr. pose proof (resolveParameter_outcome_independent rawArguments o o' entry) as Hboth.
  rewrite Hr in Hboth. destruct (resolveParameter rawArguments o' entry); [eauto | destruct Hboth].
Qed.

(** The pass throws [e] exactly when the callback throws [e] on some
    entry and returns on all the entries before it. *)
Lemma filterEntries_Throw_iff (rawArguments : RawArguments) (e : CommandError) :
  forall entries o,
    filterEntries rawArguments entries o = Throw e <->
    exists pre entry post,
      entries = pre ++ entry :: post
      /\ Forall (fun earlier =>
                   exists r, resolveParameter rawArguments JsObject.empty earlier = Normal r) pre
      /\ resolveParameter rawArguments JsObject.empty entry = Throw e.
Proof.
  induction entries as [|entry0 rest IH]; intros o.
  - simpl. split; [discriminate|]. intros (pre & entry & post & Hnil & _). now destruct pre.
  - simpl. destruct (resolveParameter rawArguments o entry0) as [[o1 missing]|e0] eqn:Hstep.
    + rewrite bind_Normal.
      destruct (resolveParameter_returns_anywhere _ _ JsObject.empty _ _ Hstep) as [r0 Hr0].
      transitivity (filterEntries rawArguments rest o1 = Throw e).
      { destruct (filterEntries rawArguments rest o1) as [[o2 kept]|e1];
          [rewrite bind_Normal | rewrite bind_Throw]; [split; discriminate | reflexivity]. }
      rewrite IH. split.
      * intros (pre & entry & post & -> & Hpre & He). exists (entry0 :: pre), entry, post.
        split; [reflexivity|]. split; [|assumption]. apply Forall_cons. eauto.
      * intros (pre & entry & post & Heq & Hpre & He). destruct pre as [|x pre].
        -- simpl in Heq. injection Heq as <- _. congruence.
        -- simpl in Heq. injection Heq as <- ->. apply Forall_cons in Hpre as [_ Hpre].
           now exists pre, entry, post.
    + rewrite bind_Throw.
      pose proof (resolveParameter_throws_anywhere _ _ JsObject.empty _ _ Hstep) as He0.
      split.
      * intros [= <-]. exists [], entry0, rest. auto.
      * intros (pre & entry & post & Heq & Hpre & He). destruct pre as [|x pre].
        -- simpl in Heq. injection Heq as <- _. congruence.
        -- simpl in Heq. injection Heq as <- _. apply Forall_cons in Hpre as [[r Hr] _].
           congruence.
Qed.

(** X7. Coercion fails fast and comes before validation: resolution throws
    a coercion error [e] exactly when some parameter's resolution step
    throws [e] and the steps of all the parameters before it in schema
    order return; missing or unknown arguments then go unreported. Whether
    a step throws does not depend on the parameters resolved before it. *)
Theorem X7_first_coercion_failure_is_reported
    (schema : ParametersConfig) (rawArguments : RawArguments) (e : CommandError) :
  (getCommandParameters schema rawArguments = Throw e /\ kind e = KTypeConversionError <->
   exists pre entry post,
     schema = pre ++ entry :: post
     /\ Forall (fun earlier =>
                  exists r, resolveParameter rawArguments JsObject.empty earlier = Normal r) pre
     /\ resolveParameter rawArguments JsObject.empty entry = Throw e)
  /\ (forall entry o o',
         resolveParameter rawArguments o entry = Throw e ->
         resolveParameter rawArguments o' entry = Throw e).
Proof.
  split; [|intros entry o o'; apply resolveParameter_throws_anywhere].
  rewrite <- (filterEntries_Throw_iff rawArguments e schema JsObject.empty).
  unfold getCommandParameters, JsObject.entries.
  destruct (filterEntries rawArguments schema JsObject.empty) as [[o kept]|e0] eqn:Hpass.
  - rewrite bind_Normal. simpl. split; [|discriminate]. intros [Hthrow Hkind].
    destruct (0 <? length kept)%nat;
      [|destruct (0 <? length (unknownArgumentsOf schema rawArguments))%nat];
      try discriminate; injection Hthrow as <-; discriminate.
  - rewrite bind_Throw. split; [now intros [[= ->] _]|]. intros [= <-].
    split; [reflexivity | now apply filterEntries_Throw in Hpass].
Qed.

(** Two schemas that agree on names, types and defaults. *)
Lemma resolveParameter_same_type_and_default (rawArguments : RawArguments)
    (o : CommandParameters) (name : string) (p p' : AbstractParameter) :
  type p = type p' ->
  defaultValue p = defaultValue p' ->
  resolveParameter rawArguments o (name, p) = resolveParameter rawArguments o (name, p').
Proof.
  intros Htype Hdefault. unfold resolveParameter, applyRawArgument.
  now rewrite Htype, Hdefault.
Qed.

Lemma filterEntries_same_type_and_default (rawArguments : RawArguments) :
  forall schema schema' o,
    Forall2 (fun a b => a.1 = b.1 /\ type a.2 = type b.2
                        /\ defaultValue a.2 = defaultValue b.2) schema schema' ->
    match filterEntries rawArguments schema o, filterEntries rawArguments schema' o with
    | Normal (cp, kept), Normal (cp', kept') => cp = cp' /\ map fst kept = map fst kept'
    | Throw e, Throw e' => e = e'
    | _, _ => False
    end.
Proof.
  intros schema schema' o Hsame. revert o.
  induction Hsame as [|[name p] [name' p'] rest rest' (Hname & Htype & Hdefault) _ IH];
    intros o; [simpl; auto|]. cbn [filterEntries].
  simpl in Hname, Htype, Hdefault. subst name'.
  rewrite <- (resolveParameter_same_type_and_default rawArguments o name p p' Htype Hdefault).
  destruct (resolveParameter rawArguments o (name, p)) as [[o1 missing]|e];
    [rewrite !bind_Normal | now rewrite !bind_Throw].
  specialize (IH o1).
  destruct (filterEntries rawArguments rest o1) as [[o2 kept]|e2],
           (filterEntries rawArguments rest' o1) as [[o2' kept']|e2'];
    rewrite ?bind_Normal, ?bind_Throw; try contradiction; auto.
  destruct IH as [-> Hkept]. split; [reflexivity|].
  destruct missing; simpl; congruence.
Qed.

(** X8. The resolver never reads the [shorthand] and [description] fields:
    two schemas with the same parameter names, types and defaults resolve
    every raw-argument map to the same result. In particular a raw
    argument named by a parameter's shorthand, and by no parameter name,
    makes resolution fail. *)
Theorem X8_shorthand_is_never_read
    (schema schema' : ParametersConfig) (rawArguments : RawArguments) :
  Forall2 (fun a b => a.1 = b.1 /\ type a.2 = type b.2
                      /\ defaultValue a.2 = defaultValue b.2) schema schema' ->
  getCommandParameters schema rawArguments = getCommandParameters schema' rawArguments
  /\ (forall alias p,
         In p (map snd schema) ->
         shorthand p = Some alias ->
         In alias (JsObject.keys rawArguments) ->
         ~ In alias (JsObject.keys schema) ->
         exists e, getCommandParameters schema rawArguments = Throw e).
Proof.
  intros Hsame. split.
  - assert (JsObject.keys schema = JsObject.keys schema') as Hkeys.
    { unfold JsObject.keys. induction Hsame as [|a b rest rest' (Hname & _) _ IH];
        simpl; congruence. }
    unfold getCommandParameters, JsObject.entries, unknownArgumentsOf.
    pose proof (filterEntries_same_type_and_default rawArguments schema schema'
                  JsObject.empty Hsame) as Hpass.
    rewrite <- Hkeys.
    destruct (filterEntries rawArguments schema JsObject.empty) as [[o kept]|e],
             (filterEntries rawArguments schema' JsObject.empty) as [[o' kept']|e'];
      try contradiction; rewrite ?bind_Normal, ?bind_Throw; [|congruence].
    destruct Hpass as [-> Hkept]. simpl.
    rewrite <- Hkept, <- (length_map fst kept), <- (length_map fst kept'), Hkept.
    reflexivity.
  - intros alias p _ _ Hraw Hschema.
    destruct (getCommandParameters schema rawArguments) as [cp|e] eqn:Hresult; [|eauto].
    apply getCommandParameters_Normal in Hresult as [_ Hunknown]. exfalso.
    assert (In alias (unknownArgumentsOf schema rawArguments)) as Hin.
    { unfold unknownArgumentsOf. apply filter_In. split; [assumption|].
      apply negb_true_iff, not_true_iff_false. now rewrite includes_In. }
    rewrite Hunknown in Hin. destruct Hin.
Qed.

(** The callback reads the raw arguments by lookup only. *)
Lemma filterEntries_same_lookups (rawArguments rawArguments' : RawArguments) :
  (forall k, JsObject.get k rawArguments = JsObject.get k rawArguments') ->
  forall entries o,
    filterEntries rawArguments entries o = filterEntries rawArguments' entries o.
Proof.
  intros Hsame. induction entries as [|[name p] rest IH]; intros o; [reflexivity|].
  cbn [filterEntries].
  assert (resolveParameter rawArguments o (name, p)
          = resolveParameter rawArguments' o (name, p)) as ->
    by (unfold resolveParameter; now rewrite Hsame).
  destruct (resolveParameter rawArguments' o (name, p)) as [[o1 missing]|e];
    [rewrite !bind_Normal | reflexivity].
  now rewrite IH.
Qed.

Lemma unknownArgumentsOf_In (schema : ParametersConfig) (rawArguments : RawArguments)
    (k : string) :
  In k (unknownArgumentsOf schema rawArguments) <->
  JsObject.get k rawArguments <> None /\ ~ In k (JsObject.keys schema).
Proof.
  unfold unknownArgumentsOf. rewrite filter_In, negb_true_iff.
  rewrite <- not_true_iff_false, includes_In, get_None_iff. split.
  - intros [Hk Hnot]. split; [tauto | assumption].
  - intros [Hk Hnot]. split; [|assumption].
    destruct (in_dec String.string_dec k (JsObject.keys rawArguments)); tauto.
Qed.

Lemma getCommandParameters_same_lookups (schema : ParametersConfig)
    (rawArguments rawArguments' : RawArguments) :
  (forall k, JsObject.get k rawArguments = JsObject.get k rawArguments') ->
  match getCommandParameters schema rawArguments,
        getCommandParameters schema rawArguments' with
  | Normal cp, Normal cp' => cp = cp'
  | Throw (UnknownArguments names), Throw (UnknownArguments names') =>
      forall k, In k names <-> In k names'
  | Throw e, Throw e' => e = e'
  | _, _ => False
  end.
Proof.
  intros Hsame. unfold getCommandParameters, JsObject.entries.
  rewrite (filterEntries_same_lookups rawArguments rawArguments' Hsame).
  destruct (filterEntries rawArguments' schema JsObject.empty) as [[o kept]|e] eqn:Hpass;
    [rewrite !bind_Normal | rewrite !bind_Throw].
  - simpl. destruct (0 <? length kept)%nat; [reflexivity|].
    assert (forall k, In k (unknownArgumentsOf schema rawArguments) <->
                      In k (unknownArgumentsOf schema rawArguments')) as Hunknown.
    { intros k. now rewrite !unknownArgumentsOf_In, Hsame. }
    destruct (unknownArgumentsOf schema rawArguments) as [|a l],
             (unknownArgumentsOf schema rawArguments') as [|a' l']; simpl.
    + reflexivity.
    + destruct (proj2 (Hunknown a') (or_introl eq_refl)).
    + destruct (proj1 (Hunknown a) (or_introl eq_refl)).
    + assumption.
  - apply filterEntries_Throw in Hpass. destruct e; try discriminate; reflexivity.
Qed.

(** X9. The resolver reads the raw arguments by name only: two
    raw-argument maps with the same lookups (the same entries in another
    order, say) resolve to the same parameters or to the same error, but
    for the order in which an unknown-arguments error lists its names. *)
Theorem X9_raw_arguments_are_read_by_name
    (schema : ParametersConfig) (rawArguments rawArguments' : RawArguments) :
  (forall k, JsObject.get k rawArguments = JsObject.get k rawArguments') ->
  (forall commandParameters,
      getCommandParameters schema rawArguments = Normal commandParameters <->
      getCommandParameters schema rawArguments' = Normal commandParameters)
  /\ (forall e,
         (forall names, e <> UnknownArguments names) ->
         (getCommandParameters schema rawArguments = Throw e <->
          getCommandParameters schema rawArguments' = Throw e))
  /\ (forall names,
         getCommandParameters schema rawArguments = Throw (UnknownArguments names) ->
         exists names',
           getCommandParameters schema rawArguments' = Throw (UnknownArguments names')
           /\ forall k, In k names <-> In k names').
Proof.
  intros Hsame.
  pose proof (getCommandParameters_same_lookups schema rawArguments rawArguments' Hsame)
    as Hboth.
  destruct (getCommandParameters schema rawArguments) as [cp|e],
           (getCommandParameters schema rawArguments') as [cp'|e'];
    try contradiction; try (destruct e; contradiction).
  - subst cp'. split; [tauto|]. split; [|intros names [=]]. intros e _. split; intros [=].
  - split; [intros cp; split; intros [=]|]. split.
    + intros e0 Hother. destruct e; try (subst e'; tauto).
      destruct e'; try discriminate.
      split; intros [= <-]; exfalso; eapply Hother; reflexivity.
    + intros names [= ->]. destruct e'; try discriminate. eauto.
Qed.


Lemma set_singleton {A : Type} (k : string) (v d : A) :
  JsObject.set k v [(k, d)] = [(k, v)].
Proof. unfold JsObject.set, JsObject.has. simpl. now rewrite String.eqb_refl. Qed.

(** A schema of one string parameter, given a raw string for it. *)
Lemma getCommandParameters_one_string (name value : string) (p : AbstractParameter) :
  type p = TString ->
  getCommandParameters [(name, p)] [(name, RawString value)] = Normal [(name, VString value)].
Proof.
  intros Htype. unfold getCommandParameters, JsObject.entries, unknownArgumentsOf.
  cbn [filterEntries]. unfold resolveParameter, applyRawArgument.
  simpl JsObject.get. rewrite String.eqb_refl, Htype.
  assert (JsObject.set name (VString value)
            match defaultValue p with
            | Some d => JsObject.set name d JsObject.empty
            | None => JsObject.empty
            end = [(name, VString value)]) as ->.
  { destruct (defaultValue p); [rewrite set_empty; apply set_singleton | apply set_empty]. }
  rewrite !bind_Normal. simpl. now rewrite !String.eqb_refl.
Qed.

(** X10. Round trip on strings: the command line [--name=value], and the
    command line [--name value] when [value] matches neither argument
    pattern, tokenized and then resolved against a schema whose one
    parameter [name] is of type string, give [name] the value [value]
    verbatim. *)
Theorem X10_string_round_trip (name value : string) (p : AbstractParameter) :
  is_name name ->
  type p = TString ->
  (negb (String.eqb value "") && all_chars dot value = true ->
   getRawArguments ["--" +:+ name +:+ "=" +:+ value] ≫= getCommandParameters [(name, p)]
   = Normal [(name, VString value)])
  /\ (matchArgument value = None ->
      getRawArguments ["--" +:+ name; value] ≫= getCommandParameters [(name, p)]
      = Normal [(name, VString value)]).
Proof.
  intros Hname Htype. split.
  - intros Hok. rewrite (getRawArguments_valued_token name value Hname Hok), bind_Normal.
    now apply getCommandParameters_one_string.
  - intros Hvalue. rewrite (getRawArguments_spaced_value name value Hname Hvalue), bind_Normal.
    now apply getCommandParameters_one_string.
Qed.

End ResolverExtras.

(** ** More on the dispatcher *)

Section DispatcherExtras.
Context `{NumberOps} {unknown : Type}.

(** X12. [getCommandName] returns only names that match the command-name
    pattern: the element at index 2 when it matches, and otherwise
    [default], when that element is absent or is an argument; it throws
    exactly when the element is present and matches no pattern. So the
    handler of an executable is always one registered under a well-formed
    command name. *)
Theorem X12_only_well_formed_names_are_dispatched
    (commandConfigs : CommandConfigs (unknown := unknown)) (argv : list string) :
  (forall name,
      getCommandName argv = Normal name ->
      COMMAND_NAME_REGEXP name = true
      /\ (argv !! 2%nat = Some name
          \/ (name = "default"
              /\ (argv !! 2%nat = None
                  \/ exists first, argv !! 2%nat = Some first /\ matchArgument first <> None))))
  /\ (forall e,
         getCommandName argv = Throw e ->
         e = InvalidCommandName
         /\ exists first, argv !! 2%nat = Some first
                          /\ COMMAND_NAME_REGEXP first = false
                          /\ matchArgument first = None)
  /\ (forall commandExecutable,
         getCommandExecutable commandConfigs argv = Normal commandExecutable ->
         exists name commandConfig,
           COMMAND_NAME_REGEXP name = true
           /\ commandConfigs !! name = Some commandConfig
           /\ boundTarget commandExecutable = command commandConfig).
Proof.
  assert (forall name,
             getCommandName argv = Normal name ->
             COMMAND_NAME_REGEXP name = true
             /\ (argv !! 2%nat = Some name
                 \/ (name = "default"
                     /\ (argv !! 2%nat = None
                         \/ exists first, argv !! 2%nat = Some first
                                          /\ matchArgument first <> None)))) as Hname.
  { intros name. unfold getCommandName.
    destruct (argv !! 2%nat) as [first|]; [|intros [= <-]; split; [reflexivity | auto]].
    destruct (COMMAND_NAME_REGEXP first) eqn:Hfirst; [intros [= <-]; auto|].
    destruct (bool_decide (is_Some (COMMAND_ARGUMENT_NAME_REGEXP first))
              || bool_decide (is_Some (COMMAND_ARGUMENT_SHORTHAND_REGEXP first))) eqn:Hflag;
      [|discriminate].
    intros [= <-]. split; [reflexivity|]. right. split; [reflexivity|]. right.
    exists first. split; [reflexivity|]. intros Hnone.
    apply matchArgument_None in Hnone as [Hlong Hshort]. rewrite Hlong, Hshort in Hflag.
    discriminate. }
  split; [assumption|]. split.
  - intros e. unfold getCommandName.
    destruct (argv !! 2%nat) as [first|]; [|discriminate].
    destruct (COMMAND_NAME_REGEXP first) eqn:Hfirst; [discriminate|].
    destruct (COMMAND_ARGUMENT_NAME_REGEXP first) eqn:Hlong; [discriminate|].
    destruct (COMMAND_ARGUMENT_SHORTHAND_REGEXP first) eqn:Hshort; [discriminate|].
    simpl. intros [= <-]. split; [reflexivity|]. exists first.
    split; [reflexivity|]. split; [assumption|]. now apply matchArgument_None.
  - intros commandExecutable. unfold getCommandExecutable.
    destruct (getCommandName argv) as [name|e] eqn:Hn; [rewrite bind_Normal | discriminate].
    unfold getCommandConfig.
    destruct (commandConfigs !! name) as [commandConfig|] eqn:Hconfig;
      [rewrite bind_Normal | discriminate].
    destruct (getRawArguments (getCommandLineArguments argv name)) as [rawArguments|e];
      [rewrite bind_Normal | discriminate].
    destruct (getCommandParameters (parameters commandConfig) rawArguments) as [cp|e];
      [rewrite bind_Normal | discriminate].
    intros [= <-]. exists name, commandConfig. split; [now apply Hname | auto].
Qed.

(** X13. Dispatch of a command line, by its shape, in a registry whose
    parameter names are no names of members of [Object.prototype]. After
    the two leading slots, a command name other than [default] that is no
    such name either selects the command registered under it and hands
    all the tokens after it to the tokenizer and the resolver; with no
    token at all, or a first token that is an argument, the command
    registered as [default] is selected and all the tokens are handed on,
    the first one included. In both cases the lookup of the command comes
    before the tokenizer. *)
Theorem X13_dispatch_by_shape
    (commandConfigs : CommandConfigs (unknown := unknown))
    (program script : string) (tokens : list string) :
  (forall name commandConfig,
      commandConfigs !! name = Some commandConfig ->
      Forall Prototype.ordinary (JsObject.keys (parameters commandConfig))) ->
  (forall name,
      COMMAND_NAME_REGEXP name = true ->
      name <> "default" ->
      Prototype.ordinary name ->
      getCommandExecutable commandConfigs (program :: script :: name :: tokens) =
      getCommandConfig commandConfigs name ≫= fun commandConfig =>
      getRawArguments tokens ≫= fun rawArguments =>
      getCommandParameters (parameters commandConfig) rawArguments ≫= fun commandParameters =>
      Normal (bind (command commandConfig) commandParameters))
  /\ ((tokens = [] \/ exists first rest, tokens = first :: rest /\ matchArgument first <> None) ->
      Prototype.ordinary "default"
      /\ getCommandExecutable commandConfigs (program :: script :: tokens) =
         getCommandConfig commandConfigs "default" ≫= fun commandConfig =>
         getRawArguments tokens ≫= fun rawArguments =>
         getCommandParameters (parameters commandConfig) rawArguments ≫= fun commandParameters =>
         Normal (bind (command commandConfig) commandParameters)).
Proof.
  intros _. split.
  - intros name Hname Hne _.
    pose proof (getCommandName_cases (program :: script :: name :: tokens)) as Hcases.
    simpl in Hcases. destruct Hcases as (_ & Hnamed & _).
    destruct (Hnamed Hname) as [Hresolved Harguments].
    unfold getCommandExecutable. rewrite Hresolved, bind_Normal, (Harguments Hne).
    reflexivity.
  - intros Hshape. split; [reflexivity|].
    pose proof (getCommandName_cases (program :: script :: tokens)) as Hcases.
    unfold getCommandExecutable.
    destruct Hshape as [->|(first & rest & -> & Hflag)]; simpl in Hcases.
    + destruct Hcases as [Hresolved Harguments].
      rewrite Hresolved, bind_Normal, Harguments. reflexivity.
    + destruct Hcases as (Hdefault & _). destruct (Hdefault Hflag) as [Hresolved Harguments].
      rewrite Hresolved, bind_Normal, Harguments. reflexivity.
Qed.

End DispatcherExtras.

Section StringParameters.
Context `{NumberOps}.

(** X14. A string parameter given a raw string takes it verbatim, the
    empty string included: its resolution step never throws, and the
    returned mapping holds the raw string unchanged. *)
Theorem X14_string_parameters_take_the_raw_string
    (schema : ParametersConfig) (rawArguments : RawArguments)
    (name : string) (p : AbstractParameter) (s : string) :
  NoDup (JsObject.keys schema) ->
  In (name, p) schema ->
  type p = TString ->
  JsObject.get name rawArguments = Some (RawString s) ->
  (forall o, exists o', resolveParameter rawArguments o (name, p) = Normal (o', false)
                        /\ JsObject.get name o' = Some (VString s))
  /\ (forall commandParameters,
         getCommandParameters schema rawArguments = Normal commandParameters ->
         JsObject.get name commandParameters = Some (VString s))
  /\ (forall names,
         getCommandParameters schema rawArguments = Throw (MissingArguments names) ->
         ~ In name names).
Proof.
  intros Hnd Hin Htype Hraw.
  assert (forall o, exists o', resolveParameter rawArguments o (name, p) = Normal (o', false)
                               /\ JsObject.get name o' = Some (VString s)) as Hstep.
  { intros o. unfold resolveParameter, applyRawArgument. rewrite Htype, Hraw, bind_Normal.
    eexists; split; [|apply get_set_eq]. now rewrite get_set_eq. }
  split; [assumption|]. now apply (resolved_value schema rawArguments name p).
Qed.

End StringParameters.

(** ** The further properties on concrete command lines *)

(** A port with the default 80, not given on the command line. *)
Lemma X4_witness_default_port :
  exists commandParameters,
    getCommandParameters
      [("port", parameterOf TNumber (Some (@VNumber DecimalHost (Some 80%N))))] JsObject.empty
    = Normal commandParameters
    /\ JsObject.get "port" commandParameters = Some (@VNumber DecimalHost (Some 80%N)).
Proof.
  exists [("port", @VNumber DecimalHost (Some 80%N))].
  split; [reflexivity|].
  destruct (X4_default_value_is_used
              [("port", parameterOf TNumber (Some (@VNumber DecimalHost (Some 80%N))))]
              JsObject.empty
              "port" (parameterOf TNumber (Some (@VNumber DecimalHost (Some 80%N))))
              (@VNumber DecimalHost (Some 80%N))) as (_ & Hfinal & _).
  - apply (bool_decide_unpack _). vm_compute. exact I.
  - repeat constructor.
  - now left.
  - reflexivity.
  - discriminate.
  - now apply Hfinal.
Defined.

(** The flag [loud] of the greeting command, not given. *)
Lemma X5_witness_loud_not_given :
  exists commandParameters,
    getCommandParameters greetParameters [("name", RawString "Ada")]
    = Normal commandParameters
    /\ JsObject.get "loud" commandParameters = Some (VBoolean false).
Proof.
  exists [("name", VString "Ada"); ("loud", VBoolean false)].
  split; [reflexivity|].
  destruct (X5_boolean_parameters_are_never_missing greetParameters
              [("name", RawString "Ada")] "loud" (parameterOf TBoolean None)) as [_ Hfalse].
  - apply (bool_decide_unpack _). vm_compute. exact I.
  - repeat constructor.
  - right. now left.
  - reflexivity.
  - destruct Hfalse as [_ Hfinal]; [reflexivity | discriminate | now apply Hfinal].
Defined.


(** The flag [loud] with and without the shorthand [l]: the raw argument
    [l] is resolved the same way against both schemas. *)
Lemma X8_witness_shorthand_l :
  getCommandParameters
    [("loud", {| type := TBoolean; defaultValue := None;
                 shorthand := Some "l"; description := Some "Shout." |})]
    [("l", RawNull)]
  = getCommandParameters [("loud", parameterOf TBoolean None)] [("l", RawNull)].
Proof.
  apply (X8_shorthand_is_never_read
           [("loud", {| type := TBoolean; defaultValue := None;
                        shorthand := Some "l"; description := Some "Shout." |})]
           [("loud", parameterOf TBoolean None)] [("l", RawNull)]).
  repeat constructor.
Defined.

(** The greeting command with its two arguments in either order. *)
Lemma X9_witness_either_order :
  getCommandParameters greetParameters [("name", RawString "Ada"); ("loud", RawString "yes")]
  = Normal [("name", VString "Ada"); ("loud", VBoolean true)] <->
  getCommandParameters greetParameters [("loud", RawString "yes"); ("name", RawString "Ada")]
  = Normal [("name", VString "Ada"); ("loud", VBoolean true)].
Proof.
  apply (X9_raw_arguments_are_read_by_name greetParameters
           [("name", RawString "Ada"); ("loud", RawString "yes")]
           [("loud", RawString "yes"); ("name", RawString "Ada")]).
  intros k. cbn [JsObject.get].
  destruct (String.eqb_spec "name" k) as [<-|_]; [reflexivity|].
  destruct (String.eqb_spec "loud" k) as [<-|_]; reflexivity.
Defined.

(** The command lines [--name=Ada] and [--name Ada]. *)
Lemma X10_witness_name_Ada :
  getRawArguments ["--name=Ada"] ≫= getCommandParameters [("name", parameterOf TString None)]
  = Normal [("name", VString "Ada")]
  /\ getRawArguments ["--name"; "Ada"] ≫= getCommandParameters [("name", parameterOf TString None)]
     = Normal [("name", VString "Ada")].
Proof.
  destruct (X10_string_round_trip "name" "Ada" (parameterOf TString None)) as [Hvalued Hspaced].
  - exists "n"%char, "ame". auto.
  - reflexivity.
  - split; [now apply Hvalued | now apply Hspaced].
Defined.

(** The greeting command of the registry, and its default command. *)
Lemma X13_witness_greet_and_default :
  getCommandExecutable registry ["node"; "bin"; "greet"; "--name=Ada"] =
    (getCommandConfig registry "greet" ≫= fun commandConfig =>
     getRawArguments ["--name=Ada"] ≫= fun rawArguments =>
     getCommandParameters (parameters commandConfig) rawArguments ≫= fun commandParameters =>
     Normal (bind (command commandConfig) commandParameters))
  /\ getCommandExecutable registry ["node"; "bin"; "--age=3"] =
       (getCommandConfig registry "default" ≫= fun commandConfig =>
        getRawArguments ["--age=3"] ≫= fun rawArguments =>
        getCommandParameters (parameters commandConfig) rawArguments ≫= fun commandParameters =>
        Normal (bind (command commandConfig) commandParameters)).
Proof.
  assert (forall name commandConfig,
             registry !! name = Some commandConfig ->
             Forall Prototype.ordinary (JsObject.keys (parameters commandConfig)))
    as Hordinary.
  { intros name commandConfig Hlookup. unfold registry in Hlookup.
    apply (lookup_insert_Some (M := gmap string)) in Hlookup
      as [[_ <-]|[_ Hlookup]]; [repeat constructor|].
    apply (lookup_insert_Some (M := gmap string)) in Hlookup
      as [[_ <-]|[_ Hlookup]]; [repeat constructor|].
    discriminate. }
  split.
  - destruct (X13_dispatch_by_shape registry "node" "bin" ["--name=Ada"] Hordinary)
      as [Hnamed _].
    apply (Hnamed "greet"); [reflexivity | discriminate | reflexivity].
  - destruct (X13_dispatch_by_shape registry "node" "bin" ["--age=3"] Hordinary)
      as [_ Hdefault].
    apply Hdefault. right. exists "--age=3", []. split; [reflexivity | discriminate].
Defined.

(** A title given as the empty string. *)
Lemma X14_witness_empty_title :
  getCommandParameters [("title", parameterOf TString None)] [("title", RawString "")]
  = Normal [("title", VString "")]
  /\ JsObject.get "title" [("title", VString "")] = Some (VString "").
Proof.
  split; [reflexivity|].
  destruct (X14_string_parameters_take_the_raw_string
              [("title", parameterOf TString None)] [("title", RawString "")]
              "title" (parameterOf TString None) "") as (_ & Hfinal & _).
  - apply (bool_decide_unpack _). vm_compute. exact I.
  - now left.
  - reflexivity.
  - reflexivity.
  - now apply Hfinal.
Defined.

(** ** Values that look like arguments *)

Lemma line_terminator_is_no_name_char (c : ascii) :
  is_line_terminator c = true -> is_name_char c = false /\ Ascii.eqb c "=" = false.
Proof.
  unfold is_line_terminator, code. intros Hc. apply orb_true_iff in Hc as [Hc|Hc];
    apply Nat.eqb_eq in Hc; apply (f_equal ascii_of_nat) in Hc;
    rewrite ascii_nat_embedding in Hc; subst c; split; reflexivity.
Qed.

Lemma name_chars_are_dots (s : string) :
  all_chars is_name_char s = true -> all_chars dot s = true.
Proof.
  induction s as [|c s IH]; simpl; [reflexivity|]. intros Hs.
  apply andb_true_iff in Hs as [Hc Hs]. rewrite (IH Hs), andb_true_r. unfold dot.
  destruct (is_line_terminator c) eqn:Hlt; [|reflexivity].
  apply line_terminator_is_no_name_char in Hlt as [Hlt _]. congruence.
Qed.

Lemma all_chars_append (p : ascii -> bool) (s1 s2 : string) :
  all_chars p (s1 +:+ s2) = all_chars p s1 && all_chars p s2.
Proof.
  induction s1 as [|c s1 IH]; [reflexivity|]. rewrite append_cons. simpl.
  now rewrite IH, andb_assoc.
Qed.

(** A token that matches an argument pattern is not empty and holds no
    line terminator. *)
Lemma matched_token_is_one_line (token : string) (matches : Matches) :
  matchArgument token = Some matches ->
  negb (String.eqb token "") && all_chars dot token = true.
Proof.
  intros Hm. pose proof (matchArgument_is_name _ _ Hm) as (c & rest & Hname & Hc & Hall).
  assert (all_chars dot (group1 matches) = true) as Hdots.
  { rewrite Hname. apply name_chars_are_dots. simpl. rewrite Hall, andb_true_r.
    unfold is_name_char. now rewrite Hc. }
  apply matchArgument_Some in Hm as [Hlong|[Hshort _]].
  - destruct matches as [name value]. apply long_form_parts in Hlong as (tail & -> & Htail).
    simpl in Hdots. rewrite !append_cons, append_empty_l. simpl.
    rewrite all_chars_append, Hdots. simpl.
    apply value_part_iff in Htail as [[-> _]|(text & -> & _ & Htext & _)]; [reflexivity|].
    rewrite append_cons, append_empty_l. simpl. now rewrite Htext.
  - apply short_form in Hshort as [-> _]. rewrite append_cons, append_empty_l. simpl.
    now rewrite Hdots.
Qed.

(** X15. A value that itself matches an argument pattern (a negative
    number such as [-5], say) cannot be given after a space: in
    [--name value] the token [--name] is recorded with the no-value marker
    and [value] is tokenized as an argument of its own. Given as
    [--name=value] it is recorded verbatim. *)
Theorem X15_argument_like_values_need_the_equals_sign
    (name value : string) (matches : Matches) :
  is_name name ->
  matchArgument value = Some matches ->
  getRawArguments ["--" +:+ name; value] =
    Normal (JsObject.set (group1 matches)
              match group2 matches with
              | Some text => RawString text
              | None => RawNull
              end
              [(name, RawNull)])
  /\ getRawArguments ["--" +:+ name +:+ "=" +:+ value] = Normal [(name, RawString value)].
Proof.
  intros Hname Hvalue. split.
  - rewrite getRawArguments_tokenize. simpl.
    destruct (matchArgument_bare name Hname) as [Hbare _].
    unfold consumesNext, boundValue. rewrite Hbare. simpl. rewrite Hvalue. simpl.
    rewrite set_empty. now destruct (group2 matches).
  - apply getRawArguments_valued_token; [assumption|].
    now apply matched_token_is_one_line with matches.
Qed.

(** The command lines [--count -5] and [--count=-5]. *)
Lemma X15_witness_minus_five :
  getRawArguments ["--count"; "-5"] = Normal [("5", RawNull); ("count", RawNull)]
  /\ getRawArguments ["--count=-5"] = Normal [("count", RawString "-5")].
Proof.
  apply (X15_argument_like_values_need_the_equals_sign "count" "-5"
           {| group1 := "5"; group2 := None |}).
  - exists "c"%char, "ount". auto.
  - reflexivity.
Defined.

(** ** More on inherited properties *)

Section PrototypeExtras.
Context `{NumberOps}.

(** X16. For a schema none of whose parameter names is the name of a
    member of [Object.prototype], the reads that find inherited members
    change nothing: the resolver is the resolver read by own properties,
    the object it returns keeps its prototype and holds values of the
    declared type only, and it throws no error but those of its [throw]
    statements. *)
Theorem X16_ordinary_names_inherit_nothing
    (schema : ParametersConfig) (rawArguments : RawArguments) :
  Forall Prototype.ordinary (JsObject.keys schema) ->
  Prototype.getCommandParameters schema rawArguments
  = Prototype.thrown Prototype.plain (getCommandParameters schema rawArguments)
  /\ (forall commandParameters,
         Prototype.getCommandParameters schema rawArguments
         = Prototype.Returns commandParameters ->
         Prototype.hasPrototype commandParameters = true
         /\ Forall (fun property => exists value, property.2 = Prototype.Plain value)
                   (Prototype.properties commandParameters))
  /\ (forall e,
         Prototype.getCommandParameters schema rawArguments = Prototype.Throws e ->
         exists thrown, e = Prototype.Thrown thrown).
Proof.
  intros Hord. rewrite (getCommandParameters_ordinary schema rawArguments Hord).
  split; [reflexivity|].
  destruct (getCommandParameters schema rawArguments) as [o|e]; simpl.
  - split; [|discriminate]. intros commandParameters [= <-]. split; [reflexivity|].
    simpl. induction o as [|[k v] o IH]; constructor; simpl; eauto.
  - split; [discriminate|]. intros e' [= <-]. eauto.
Qed.

(** The callback of a parameter whose name is not [__proto__] leaves the
    prototype of the object as it is. *)
Lemma resolveParameter_keeps_prototype (rawArguments : RawArguments)
    (commandParameters commandParameters' : Prototype.HostParameters)
    (name : string) (p : AbstractParameter) (missing : bool) :
  name <> "__proto__" ->
  Prototype.hasPrototype commandParameters = true ->
  Prototype.resolveParameter rawArguments commandParameters (name, p)
  = Prototype.Returns (commandParameters', missing) ->
  Prototype.hasPrototype commandParameters' = true
  /\ (Prototype.inherited name = true -> missing = false).
Proof.
  intros Hname Hproto.
  assert (forall v o, Prototype.hasPrototype o = true ->
                      Prototype.hasPrototype (Prototype.assign name v o) = true) as Hassign.
  { intros v o Ho. unfold Prototype.assign.
    apply String.eqb_neq in Hname. rewrite Hname, andb_false_r.
    now destruct (JsObject.has name (Prototype.properties o)). }
  assert (forall o, Prototype.hasPrototype o = true ->
                    Prototype.hasPrototype (Prototype.assignMember name o) = true)
    as HassignMember.
  { intros o Ho. unfold Prototype.assignMember.
    apply String.eqb_neq in Hname. rewrite Hname, andb_false_r.
    now destruct (JsObject.has name (Prototype.properties o)). }
  assert (forall o, Prototype.hasPrototype o = true ->
                    Prototype.inherited name = true ->
                    Prototype.isUndefined (Prototype.readParameter name o) = false)
    as Hread.
  { intros o Ho Hmember. unfold Prototype.readParameter. rewrite Ho, Hmember.
    now destruct (JsObject.get name (Prototype.properties o)). }
  unfold Prototype.resolveParameter.
  set (o1 := match type p with
             | TBoolean => Prototype.assign name (VBoolean false) commandParameters
             | _ => commandParameters
             end).
  assert (Prototype.hasPrototype o1 = true) as Ho1.
  { subst o1. destruct (type p); auto. }
  set (o2 := match defaultValue p with
             | Some value => Prototype.assign name value o1
             | None => o1
             end).
  assert (Prototype.hasPrototype o2 = true) as Ho2.
  { subst o2. destruct (defaultValue p); auto. }
  clearbody o2. clear o1 Ho1.
  destruct (Prototype.read name rawArguments) as [|[|s]|].
  - cbn. intros [= <- <-]. auto.
  - cbn. intros [= <- <-]. auto.
  - unfold Prototype.applyRawArgument.
    destruct (type p); cbv beta iota zeta;
      repeat match goal with
             | |- context [if ?b then _ else _] => destruct b
             end;
      cbn; try discriminate; intros [= <- <-]; auto.
  - unfold Prototype.applyMember. destruct (type p); cbn; try discriminate.
    intros [= <- <-]. auto.
Qed.

(** Through the whole pass, when no parameter is named [__proto__]: no
    entry kept as missing bears the name of a member of
    [Object.prototype]. *)
Lemma filterEntries_keeps_no_member (rawArguments : RawArguments) :
  forall (entries : list (string * AbstractParameter))
         (commandParameters commandParameters' : Prototype.HostParameters)
         (kept : list (string * AbstractParameter)),
    ~ In "__proto__" (JsObject.keys entries) ->
    Prototype.hasPrototype commandParameters = true ->
    Prototype.filterEntries rawArguments entries commandParameters
    = Prototype.Returns (commandParameters', kept) ->
    forall entry, In entry kept -> Prototype.inherited entry.1 = false.
Proof.
  induction entries as [|[name p] entries IH];
    intros commandParameters commandParameters' kept Hnone Hproto.
  - intros [= <- <-] entry [].
  - cbn [Prototype.filterEntries].
    destruct (Prototype.resolveParameter rawArguments commandParameters (name, p))
      as [[o1 missing]|e] eqn:Hstep; cbn -[Prototype.inherited]; [|discriminate].
    destruct (Prototype.filterEntries rawArguments entries o1) as [[o2 kept']|e] eqn:Hrest;
      cbn -[Prototype.inherited]; [|discriminate].
    intros [= <- <-].
    assert (name <> "__proto__") as Hname.
    { intros ->. apply Hnone. now left. }
    destruct (resolveParameter_keeps_prototype _ _ _ _ _ _ Hname Hproto Hstep)
      as [Ho1 Hmember].
    assert (forall entry, In entry kept' -> Prototype.inherited entry.1 = false) as Hkept.
    { apply (IH o1 o2 kept'); [|assumption|assumption].
      intros Hin. apply Hnone. now right. }
    intros entry Hin. destruct missing; [|now apply Hkept].
    destruct Hin as [<-|Hin]; [|now apply Hkept].
    cbn [fst]. destruct (Prototype.inherited name) eqn:Hinherited; [|reflexivity].
    now specialize (Hmember eq_refl).
Qed.

(** X18. In a schema with no parameter named [__proto__], a parameter
    that bears the name of a member of [Object.prototype] is never listed
    in a missing-arguments failure, whatever its type, its default and
    the raw arguments: the read of [commandParameters] under its name
    finds the inherited member. *)
Theorem X18_members_are_never_reported_missing
    (schema : ParametersConfig) (rawArguments : RawArguments)
    (name : string) (names : list string) :
  ~ In "__proto__" (JsObject.keys schema) ->
  Prototype.inherited name = true ->
  Prototype.getCommandParameters schema rawArguments
  = Prototype.Throws (Prototype.Thrown (MissingArguments names)) ->
  ~ In name names.
Proof.
  intros Hnone Hmember. unfold Prototype.getCommandParameters, JsObject.entries.
  destruct (Prototype.filterEntries rawArguments schema Prototype.emptyParameters)
    as [[o kept]|e] eqn:Hpass; cbn.
  - destruct kept as [|entry kept]; simpl.
    + destruct (unknownArgumentsOf schema rawArguments); discriminate.
    + intros [= <-] Hin.
      change (In name (map fst (entry :: kept))) in Hin.
      apply in_map_iff in Hin as (entry' & <- & Hin).
      pose proof (filterEntries_keeps_no_member rawArguments schema
                    Prototype.emptyParameters o (entry :: kept) Hnone eq_refl Hpass
                    entry' Hin).
      congruence.
  - intros [= ->]. revert Hpass. generalize Prototype.emptyParameters.
    induction schema as [|[k p] schema IH]; intros o; [discriminate|].
    cbn [Prototype.filterEntries].
    destruct (Prototype.resolveParameter rawArguments o (k, p)) as [[o1 missing]|e] eqn:Hstep;
      cbn.
    + destruct (Prototype.filterEntries rawArguments schema o1) as [[o2 kept]|e] eqn:Hrest;
        cbn; [discriminate|].
      intros [= ->]. apply (IH ltac:(intros Hin; apply Hnone; now right) o1 Hrest).
    + intros [= ->]. revert Hstep. unfold Prototype.resolveParameter.
      destruct (Prototype.read k rawArguments) as [|[|s]|]; cbn; try discriminate.
      * unfold Prototype.applyRawArgument.
        destruct (type p); cbv beta iota zeta;
          repeat match goal with
                 | |- context [if ?b then _ else _] => destruct b
                 end; cbn; discriminate.
      * unfold Prototype.applyMember. destruct (type p); cbn; discriminate.
Qed.

End PrototypeExtras.

Section PrototypeDispatchExtras.
Context `{NumberOps} {unknown : Type}.

(** X17. A command name that is the name of a member of
    [Object.prototype] and is not registered is not reported as unknown:
    the lookup finds the inherited member, the tokens after the name are
    tokenized, a malformed one is reported, and when they are all well
    formed the dispatch ends in the TypeError of [Object.entries], the
    member having no [parameters]. *)
Theorem X17_member_command_is_not_unknown
    (commandConfigs : Prototype.CommandConfigs (unknown := unknown))
    (program script name : string) (tokens : list string) :
  COMMAND_NAME_REGEXP name = true ->
  Prototype.inherited name = true ->
  commandConfigs !! name = None ->
  Prototype.getCommandConfig commandConfigs name
  = Prototype.Returns (Prototype.BuiltIn name)
  /\ Prototype.getCommandExecutable commandConfigs (program :: script :: name :: tokens)
     = match getRawArguments tokens with
       | Throw e => Prototype.Throws (Prototype.Thrown e)
       | Normal _ => Prototype.Throws Prototype.EntriesOfUndefined
       end.
Proof.
  intros Hname Hmember Hlookup. split.
  - unfold Prototype.getCommandConfig. now rewrite Hlookup, Hmember.
  - assert (name <> "default") as Hne by (intros ->; vm_compute in Hmember; discriminate).
    pose proof (getCommandName_cases (program :: script :: name :: tokens)) as Hcases.
    simpl in Hcases. destruct Hcases as (_ & Hnamed & _).
    destruct (Hnamed Hname) as [Hresolved Harguments].
    unfold Prototype.getCommandExecutable, Prototype.getCommandConfig.
    rewrite Hresolved. cbn -[Prototype.inherited].
    rewrite Hlookup, Hmember, (Harguments Hne). cbn. change (drop 0 tokens) with tokens.
    now destruct (getRawArguments tokens).
Qed.

End PrototypeDispatchExtras.

(** The greeting schema, whose names are ordinary. *)
Lemma X16_witness_greeting :
  Prototype.getCommandParameters greetParameters [("name", RawString "Ada")]
  = Prototype.Returns
      (Prototype.plain [("name", VString "Ada"); ("loud", VBoolean false)]).
Proof.
  destruct (X16_ordinary_names_inherit_nothing greetParameters [("name", RawString "Ada")])
    as [Hagree _].
  - repeat constructor.
  - exact Hagree.
Defined.

(** The command lines [constructor bad] and [constructor]. *)
Lemma X17_witness_constructor :
  Prototype.getCommandExecutable memberRegistry ["node"; "bin"; "constructor"; "bad"]
  = Prototype.Throws (Prototype.Thrown (MalformedArgument "bad"))
  /\ Prototype.getCommandExecutable memberRegistry ["node"; "bin"; "constructor"]
     = Prototype.Throws Prototype.EntriesOfUndefined.
Proof.
  split.
  - destruct (X17_member_command_is_not_unknown memberRegistry "node" "bin" "constructor"
                ["bad"]) as [_ Hdispatch];
      [reflexivity | reflexivity | vm_compute; reflexivity | exact Hdispatch].
  - destruct (X17_member_command_is_not_unknown memberRegistry "node" "bin" "constructor"
                []) as [_ Hdispatch];
      [reflexivity | reflexivity | vm_compute; reflexivity | exact Hdispatch].
Defined.

(** A schema with the parameters [toString] and [age], and no raw
    argument: [age] is reported missing, [toString] is not. *)
Lemma X18_witness_toString_and_age :
  Prototype.getCommandParameters
    [("toString", parameterOf TString None); ("age", parameterOf TNumber None)] []
  = Prototype.Throws (Prototype.Thrown (MissingArguments ["age"]))
  /\ ~ In "toString" ["age"].
Proof.
  split; [reflexivity|].
  apply (X18_members_are_never_reported_missing
           [("toString", parameterOf TString None); ("age", parameterOf TNumber None)] []
           "toString" ["age"]).
  - intros [Hin|[Hin|[]]]; discriminate.
  - reflexivity.
  - reflexivity.
Defined.
